(** * SST snapshot storage: staging area, scratches and staging files

    A shallow embedding of [pkg/kv/kvserver/replica_sst_snapshot_storage.go].
    The Go objects live in a world: the one [SSTSnapshotStorage] with its
    reference-count map, a heap of scratches and a heap of files.  Pointers
    ([*SSTSnapshotStorageScratch], [*SSTSnapshotStorageFile]) are indices into
    these heaps, so that a file and its owner see the same scratch.  The
    storage engine, the [fs.File] handles and the rate limiter are
    collaborators defined outside of this file of the package; they are
    taken as an interface ([Externals]).  A Go panic is an outcome of its own,
    distinct from a returned [error]. *)

From Stdlib Require Import ZArith String Ascii List Lia.
From Stdlib Require Import Decimal DecimalString DecimalZ DecimalPos.
From stdpp Require Import gmap strings list.

Open Scope Z_scope.
Open Scope string_scope.

(** ** Go library functions used by the source *)

(** Go's [int] and [int64] are 64 bits wide, two's complement. *)
Definition min_int : Z := - 2 ^ 63.
Definition max_int : Z := 2 ^ 63 - 1.
Definition wrap_int (z : Z) : Z := (z + 2 ^ 63) mod 2 ^ 64 - 2 ^ 63.

(** [strconv.Itoa]: decimal digits, a leading minus sign for negatives. *)
Definition Itoa (z : Z) : string := NilZero.string_of_int (Z.to_int z).

(** [fmt.Sprintf("%d.sst", id)]. *)
Definition Sprintf_d_sst (id : Z) : string := Itoa id ++ ".sst".

Definition is_sep (c : ascii) : bool := Ascii.eqb c "/"%char.

(** The elements of a path between its separators; never the empty list. *)
Fixpoint split_path (p : string) : list string :=
  match p with
  | EmptyString => [EmptyString]
  | String c r =>
      if is_sep c then EmptyString :: split_path r
      else match split_path r with
           | [] => [String c EmptyString]
           | h :: t => String c h :: t
           end
  end.

Fixpoint join_sep (l : list string) : string :=
  match l with
  | [] => EmptyString
  | [x] => x
  | x :: r => x ++ "/" ++ join_sep r
  end.

Definition rooted (p : string) : bool :=
  match p with
  | String c _ => is_sep c
  | EmptyString => false
  end.

(** One element of [filepath.Clean]'s loop.  [out] is the output so far, last
    element first: empty and [.] elements are dropped, [..] removes the last
    real element when there is one, is dropped at the root and is kept at the
    head of a relative path. *)
Definition clean_step (root : bool) (out : list string) (e : string) : list string :=
  if String.eqb e "" then out
  else if String.eqb e "." then out
  else if String.eqb e ".." then
    match out with
    | top :: rest => if String.eqb top ".." then e :: out else rest
    | [] => if root then [] else [e]
    end
  else e :: out.

(** The loop over all elements, from an empty output. *)
Definition clean_elems (root : bool) (l : list string) : list string :=
  fold_left (clean_step root) l [].

(** The output as a string: the root if there is one, the elements with
    separators between them; an empty relative path is [.]. *)
Definition render (root : bool) (out : list string) : string :=
  if root then "/" ++ join_sep (rev out)
  else match out with
       | [] => "."
       | _ => join_sep (rev out)
       end.

(** [filepath.Clean] on a Unix path. *)
Definition Clean (p : string) : string :=
  if String.eqb p "" then "."
  else render (rooted p) (clean_elems (rooted p) (split_path p)).

(** [filepath.Join]: leading empty elements are skipped, the rest is joined
    with the separator and cleaned; all elements empty gives the empty string. *)
Fixpoint Join (elem : list string) : string :=
  match elem with
  | [] => ""
  | e :: r => if String.eqb e "" then Join r else Clean (join_sep elem)
  end.

(** A string without separator, and a path element that is an ordinary
    name: not empty, not [.] or [..], without separator. *)
Fixpoint no_sep (e : string) : bool :=
  match e with
  | EmptyString => true
  | String c r => negb (is_sep c) && no_sep r
  end.

Definition plain (e : string) : bool :=
  negb (String.eqb e "") && negb (String.eqb e ".") && negb (String.eqb e "..")
  && no_sep e.

(** The outputs [filepath.Clean] builds: ordinary names on top of [..]
    elements, which a rooted path does not have. *)
Definition stack_ok (root : bool) (out : list string) : Prop :=
  exists names k,
    out = (names ++ repeat ".." k)%list /\
    Forall (fun e => plain e = true) names /\
    (root = true -> k = 0%nat).

(** ** Collaborators *)

(** What the source takes from outside: the storage engine with its
    directory and file primitives ([storage.Engine], [fs.File]), the rate
    limiter behind [limitBulkIOWrite], contexts and snapshot identifiers.
    Every primitive reads and updates the state of its collaborator and may
    fail with an error of the collaborator's own.  [Create] and
    [CreateWithSync] return a Go pair (handle, error); the source stores the
    handle before it looks at the error. *)
Record Externals : Type := {
  Engine : Type;
  FsFile : Type;
  Limiter : Type;
  Ctx : Type;
  UUID : Type;
  ExtError : Type;
  GetAuxiliaryDir : Engine -> string;
  MkdirAll : string -> Engine -> option ExtError * Engine;
  RemoveAll : string -> Engine -> option ExtError * Engine;
  Create : string -> Engine -> (option FsFile * option ExtError) * Engine;
  CreateWithSync : string -> Z -> Engine -> (option FsFile * option ExtError) * Engine;
  FileWrite : FsFile -> list Byte.byte -> Engine -> (Z * option ExtError) * Engine;
  FileSync : FsFile -> Engine -> option ExtError * Engine;
  FileClose : FsFile -> Engine -> option ExtError * Engine;
  limitBulkIOWrite : Ctx -> Limiter -> Z -> option ExtError * Limiter;
  UUID_String : UUID -> string;
}.

Section Storage.

Context {X : Externals}.

(** ** Data model *)

(** Go [error] values: the three constructors the source calls, and errors
    handed through from a collaborator.  [nil] is [None]. *)
Inductive error : Type :=
  | AssertionFailedf (msg : string)
  | Errorf (msg : string)
  | New (msg : string)
  | External (e : ExtError X).

Definition lift_err (e : option (ExtError X)) : option error :=
  match e with
  | Some x => Some (External x)
  | None => None
  end.

Definition is_nil {A : Type} (o : option A) : bool :=
  match o with
  | None => true
  | Some _ => false
  end.

Record SSTSnapshotStorage : Type := {
  engine : Engine X;
  limiter : Limiter X;
  dir : string;
  rangeRefCount : gmap Z Z;
}.

(** The [storage] pointer of a scratch designates the world's storage. *)
Record SSTSnapshotStorageScratch : Type := {
  rangeID : Z;
  ssts : list string;
  snapDir : string;
  dirCreated : bool;
  closed : bool;
}.

Record SSTSnapshotStorageFile : Type := {
  scratch : nat;
  created : bool;
  file : option (FsFile X);
  filename : string;
  ctx : Ctx X;
  bytesPerSync : Z;
}.

Record World : Type := {
  storage : SSTSnapshotStorage;
  scratches : list SSTSnapshotStorageScratch;
  files : list SSTSnapshotStorageFile;
}.

(** ** Outcomes: return or panic, with the world left behind *)

Inductive outcome (A : Type) : Type :=
  | Ret (a : A) (w : World)
  | Panic (msg : string) (w : World).
Arguments Ret {A} a w.
Arguments Panic {A} msg w.

Definition M (A : Type) : Type := World -> outcome A.

Definition ret {A : Type} (a : A) : M A := fun w => Ret a w.

Definition bind {A B : Type} (m : M A) (k : A -> M B) : M B :=
  fun w =>
    match m w with
    | Ret a w1 => k a w1
    | Panic msg w1 => Panic msg w1
    end.

Definition panic {A : Type} (msg : string) : M A := fun w => Panic msg w.

(** [defer d] around a body: [d] runs when the body has returned, and also
    when it panicked; the value returned is the body's, and a panic of [d]
    goes to the caller. *)
Definition defer {A B : Type} (d : M B) (body : M A) : M A :=
  fun w =>
    match body w with
    | Ret a w1 =>
        match d w1 with
        | Ret _ w2 => Ret a w2
        | Panic msg w2 => Panic msg w2
        end
    | Panic msg w1 =>
        match d w1 with
        | Ret _ w2 => Panic msg w2
        | Panic msg' w2 => Panic msg' w2
        end
    end.

End Storage.

Arguments error X : clear implicits.
Arguments World X : clear implicits.
Arguments SSTSnapshotStorage X : clear implicits.
Arguments SSTSnapshotStorageFile X : clear implicits.
Arguments M X A : clear implicits.
Arguments outcome X A : clear implicits.
Arguments Ret {X A} a w.
Arguments Panic {X A} msg w.

Notation "'let*' x ':=' c 'in' k" := (bind c (fun x => k))
  (at level 10, x pattern, c at level 100, k at level 200).
Notation "c ';;' k" := (bind c (fun _ => k))
  (at level 100, k at level 200, right associativity).

(** ** The operations of the source *)

Section Operations.

Context {X : Externals}.

Definition nil_deref : string :=
  "runtime error: invalid memory address or nil pointer dereference".

Definition scratch_closed_msg : string := "SSTSnapshotStorageScratch closed".

(** *** Access to the world *)

(** Updates of one part of the world. *)
Definition with_engine (w : World X) (e : Engine X) : World X :=
  {| storage := {| engine := e;
                   limiter := limiter (storage w);
                   dir := dir (storage w);
                   rangeRefCount := rangeRefCount (storage w) |};
     scratches := scratches w;
     files := files w |}.

Definition with_limiter (w : World X) (l : Limiter X) : World X :=
  {| storage := {| engine := engine (storage w);
                   limiter := l;
                   dir := dir (storage w);
                   rangeRefCount := rangeRefCount (storage w) |};
     scratches := scratches w;
     files := files w |}.

Definition with_rangeRefCount (w : World X) (m : gmap Z Z) : World X :=
  {| storage := {| engine := engine (storage w);
                   limiter := limiter (storage w);
                   dir := dir (storage w);
                   rangeRefCount := m |};
     scratches := scratches w;
     files := files w |}.

Definition with_scratches (w : World X) (l : list SSTSnapshotStorageScratch) : World X :=
  {| storage := storage w; scratches := l; files := files w |}.

Definition with_files (w : World X) (l : list (SSTSnapshotStorageFile X)) : World X :=
  {| storage := storage w; scratches := scratches w; files := l |}.

Definition get_storage : M X (SSTSnapshotStorage X) :=
  fun w => Ret (storage w) w.

Definition set_rangeRefCount (m : gmap Z Z) : M X unit :=
  fun w => Ret tt (with_rangeRefCount w m).

(** A call of an engine or file primitive: it sees the engine, and the
    engine it leaves replaces the old one. *)
Definition engine_call {A : Type} (op : Engine X -> A * Engine X) : M X A :=
  fun w =>
    let r := op (engine (storage w)) in
    Ret (fst r) (with_engine w (snd r)).

Definition limiter_call {A : Type} (op : Limiter X -> A * Limiter X) : M X A :=
  fun w =>
    let r := op (limiter (storage w)) in
    Ret (fst r) (with_limiter w (snd r)).

(** Reading through a pointer; a pointer that designates nothing is [nil]. *)
Definition get_scratch (s : nat) : M X SSTSnapshotStorageScratch :=
  fun w =>
    match scratches w !! s with
    | Some sc => Ret sc w
    | None => Panic nil_deref w
    end.

Definition set_scratch (s : nat) (sc : SSTSnapshotStorageScratch) : M X unit :=
  fun w => Ret tt (with_scratches w (<[s := sc]> (scratches w))).

Definition new_scratch (sc : SSTSnapshotStorageScratch) : M X nat :=
  fun w => Ret (length (scratches w)) (with_scratches w (scratches w ++ [sc])).

Definition get_file (f : nat) : M X (SSTSnapshotStorageFile X) :=
  fun w =>
    match files w !! f with
    | Some fl => Ret fl w
    | None => Panic nil_deref w
    end.

Definition set_file (f : nat) (fl : SSTSnapshotStorageFile X) : M X unit :=
  fun w => Ret tt (with_files w (<[f := fl]> (files w))).

Definition new_file (fl : SSTSnapshotStorageFile X) : M X nat :=
  fun w => Ret (length (files w)) (with_files w (files w ++ [fl])).

(** Field updates. *)
Definition with_ssts (sc : SSTSnapshotStorageScratch) (l : list string) :=
  {| rangeID := rangeID sc; ssts := l; snapDir := snapDir sc;
     dirCreated := dirCreated sc; closed := closed sc |}.

Definition with_dirCreated (sc : SSTSnapshotStorageScratch) (b : bool) :=
  {| rangeID := rangeID sc; ssts := ssts sc; snapDir := snapDir sc;
     dirCreated := b; closed := closed sc |}.

Definition with_closed (sc : SSTSnapshotStorageScratch) (b : bool) :=
  {| rangeID := rangeID sc; ssts := ssts sc; snapDir := snapDir sc;
     dirCreated := dirCreated sc; closed := b |}.

Definition with_file (fl : SSTSnapshotStorageFile X) (h : option (FsFile X)) :=
  {| scratch := scratch fl; created := created fl; file := h;
     filename := filename fl; ctx := ctx fl; bytesPerSync := bytesPerSync fl |}.

Definition with_created (fl : SSTSnapshotStorageFile X) (b : bool) :=
  {| scratch := scratch fl; created := b; file := file fl;
     filename := filename fl; ctx := ctx fl; bytesPerSync := bytesPerSync fl |}.

(** *** SSTSnapshotStorage *)

(** [NewSSTSnapshotStorage]: the root is the auxiliary directory's
    [sstsnapshot], the count map is empty. *)
Definition NewSSTSnapshotStorage (e : Engine X) (l : Limiter X) : SSTSnapshotStorage X :=
  {| engine := e;
     limiter := l;
     dir := Join [GetAuxiliaryDir X e; "sstsnapshot"];
     rangeRefCount := ∅ |}.

(** The world a new storage starts in: no scratch, no file. *)
Definition init_world (e : Engine X) (l : Limiter X) : World X :=
  {| storage := NewSSTSnapshotStorage e l; scratches := []; files := [] |}.

(** Reading a Go map at a missing key gives the zero value. *)
Definition refcount (m : gmap Z Z) (r : Z) : Z := default 0 (m !! r).

(** [NewScratchSpace]: the count of the range goes up by one, and a new
    scratch is allocated; nothing happens on the disk.  The operations run
    one at a time, so the mutex around the count map does not show. *)
Definition NewScratchSpace (rangeID : Z) (snapUUID : UUID X) : M X nat :=
  let* s := get_storage in
  set_rangeRefCount
    (<[rangeID := wrap_int (refcount (rangeRefCount s) rangeID + 1)]> (rangeRefCount s)) ;;
  let snapDir := Join [dir s; Itoa rangeID; UUID_String X snapUUID] in
  new_scratch {| rangeID := rangeID; ssts := []; snapDir := snapDir;
                 dirCreated := false; closed := false |}.

(** [Clear]: the root is removed, with what the engine says about it. *)
Definition Clear : M X (option (error X)) :=
  let* s := get_storage in
  let* err := engine_call (RemoveAll X (dir s)) in
  ret (lift_err err).

(** [scratchClosed]: a count that is not positive is a panic; otherwise the
    count goes down by one, and at zero the entry is deleted and the
    directory of the range removed, the error of that removal dropped. *)
Definition scratchClosed (rangeID : Z) : M X unit :=
  let* s := get_storage in
  let val := refcount (rangeRefCount s) rangeID in
  if (val <=? 0)%Z then panic "inconsistent scratch ref count"
  else
    let val := wrap_int (val - 1) in
    set_rangeRefCount (<[rangeID := val]> (rangeRefCount s)) ;;
    if (val =? 0)%Z then
      let* s := get_storage in
      set_rangeRefCount (delete rangeID (rangeRefCount s)) ;;
      let* _ := engine_call (RemoveAll X (Join [dir s; Itoa rangeID])) in
      ret tt
    else ret tt.

(** *** SSTSnapshotStorageScratch: file names and the directory *)

(** [filename]: the directory of the scratch joined with [id.sst]. *)
Definition Scratch_filename (sc : SSTSnapshotStorageScratch) (id : Z) : string :=
  Join [snapDir sc; Sprintf_d_sst id].

(** [createDir]: dirCreated is set when MkdirAll succeeds, and never reset. *)
Definition Scratch_createDir (s : nat) : M X (option (error X)) :=
  let* sc := get_scratch s in
  let* err := engine_call (MkdirAll X (snapDir sc)) in
  let* sc := get_scratch s in
  set_scratch s (with_dirCreated sc (dirCreated sc || is_nil err)) ;;
  ret (lift_err err).

(** [NewFile]: refused on a closed scratch; otherwise the next name, numbered
    by the count of names so far, is appended to the names and a file object
    allocated for it.  The file itself is not created. *)
Definition Scratch_NewFile (s : nat) (c : Ctx X) (bps : Z)
  : M X (option nat * option (error X)) :=
  let* sc := get_scratch s in
  if closed sc then ret (None, Some (AssertionFailedf scratch_closed_msg))
  else
    let id := Z.of_nat (length (ssts sc)) in
    let name := Scratch_filename sc id in
    set_scratch s (with_ssts sc (ssts sc ++ [name])) ;;
    let* f := new_file {| scratch := s; created := false; file := None;
                          filename := name; ctx := c; bytesPerSync := bps |} in
    ret (Some f, None).

(** [SSTs]: the names so far. *)
Definition Scratch_SSTs (s : nat) : M X (list string) :=
  let* sc := get_scratch s in
  ret (ssts sc).

(** *** SSTSnapshotStorageFile *)

(** [ensureFile]: a created file is either open or closed for good; a file
    not yet created gets the directory of its scratch made first, unless it
    was made already, then the closed flag of the scratch is looked at, and
    then the file is created, with periodic syncing for a positive
    bytesPerSync. *)
Definition File_ensureFile (f : nat) : M X (option (error X)) :=
  let* fl := get_file f in
  if created fl then
    if is_nil (file fl) then ret (Some (Errorf "file has already been closed"))
    else ret None
  else
    let* sc := get_scratch (scratch fl) in
    let* err := (if negb (dirCreated sc) then Scratch_createDir (scratch fl)
                 else ret None) in
    match err with
    | Some e => ret (Some e)
    | None =>
        let* sc := get_scratch (scratch fl) in
        if closed sc then ret (Some (AssertionFailedf scratch_closed_msg))
        else
          let* r := (if (bytesPerSync fl >? 0)%Z
                     then engine_call (CreateWithSync X (filename fl) (bytesPerSync fl))
                     else engine_call (Create X (filename fl))) in
          let* fl := get_file f in
          set_file f (with_file fl (fst r)) ;;
          match snd r with
          | Some e => ret (Some (External e))
          | None =>
              let* fl := get_file f in
              set_file f (with_created fl true) ;;
              ret None
          end
    end.

(** [Write]: nothing for empty contents; otherwise ensureFile, then the
    limiter with the length of the contents, then the write itself. *)
Definition File_Write (f : nat) (contents : list Byte.byte)
  : M X (Z * option (error X)) :=
  if (Z.of_nat (length contents) =? 0)%Z then ret (0, None)
  else
    let* err := File_ensureFile f in
    match err with
    | Some e => ret (0, Some e)
    | None =>
        let* fl := get_file f in
        let* err := limiter_call
                      (fun l => limitBulkIOWrite X (ctx fl) l (Z.of_nat (length contents))) in
        match err with
        | Some e => ret (0, Some (External e))
        | None =>
            let* fl := get_file f in
            match file fl with
            | None => panic nil_deref
            | Some h =>
                let* r := engine_call (FileWrite X h contents) in
                ret (fst r, lift_err (snd r))
            end
        end
    end.

(** [Close] of a file: an error for a file never created, nothing for a file
    without handle, else the handle is closed and, on success, dropped. *)
Definition File_Close (f : nat) : M X (option (error X)) :=
  let* fl := get_file f in
  if negb (created fl) then ret (Some (New "file is empty"))
  else
    match file fl with
    | None => ret None
    | Some h =>
        let* err := engine_call (FileClose X h) in
        match err with
        | Some e => ret (Some (External e))
        | None =>
            let* fl := get_file f in
            set_file f (with_file fl None) ;;
            ret None
        end
    end.

(** [Sync]: the handle's Sync, whatever the state of the file. *)
Definition File_Sync (f : nat) : M X (option (error X)) :=
  let* fl := get_file f in
  match file fl with
  | None => panic nil_deref
  | Some h =>
      let* err := engine_call (FileSync X h) in
      ret (lift_err err)
  end.

(** *** SSTSnapshotStorageScratch: writing and closing *)

(** [WriteSST]: refused on a closed scratch, nothing for empty data;
    otherwise a new file with a 512 KB sync threshold is written, synced and
    closed, and closed once more by the deferred call, whose result is
    dropped. *)
Definition Scratch_WriteSST (s : nat) (c : Ctx X) (data : list Byte.byte)
  : M X (option (error X)) :=
  let* sc := get_scratch s in
  if closed sc then ret (Some (AssertionFailedf scratch_closed_msg))
  else if (Z.of_nat (length data) =? 0)%Z then ret None
  else
    let* r := Scratch_NewFile s c (Z.shiftl 512 10) in
    match snd r with
    | Some e => ret (Some e)
    | None =>
        match fst r with
        | None => panic nil_deref
        | Some f =>
            defer (File_Close f)
              (let* r := File_Write f data in
               match snd r with
               | Some e => ret (Some e)
               | None =>
                   let* err := File_Sync f in
                   match err with
                   | Some e => ret (Some e)
                   | None => File_Close f
                   end
               end)
        end
    end.

(** [Close] of a scratch: nothing when closed already; otherwise the scratch
    is marked closed, its directory removed, and scratchClosed runs as the
    deferred call; the error returned is the removal's. *)
Definition Scratch_Close (s : nat) : M X (option (error X)) :=
  let* sc := get_scratch s in
  if closed sc then ret None
  else
    set_scratch s (with_closed sc true) ;;
    let* sc := get_scratch s in
    defer (scratchClosed (rangeID sc))
      (let* err := engine_call (RemoveAll X (snapDir sc)) in
       ret (lift_err err)).

End Operations.

(** ** The exported interface as calls, and the worlds it reaches *)

Section Interface.

Context {X : Externals}.

Inductive Call : Type :=
  | CallNewScratchSpace (rangeID : Z) (snapUUID : UUID X)
  | CallClear
  | CallNewFile (s : nat) (c : Ctx X) (bps : Z)
  | CallWriteSST (s : nat) (c : Ctx X) (data : list Byte.byte)
  | CallSSTs (s : nat)
  | CallScratchClose (s : nat)
  | CallWrite (f : nat) (contents : list Byte.byte)
  | CallFileClose (f : nat)
  | CallSync (f : nat).

Definition run (c : Call) : M X unit :=
  match c with
  | CallNewScratchSpace r u => NewScratchSpace r u ;; ret tt
  | CallClear => Clear ;; ret tt
  | CallNewFile s c bps => Scratch_NewFile s c bps ;; ret tt
  | CallWriteSST s c data => Scratch_WriteSST s c data ;; ret tt
  | CallSSTs s => Scratch_SSTs s ;; ret tt
  | CallScratchClose s => Scratch_Close s ;; ret tt
  | CallWrite f contents => File_Write f contents ;; ret tt
  | CallFileClose f => File_Close f ;; ret tt
  | CallSync f => File_Sync f ;; ret tt
  end.

(** A process holds fewer scratch objects than an [int] can count. *)
Definition heap_bounded (w : World X) : Prop :=
  (Z.of_nat (length (scratches w)) < max_int)%Z.

(** The worlds of a process that builds one storage and then uses the
    exported interface; a call that panics ends the process. *)
Inductive reachable : World X -> Prop :=
  | reachable_init (e : Engine X) (l : Limiter X) :
      reachable (init_world e l)
  | reachable_call (w w' : World X) (c : Call) :
      reachable w -> heap_bounded w -> run c w = Ret tt w' -> reachable w'.

(** A run of calls from a world, stopping at the first panic. *)
Fixpoint run_all (cs : list Call) : M X unit :=
  match cs with
  | [] => ret tt
  | c :: r => run c ;; run_all r
  end.

(** The same run, as a process would make it: it stops when the heap of
    scratches is full or a call panics. *)
Fixpoint run_checked (cs : list Call) (w : World X) : option (World X) :=
  match cs with
  | [] => Some w
  | c :: r =>
      if (Z.of_nat (length (scratches w)) <? max_int)%Z then
        match run c w with
        | Ret _ w1 => run_checked r w1
        | Panic _ _ => None
        end
      else None
  end.

(** *** The invariant of the heap and the reference counts *)

Definition is_open (r : Z) (sc : SSTSnapshotStorageScratch) : bool :=
  (rangeID sc =? r)%Z && negb (closed sc).

(** The number of scratches of range [r] that are not closed. *)
Fixpoint open_count (l : list SSTSnapshotStorageScratch) (r : Z) : nat :=
  match l with
  | [] => 0%nat
  | sc :: l' => ((if is_open r sc then 1 else 0) + open_count l' r)%nat
  end.

(** The map entry that stands for a count: none for zero. *)
Definition count_entry (n : nat) : option Z :=
  match n with
  | O => None
  | S _ => Some (Z.of_nat n)
  end.

Definition refs_positive (m : gmap Z Z) : Prop :=
  forall r v, m !! r = Some v -> (1 <= v)%Z.

Definition refs_in_range (m : gmap Z Z) : Prop :=
  forall r v, m !! r = Some v -> (min_int <= v <= max_int)%Z.

(** The names a scratch has handed out after [n] files. *)
Definition sst_names (sc : SSTSnapshotStorageScratch) (n : nat) : list string :=
  map (fun i => Scratch_filename sc (Z.of_nat i)) (seq 0 n).

Definition scratch_ok (w : World X) (sc : SSTSnapshotStorageScratch) : Prop :=
  ssts sc = sst_names sc (length (ssts sc)) /\
  exists u : UUID X,
    snapDir sc = Join [dir (storage w); Itoa (rangeID sc); UUID_String X u].

Definition file_ok (w : World X) (fl : SSTSnapshotStorageFile X) : Prop :=
  exists sc,
    scratches w !! scratch fl = Some sc /\
    (created fl = true -> dirCreated sc = true) /\
    (exists i, ssts sc !! i = Some (filename fl) /\
               filename fl = Scratch_filename sc (Z.of_nat i)).

Record consistent (w : World X) : Prop := {
  counts_ok : forall r,
    rangeRefCount (storage w) !! r = count_entry (open_count (scratches w) r);
  range_ok : refs_in_range (rangeRefCount (storage w));
  scratches_ok : forall s sc, scratches w !! s = Some sc -> scratch_ok w sc;
  files_ok : forall f fl, files w !! f = Some fl -> file_ok w fl;
}.

(** What a call may change in a scratch or a file that already exists:
    flags are only ever set, the list of names only grows at its end. *)
Definition scratch_grows (sc sc' : SSTSnapshotStorageScratch) : Prop :=
  rangeID sc' = rangeID sc /\
  snapDir sc' = snapDir sc /\
  (closed sc = true -> closed sc' = true) /\
  (dirCreated sc = true -> dirCreated sc' = true) /\
  exists more, ssts sc' = (ssts sc ++ more)%list.

Definition file_grows (fl fl' : SSTSnapshotStorageFile X) : Prop :=
  scratch fl' = scratch fl /\
  filename fl' = filename fl /\
  ctx fl' = ctx fl /\
  bytesPerSync fl' = bytesPerSync fl /\
  (created fl = true -> created fl' = true).

Record extends (w w' : World X) : Prop := {
  ext_dir : dir (storage w') = dir (storage w);
  ext_scratches : forall s sc, scratches w !! s = Some sc ->
    exists sc', scratches w' !! s = Some sc' /\ scratch_grows sc sc';
  ext_files : forall f fl, files w !! f = Some fl ->
    exists fl', files w' !! f = Some fl' /\ file_grows fl fl';
}.

(** *** What the operations on files leave alone *)

(** A scratch that differs at most by a dirCreated that got set. *)
Definition same_scratch (sc sc' : SSTSnapshotStorageScratch) : Prop :=
  rangeID sc' = rangeID sc /\
  ssts sc' = ssts sc /\
  snapDir sc' = snapDir sc /\
  closed sc' = closed sc /\
  (dirCreated sc = true -> dirCreated sc' = true).

(** The counts, the root and the two heaps keep their shape; a scratch may
    get its directory, a file may get created or lose its handle, and a file
    that was created and has no handle stays exactly as it is. *)
Record file_frame (w w' : World X) : Prop := {
  frame_dir : dir (storage w') = dir (storage w);
  frame_counts : rangeRefCount (storage w') = rangeRefCount (storage w);
  frame_scratches_len : length (scratches w') = length (scratches w);
  frame_files_len : length (files w') = length (files w);
  frame_scratches : forall s sc, scratches w !! s = Some sc ->
    exists sc', scratches w' !! s = Some sc' /\ same_scratch sc sc';
  frame_files : forall f fl, files w !! f = Some fl ->
    exists fl', files w' !! f = Some fl' /\ file_grows fl fl' /\
                (created fl = true -> file fl = None -> fl' = fl);
}.

(** What is final: a closed scratch keeps its names, and a file that was
    created and has lost its handle keeps everything. *)
Record settled (w w' : World X) : Prop := {
  settled_scratches : forall s sc,
    scratches w !! s = Some sc -> closed sc = true ->
    exists sc', scratches w' !! s = Some sc' /\ closed sc' = true /\
                ssts sc' = ssts sc;
  settled_files : forall f fl,
    files w !! f = Some fl -> created fl = true -> file fl = None ->
    files w' !! f = Some fl;
}.

(** An operation whose only panic is the dereference of nil. *)
Definition only_nil_panics {A : Type} (m : M X A) : Prop :=
  forall w msg w', m w = Panic msg w' -> msg = nil_deref.

(** The calls that create objects, list names, or carry no data. *)
Definition no_data (c : Call) : bool :=
  match c with
  | CallNewScratchSpace _ _ => true
  | CallNewFile _ _ _ => true
  | CallSSTs _ => true
  | CallWriteSST _ _ [] => true
  | CallWrite _ [] => true
  | _ => false
  end.

End Interface.

(** ** Collaborators in memory

    An engine that keeps directories and files in lists, with switches that
    make a primitive fail, and a limiter that records every request; they
    serve to run the operations on concrete inputs. *)

Module Mem.

Record engine_state : Type := {
  aux_dir : string;
  dirs : list string;
  contents : list (string * list Byte.byte);
  failing : list string;
}.

Definition fails (op : string) (e : engine_state) : bool :=
  existsb (String.eqb op) (failing e).

(** [p] itself or a path below it. *)
Definition under (p q : string) : bool :=
  String.eqb p q || String.prefix (p ++ "/") q.

Definition mkdir_all (p : string) (e : engine_state) : option string * engine_state :=
  if fails "MkdirAll" e then (Some "mkdir: input/output error", e)
  else (None, {| aux_dir := aux_dir e;
                 dirs := if existsb (String.eqb p) (dirs e) then dirs e else (dirs e ++ [p])%list;
                 contents := contents e;
                 failing := failing e |}).

Definition remove_all (p : string) (e : engine_state) : option string * engine_state :=
  if fails "RemoveAll" e then (Some "remove: input/output error", e)
  else (None, {| aux_dir := aux_dir e;
                 dirs := List.filter (fun q => negb (under p q)) (dirs e);
                 contents := List.filter (fun x => negb (under p (fst x))) (contents e);
                 failing := failing e |}).

Definition create (p : string) (e : engine_state)
  : (option string * option string) * engine_state :=
  if fails "Create" e then ((None, Some "create: input/output error"), e)
  else ((Some p, None),
        {| aux_dir := aux_dir e;
           dirs := dirs e;
           contents := (List.filter (fun x => negb (String.eqb p (fst x))) (contents e)
                          ++ [(p, [])])%list;
           failing := failing e |}).

Fixpoint append_to (p : string) (b : list Byte.byte)
  (l : list (string * list Byte.byte)) : list (string * list Byte.byte) :=
  match l with
  | [] => []
  | (q, c) :: r =>
      if String.eqb p q then (q, (c ++ b)%list) :: r else (q, c) :: append_to p b r
  end.

Definition file_write (h : string) (b : list Byte.byte) (e : engine_state)
  : (Z * option string) * engine_state :=
  if fails "Write" e then ((0%Z, Some "write: input/output error"), e)
  else ((Z.of_nat (length b), None),
        {| aux_dir := aux_dir e;
           dirs := dirs e;
           contents := append_to h b (contents e);
           failing := failing e |}).

Definition file_sync (h : string) (e : engine_state) : option string * engine_state :=
  if fails "Sync" e then (Some "sync: input/output error", e) else (None, e).

Definition file_close (h : string) (e : engine_state) : option string * engine_state :=
  if fails "Close" e then (Some "close: input/output error", e) else (None, e).

(** The limiter is the list of byte counts it was asked to admit; a context
    is cancelled or not, and a cancelled one is refused. *)
Definition limit (cancelled : bool) (l : list Z) (n : Z) : option string * list Z :=
  (if cancelled then Some "context canceled" else None, (l ++ [n])%list).

Definition X : Externals := {|
  Engine := engine_state;
  FsFile := string;
  Limiter := list Z;
  Ctx := bool;
  UUID := string;
  ExtError := string;
  GetAuxiliaryDir := aux_dir;
  MkdirAll := mkdir_all;
  RemoveAll := remove_all;
  Create := create;
  CreateWithSync := fun p _ => create p;
  FileWrite := file_write;
  FileSync := file_sync;
  FileClose := file_close;
  limitBulkIOWrite := limit;
  UUID_String := fun u => u;
|}.

Definition disk (failing : list string) : engine_state :=
  {| aux_dir := "/data/aux"; dirs := []; contents := []; failing := failing |}.

Definition start : World X := @init_world X (disk []) [].

(** The world after a run of calls; a panic leaves the world it struck in. *)
Definition after (cs : list (@Call X)) (w : World X) : World X :=
  match run_all cs w with
  | Ret _ w' => w'
  | Panic _ w' => w'
  end.

Definition x : Byte.byte := Byte.x78.

(** The scratch and the file the runs below create first. *)
Definition a_scratch (names : list string) (dirCreated closed : bool)
  : SSTSnapshotStorageScratch :=
  {| rangeID := 7; ssts := names; snapDir := "/data/aux/sstsnapshot/7/abcd";
     dirCreated := dirCreated; closed := closed |}.

Definition a_file (created cancelled : bool) : SSTSnapshotStorageFile X :=
  @Build_SSTSnapshotStorageFile X 0 created None
    "/data/aux/sstsnapshot/7/abcd/0.sst" cancelled 0.

(** One open scratch for range 7. *)
Definition opened : list (@Call X) := [@CallNewScratchSpace X 7%Z "abcd"].
Definition w_one : World X := after opened start.

(** The same on a disk whose RemoveAll fails. *)
Definition w_one_stuck : World X :=
  after opened (@init_world X (disk ["RemoveAll"]) []).

(** Two open scratches for range 7. *)
Definition w_pair : World X :=
  after [@CallNewScratchSpace X 7%Z "a"; @CallNewScratchSpace X 7%Z "b"] start.

(** An open scratch with a file that was never written to. *)
Definition with_file0 : list (@Call X) :=
  [@CallNewScratchSpace X 7%Z "abcd"; @CallNewFile X 0 false 0%Z].
Definition w_file : World X := after with_file0 start.

(** A file written, synced and closed. *)
Definition w_done : World X :=
  after (with_file0 ++ [@CallWrite X 0 [x]; @CallSync X 0; @CallFileClose X 0]) start.


(** A file left over from a scratch that was closed before any write. *)
Definition stale : list (@Call X) := with_file0 ++ [@CallScratchClose X 0].
Definition w_stale : World X := after stale start.

(** Three files on a disk whose Create fails, so that no write succeeds. *)
Definition unlucky : list (@Call X) :=
  [@CallNewScratchSpace X 7%Z "abcd"; @CallNewFile X 0 false 0%Z;
   @CallWrite X 0 [x]; @CallNewFile X 0 false 0%Z;
   @CallWriteSST X 0 false [x; x]].
Definition w_unlucky : World X :=
  after unlucky (@init_world X (disk ["Create"]) []).

(** A file written and synced, its handle still open. *)
Definition written : list (@Call X) :=
  with_file0 ++ [@CallWrite X 0 [x]; @CallSync X 0].
Definition w_written : World X := after written start.

(** Calls that carry no data. *)
Definition idle : list (@Call X) :=
  [@CallNewScratchSpace X 7%Z "abcd"; @CallNewFile X 0 false 0%Z;
   @CallWrite X 0 []; @CallWriteSST X 0 false []; @CallSSTs X 0].

(** What may follow a Close: another scratch of the range, a write to the
    first file, an SST for the new scratch. *)
Definition later : list (@Call X) :=
  [@CallNewScratchSpace X 7%Z "b"; @CallWrite X 0 [x];
   @CallWriteSST X 1 false [x]].

End Mem.

(** ** Log redaction

    A shallow embedding of [pkg/util/log/redact.go].  The functions of the
    redact library that mark, strip and redact text, the fields of a log
    entry other than its message, tags and flag, and the printing of a tag's
    value are defined outside of this file; they are taken as given. *)

Module Redact.

Record Library : Type := {
  EscapeBytes : list Byte.byte -> list Byte.byte;
  StripMarkers : list Byte.byte -> list Byte.byte;
  RedactBytes : list Byte.byte -> list Byte.byte;
  RedactedMarker : list Byte.byte;
}.

(** [EditSensitiveData] and its reference values. *)
Definition confValid : Z := 1.
Definition withKeepMarkers : Z := 2.
Definition withRedaction : Z := 4.

Definition WithFlattenedSensitiveData : Z := confValid.
Definition WithMarkedSensitiveData : Z := Z.lor confValid withKeepMarkers.
Definition WithoutSensitiveDataNorMarkers : Z := Z.lor confValid withRedaction.
Definition WithoutSensitiveData : Z :=
  Z.lor (Z.lor confValid withKeepMarkers) withRedaction.

Definition SelectEditMode (redact keepRedactable : bool) : Z :=
  let editMode := 0%Z in
  let editMode := if redact then Z.lor editMode withRedaction else editMode in
  let editMode := if keepRedactable then Z.lor editMode withKeepMarkers else editMode in
  let editMode := Z.lor editMode confValid in
  editMode.

Record redactablePackage : Type := {
  msg : list Byte.byte;
  redactable : bool;
}.

Definition redactEditor : Type := redactablePackage -> redactablePackage.

(** What [getEditor] gives: an editor, or the panic on a mode it does not
    know. *)
Inductive editor_result : Type :=
  | Editor (ed : redactEditor)
  | UnrecognizedMode (editMode : Z).

(** A log entry: the three fields the editors see, and the others. *)
Record Entry (Other : Type) : Type := {
  Message : string;
  Tags : string;
  Redactable : bool;
  other_fields : Other;
}.
Arguments Message {Other} _.
Arguments Tags {Other} _.
Arguments Redactable {Other} _.
Arguments other_fields {Other} _.

(** The debug logger as [TestingSetRedactable] sees it: the sinks it points
    to, each with its editor (a function value, nil or not) and the rest of
    it, and the slice [sinkInfos] of pointers to them. *)
Record sinkInfo (Rest : Type) : Type := {
  editor : option redactEditor;
  sink_rest : Rest;
}.
Arguments editor {Rest} _.
Arguments sink_rest {Rest} _.

Record loggerT (Rest : Type) : Type := {
  sinks : list (sinkInfo Rest);
  sinkInfos : list nat;
}.
Arguments sinks {Rest} _.
Arguments sinkInfos {Rest} _.

Definition set_editor {Rest : Type} (si : sinkInfo Rest)
  (ed : option redactEditor) : sinkInfo Rest :=
  {| editor := ed; sink_rest := sink_rest si |}.

Section WithLibrary.

Context (L : Library).

(** The package variable [strippedMarker]. *)
Definition strippedMarker : list Byte.byte :=
  StripMarkers L (RedactedMarker L).

Definition getEditor (editMode : Z) : editor_result :=
  if (editMode =? WithMarkedSensitiveData)%Z then
    Editor (fun r =>
      if negb (redactable r)
      then {| msg := EscapeBytes L (msg r); redactable := true |}
      else r)
  else if (editMode =? WithFlattenedSensitiveData)%Z then
    Editor (fun r =>
      if redactable r
      then {| msg := StripMarkers L (msg r); redactable := false |}
      else r)
  else if (editMode =? WithoutSensitiveData)%Z then
    Editor (fun r =>
      if redactable r
      then {| msg := RedactBytes L (msg r); redactable := redactable r |}
      else {| msg := RedactedMarker L; redactable := true |})
  else if (editMode =? WithoutSensitiveDataNorMarkers)%Z then
    Editor (fun r =>
      if redactable r
      then {| msg := StripMarkers L (RedactBytes L (msg r)); redactable := false |}
      else {| msg := strippedMarker; redactable := redactable r |})
  else UnrecognizedMode editMode.

(** [maybeRedactEntry]: the message is edited under the entry's flag, the
    flag is replaced by the one the editor leaves, and the tags are edited
    under that new flag. *)
Definition maybeRedactEntry {Other : Type} (entry : Entry Other)
  (editor : redactEditor) : Entry Other :=
  let r := {| redactable := Redactable entry;
              msg := list_byte_of_string (Message entry) |} in
  let r := editor r in
  let entry := {| Message := string_of_list_byte (msg r);
                  Tags := Tags entry;
                  Redactable := redactable r;
                  other_fields := other_fields entry |} in
  let r := {| redactable := Redactable entry;
              msg := list_byte_of_string (Tags entry) |} in
  let r := editor r in
  {| Message := Message entry;
     Tags := string_of_list_byte (msg r);
     Redactable := Redactable entry;
     other_fields := other_fields entry |}.

(** The first loop of [TestingSetRedactable], over the pointers of
    [sinkInfos] in order: the editor of each sink is kept aside and
    replaced.  [None] is a panic: of [getEditor], or on a pointer to
    nothing. *)
Fixpoint install {Rest : Type} (redactableLogs : bool) (ptrs : list nat)
  (heap : list (sinkInfo Rest))
  : option (list (option redactEditor) * list (sinkInfo Rest)) :=
  match ptrs with
  | [] => Some ([], heap)
  | p :: rest =>
      match heap !! p with
      | None => None
      | Some si =>
          match getEditor (SelectEditMode false redactableLogs) with
          | UnrecognizedMode _ => None
          | Editor ed =>
              match install redactableLogs rest
                      (<[p := set_editor si (Some ed)]> heap) with
              | None => None
              | Some (prevEditors, heap') => Some (editor si :: prevEditors, heap')
              end
          end
      end
  end.

(** The loop of the cleanup function, over the editors kept aside, from
    index [i] on, on the logger as it then is; [None] is a panic: an index
    out of range, or a pointer to nothing. *)
Fixpoint restore {Rest : Type} (i : nat) (prevEditors : list (option redactEditor))
  (lg : loggerT Rest) : option (loggerT Rest) :=
  match prevEditors with
  | [] => Some lg
  | e :: rest =>
      match sinkInfos lg !! i with
      | None => None
      | Some p =>
          match sinks lg !! p with
          | None => None
          | Some si =>
              restore (S i) rest
                {| sinks := <[p := set_editor si e]> (sinks lg);
                   sinkInfos := sinkInfos lg |}
          end
      end
  end.

(** [TestingSetRedactable]: the logger with its new editors, and the cleanup
    function. *)
Definition TestingSetRedactable {Rest : Type} (redactableLogs : bool)
  (lg : loggerT Rest)
  : option (loggerT Rest * (loggerT Rest -> option (loggerT Rest))) :=
  match install redactableLogs (sinkInfos lg) (sinks lg) with
  | None => None
  | Some (prevEditors, heap') =>
      Some ({| sinks := heap'; sinkInfos := sinkInfos lg |},
            restore 0 prevEditors)
  end.

End WithLibrary.

(** *** Tags *)

(** The value of a tag: nil, a string, or something else. *)
Inductive tag_value (V : Type) : Type :=
  | VNil
  | VString (s : string)
  | VOther (v : V).
Arguments VNil {V}.
Arguments VString {V} s.
Arguments VOther {V} v.

Record Tag (V : Type) : Type := {
  Key : string;
  Value : tag_value V;
}.
Arguments Key {V} _.
Arguments Value {V} _.

(** [v != nil && v != ""]. *)
Definition has_value {V : Type} (v : tag_value V) : bool :=
  match v with
  | VNil => false
  | VString s => negb (String.eqb s "")
  | VOther _ => true
  end.

(** One round of the loop of [renderTagsAsRedactable]: the buffer and the
    separator before and after a tag. *)
Definition render_tag {V : Type} (Fprint : tag_value V -> string)
  (st : string * string) (t : Tag V) : string * string :=
  let buf := fst st in
  let comma := snd st in
  let buf := (buf ++ comma)%string in
  let buf := (buf ++ Key t)%string in
  let buf :=
    if has_value (Value t) then
      let buf := if (1 <? Z.of_nat (String.length (Key t)))%Z
                 then (buf ++ "=")%string else buf in
      (buf ++ Fprint (Value t))%string
    else buf in
  (buf, ",").

(** [renderTagsAsRedactable]: the tags of the context are [None] when the
    context has none. *)
Definition renderTagsAsRedactable {V : Type} (Fprint : tag_value V -> string)
  (tags : option (list (Tag V))) (buf : string) : string :=
  match tags with
  | None => buf
  | Some l => fst (fold_left (render_tag Fprint) l (buf, ""))
  end.

(** What one tag contributes, and the text of a list of tags with commas
    between them. *)
Definition tag_text {V : Type} (Fprint : tag_value V -> string) (t : Tag V)
  : string :=
  (Key t ++
   (if has_value (Value t)
    then (if (1 <? Z.of_nat (String.length (Key t)))%Z then "=" else "")
         ++ Fprint (Value t)
    else ""))%string.

Fixpoint comma_sep (l : list string) : string :=
  match l with
  | [] => ""
  | [x] => x
  | x :: r => (x ++ "," ++ comma_sep r)%string
  end.

(** *** A library to run the editors on

    The markers are [<] and [>] here, and the redacted marker is [<x>]. *)

Definition open_marker : Byte.byte := Byte.x3c.
Definition close_marker : Byte.byte := Byte.x3e.
Definition is_marker (b : Byte.byte) : bool :=
  Byte.eqb b open_marker || Byte.eqb b close_marker.

Fixpoint redact_bytes (inside : bool) (m : list Byte.byte) : list Byte.byte :=
  match m with
  | [] => []
  | b :: r =>
      if inside then
        if Byte.eqb b close_marker then close_marker :: redact_bytes false r else redact_bytes true r
      else
        if Byte.eqb b open_marker then open_marker :: Byte.x78 :: redact_bytes true r
        else b :: redact_bytes false r
  end.

Definition ascii_library : Library := {|
  EscapeBytes := fun m => (open_marker :: List.filter (fun b => negb (is_marker b)) m ++ [close_marker])%list;
  StripMarkers := List.filter (fun b => negb (is_marker b));
  RedactBytes := redact_bytes false;
  RedactedMarker := [open_marker; Byte.x78; close_marker];
|}.

(** An entry with sensitive text in its message and in its tags. *)
Definition an_entry (redactable : bool) : Entry nat :=
  {| Message := "user <alice> logged in"; Tags := "n1,client=<10.0.0.7>";
     Redactable := redactable; other_fields := 42%nat |}.

(** A logger with two sinks. *)
Definition two_sinks : loggerT string :=
  {| sinks := [ {| editor := None; sink_rest := "stderr" |};
                {| editor := Some (fun r => r); sink_rest := "file" |} ];
     sinkInfos := [1%nat; 0%nat] |}.

End Redact.

(** ** Properties of paths *)

(** [Clean] and [Join] on cases from the tables Go tests them with. *)
Example Clean_cases :
  map Clean ["abc"; ""; "abc/"; "abc//def//ghi"; "abc/./def"; "abc/def/../..";
             "/abc/def/../.."; "abc/def/../../.."; "/../abc";
             "abc/def/../../../ghi/jkl/../../../mno"; "abc/../../././../def"]
  = ["abc"; "."; "abc"; "abc/def/ghi"; "abc/def"; "."; "/"; ".."; "/abc";
     "../../mno"; "../../def"].
Proof. reflexivity. Qed.

Example Join_cases :
  map Join [[]; [""]; ["a"; "b"]; ["a"; ""]; [""; "b"]; ["/"; "a"]; ["/"; ""];
            ["//"; "a"]; ["a/"; "b"]; [""; ""]]
  = [""; ""; "a/b"; "a"; "b"; "/a"; "/"; "/a"; "a/b"; ""].
Proof. reflexivity. Qed.

Lemma string_app_cons (x : ascii) (a b : string) :
  (String x a ++ b = String x (a ++ b))%string.
Proof. reflexivity. Qed.

Lemma string_app_assoc (a b c : string) :
  ((a ++ b) ++ c = a ++ (b ++ c))%string.
Proof.
  induction a as [|x a IH]; [reflexivity|].
  rewrite !string_app_cons, IH. reflexivity.
Qed.

Lemma string_app_length (a b : string) :
  String.length (a ++ b)%string = (String.length a + String.length b)%nat.
Proof.
  induction a as [|x a IH]; [reflexivity|].
  rewrite string_app_cons. simpl. rewrite IH. reflexivity.
Qed.

Lemma string_app_inv_l (a b c : string) :
  (a ++ b = a ++ c)%string -> b = c.
Proof.
  induction a as [|x a IH]; [auto|].
  rewrite !string_app_cons. intros [= H]. auto.
Qed.

Lemma string_app_inv_r (a b c : string) :
  (a ++ c = b ++ c)%string -> a = b.
Proof.
  revert b. induction a as [|x a IH]; intros [|y b] H.
  - reflexivity.
  - apply (f_equal String.length) in H.
    rewrite !string_app_length in H. simpl in H. lia.
  - apply (f_equal String.length) in H.
    rewrite !string_app_length in H. simpl in H. lia.
  - rewrite !string_app_cons in H. injection H as -> H. f_equal. apply IH. exact H.
Qed.

Lemma split_path_nonempty (p : string) : split_path p <> [].
Proof.
  destruct p as [|c r]; simpl; [discriminate|].
  destruct (is_sep c); [discriminate|].
  destruct (split_path r); discriminate.
Qed.

Lemma split_path_app (p q : string) :
  split_path (p ++ String "/" q) = (split_path p ++ split_path q)%list.
Proof.
  induction p as [|c r IH]; [reflexivity|].
  rewrite string_app_cons. simpl.
  rewrite IH. destruct (is_sep c); [reflexivity|].
  pose proof (split_path_nonempty r) as Hne.
  destruct (split_path r) as [|h t]; [congruence|]. reflexivity.
Qed.

Lemma split_path_no_sep (e : string) : no_sep e = true -> split_path e = [e].
Proof.
  induction e as [|c r IH]; simpl; [reflexivity|].
  intros H. apply andb_true_iff in H as [Hc Hr].
  apply negb_true_iff in Hc. rewrite Hc, (IH Hr). reflexivity.
Qed.

Lemma split_path_elems (p : string) :
  Forall (fun e => no_sep e = true) (split_path p).
Proof.
  induction p as [|c r IH]; simpl.
  - repeat constructor.
  - destruct (is_sep c) eqn:Hc; [constructor; [reflexivity|exact IH]|].
    destruct (split_path r) as [|h t].
    + repeat constructor. simpl. rewrite Hc. reflexivity.
    + apply Forall_cons in IH as [Hh Ht].
      constructor; [|exact Ht]. simpl. rewrite Hc, Hh. reflexivity.
Qed.

Lemma split_path_join (l : list string) :
  l <> [] -> Forall (fun e => no_sep e = true) l ->
  split_path (join_sep l) = l.
Proof.
  induction l as [|x l IH]; [congruence|]. intros _ Hall.
  apply Forall_cons in Hall as [Hx Hl].
  destruct l as [|y l]; [apply split_path_no_sep; exact Hx|].
  change (join_sep (x :: y :: l)) with (x ++ String "/" (join_sep (y :: l)))%string.
  rewrite split_path_app, (split_path_no_sep _ Hx), IH; [reflexivity|discriminate|exact Hl].
Qed.

Lemma join_sep_snoc (l : list string) (a : string) :
  l <> [] -> join_sep (l ++ [a]) = (join_sep l ++ "/" ++ a)%string.
Proof.
  induction l as [|x l IH]; [congruence|]. intros _.
  destruct l as [|y l]; [reflexivity|].
  change (join_sep ((x :: y :: l) ++ [a]))
    with (x ++ "/" ++ join_sep ((y :: l) ++ [a]))%string.
  rewrite IH by discriminate.
  change (join_sep (x :: y :: l)) with (x ++ "/" ++ join_sep (y :: l))%string.
  rewrite !string_app_assoc. reflexivity.
Qed.

Lemma plain_no_sep (e : string) : plain e = true -> no_sep e = true.
Proof.
  unfold plain. intros H. apply andb_true_iff in H as [_ H]. exact H.
Qed.

Lemma clean_step_plain (root : bool) (out : list string) (e : string) :
  plain e = true -> clean_step root out e = e :: out.
Proof.
  unfold plain, clean_step. intros H.
  apply andb_true_iff in H as [H _].
  apply andb_true_iff in H as [H H3].
  apply andb_true_iff in H as [H1 H2].
  apply negb_true_iff in H1, H2, H3. rewrite H1, H2, H3. reflexivity.
Qed.

Lemma fold_clean_step_plain (root : bool) (l out : list string) :
  Forall (fun e => plain e = true) l ->
  fold_left (clean_step root) l out = (rev l ++ out)%list.
Proof.
  revert out. induction l as [|e l IH]; intros out Hall; simpl; [reflexivity|].
  apply Forall_cons in Hall as [He Hl].
  rewrite (clean_step_plain _ _ _ He), (IH _ Hl), <- app_assoc. reflexivity.
Qed.

Lemma fold_clean_step_dotdot (k j : nat) :
  fold_left (clean_step false) (repeat ".." k) (repeat ".." j)
  = repeat ".." (k + j).
Proof.
  revert j. induction k as [|k IH]; intros j; simpl; [reflexivity|].
  replace (clean_step false (repeat ".." j) "..") with (repeat ".." (S j)).
  - rewrite IH. replace (k + S j)%nat with (S (k + j)) by lia. reflexivity.
  - destruct j; reflexivity.
Qed.

Lemma rev_repeat {A : Type} (a : A) (k : nat) : rev (repeat a k) = repeat a k.
Proof.
  induction k as [|k IH]; simpl; [reflexivity|].
  rewrite IH. clear IH. induction k as [|k IH]; simpl; [reflexivity|].
  rewrite IH. reflexivity.
Qed.

(** The elements [filepath.Clean] leaves are what it builds from them. *)
Lemma clean_elems_stack (root : bool) (out : list string) :
  stack_ok root out ->
  clean_elems root (rev out) = out.
Proof.
  intros (names & k & -> & Hn & Hk). unfold clean_elems.
  rewrite rev_app_distr, rev_repeat, fold_left_app.
  destruct root.
  - rewrite (Hk eq_refl). simpl.
    rewrite fold_clean_step_plain by (apply Forall_rev; exact Hn).
    rewrite rev_involutive. reflexivity.
  - pose proof (fold_clean_step_dotdot k 0) as Hdd. simpl in Hdd.
    rewrite Hdd.
    rewrite fold_clean_step_plain by (apply Forall_rev; exact Hn).
    rewrite rev_involutive, Nat.add_0_r. reflexivity.
Qed.

Lemma stack_ok_elems (root : bool) (out : list string) :
  stack_ok root out -> Forall (fun e => no_sep e = true) out.
Proof.
  intros (names & k & -> & Hn & _). apply Forall_app. split.
  - eapply Forall_impl; [exact Hn|]. apply plain_no_sep.
  - apply Forall_forall. intros e He. apply list_elem_of_In, repeat_spec in He.
    subst e. reflexivity.
Qed.

Lemma stack_ok_push (root : bool) (out : list string) (e : string) :
  plain e = true -> stack_ok root out -> stack_ok root (e :: out).
Proof.
  intros He (names & k & -> & Hn & Hk).
  exists (e :: names), k. split; [reflexivity|]. split; [|exact Hk].
  constructor; assumption.
Qed.

Lemma stack_ok_step (root : bool) (out : list string) (e : string) :
  no_sep e = true -> stack_ok root out -> stack_ok root (clean_step root out e).
Proof.
  intros He Hok. unfold clean_step.
  destruct (String.eqb_spec e ""); [exact Hok|].
  destruct (String.eqb_spec e "."); [exact Hok|].
  destruct (String.eqb_spec e "..") as [->|Hdd].
  - destruct Hok as (names & k & -> & Hn & Hk).
    destruct names as [|top names]; simpl.
    + destruct k as [|k]; simpl.
      * destruct root; [exists [], 0%nat | exists [], 1%nat];
          (split; [reflexivity|]); (split; [constructor|]); congruence.
      * exists [], (S (S k)). split; [reflexivity|]. split; [constructor|].
        intros Hr. specialize (Hk Hr). discriminate.
    + apply Forall_cons in Hn as [Htop Hn].
      assert (Hne : String.eqb top ".." = false).
      { unfold plain in Htop. apply andb_true_iff in Htop as [Htop _].
        apply andb_true_iff in Htop as [_ Htop].
        apply negb_true_iff in Htop. exact Htop. }
      rewrite Hne. exists names, k. auto.
  - apply stack_ok_push; [|exact Hok].
    unfold plain. rewrite He.
    destruct (String.eqb_spec e ""); [congruence|].
    destruct (String.eqb_spec e "."); [congruence|].
    destruct (String.eqb_spec e ".."); [congruence|]. reflexivity.
Qed.

Lemma stack_ok_fold (root : bool) (l out : list string) :
  Forall (fun e => no_sep e = true) l -> stack_ok root out ->
  stack_ok root (fold_left (clean_step root) l out).
Proof.
  revert out. induction l as [|e l IH]; intros out Hall Hok; simpl; [exact Hok|].
  apply Forall_cons in Hall as [He Hl].
  apply IH; [exact Hl|]. apply stack_ok_step; assumption.
Qed.

Lemma stack_ok_nil (root : bool) : stack_ok root [].
Proof.
  exists [], 0%nat. split; [reflexivity|]. split; [constructor|reflexivity].
Qed.

Lemma rooted_app (p q : string) :
  p <> "" -> rooted (p ++ q) = rooted p.
Proof.
  destruct p as [|c r]; [congruence|]. reflexivity.
Qed.

Lemma string_app_not_empty (p q : string) : p <> "" -> (p ++ q)%string <> "".
Proof.
  destruct p as [|c r]; [congruence|]. rewrite string_app_cons. discriminate.
Qed.

Lemma Clean_not_empty (p : string) :
  p <> "" ->
  Clean p = render (rooted p) (clean_elems (rooted p) (split_path p)).
Proof.
  intros Hp. unfold Clean. destruct (String.eqb_spec p ""); [congruence|].
  reflexivity.
Qed.

(** One more ordinary name at the end of a path. *)
Lemma clean_elems_app_plain (root : bool) (p a : string) :
  plain a = true ->
  clean_elems root (split_path (p ++ String "/" a))
  = a :: clean_elems root (split_path p).
Proof.
  intros Ha. unfold clean_elems.
  rewrite split_path_app, (split_path_no_sep _ (plain_no_sep _ Ha)).
  rewrite fold_left_app. simpl. apply clean_step_plain. exact Ha.
Qed.

Lemma render_push (root : bool) (out : list string) (a : string) :
  out <> [] -> render root (a :: out) = (render root out ++ "/" ++ a)%string.
Proof.
  intros Hne. unfold render.
  assert (Hr : rev out <> []).
  { intros H. apply (f_equal (@rev string)) in H.
    rewrite rev_involutive in H. simpl in H. congruence. }
  simpl rev. rewrite (join_sep_snoc _ _ Hr).
  destruct root.
  - rewrite !string_app_assoc. reflexivity.
  - destruct out; [congruence|]. reflexivity.
Qed.

Lemma plain_not_empty (e : string) : plain e = true -> e <> "".
Proof.
  intros H ->. discriminate.
Qed.

Lemma join_sep_head (x : string) (l : list string) :
  x <> "" -> no_sep x = true ->
  join_sep (x :: l) <> "" /\ rooted (join_sep (x :: l)) = false.
Proof.
  intros Hx Hn. destruct x as [|c r]; [congruence|].
  simpl in Hn. apply andb_true_iff in Hn as [Hc _].
  apply negb_true_iff in Hc.
  destruct l as [|y l].
  - split; [discriminate|exact Hc].
  - change (join_sep (String c r :: y :: l))
      with (String c r ++ "/" ++ join_sep (y :: l))%string.
    rewrite string_app_cons. split; [discriminate|exact Hc].
Qed.

Lemma stack_ok_not_empty (root : bool) (out : list string) (e : string) :
  stack_ok root out -> In e out -> e <> "".
Proof.
  intros (names & k & -> & Hn & _) He.
  apply in_app_or in He as [He|He].
  - apply plain_not_empty. rewrite Forall_forall in Hn.
    apply Hn, list_elem_of_In. exact He.
  - apply repeat_spec in He. subst e. discriminate.
Qed.

(** Cleaning a cleaned path finds the elements it was built from. *)
Lemma render_reparse (root : bool) (out : list string) :
  stack_ok root out -> out <> [] ->
  render root out <> "" /\
  rooted (render root out) = root /\
  clean_elems root (split_path (render root out)) = out.
Proof.
  intros Hok Hne.
  assert (Hr : rev out <> []).
  { intros H. apply (f_equal (@rev string)) in H.
    rewrite rev_involutive in H. simpl in H. congruence. }
  assert (Hns : Forall (fun e => no_sep e = true) (rev out))
    by (apply Forall_rev, stack_ok_elems with root; exact Hok).
  unfold render. destruct root.
  - split; [discriminate|]. split; [reflexivity|].
    change ("/" ++ join_sep (rev out))%string with (String "/" (join_sep (rev out))).
    simpl split_path. rewrite (split_path_join _ Hr Hns).
    unfold clean_elems. simpl. apply (clean_elems_stack true). exact Hok.
  - destruct out as [|top out]; [congruence|].
    destruct (rev (top :: out)) as [|x l] eqn:Hrev; [congruence|].
    assert (Hx : In x (top :: out)).
    { apply in_rev. rewrite Hrev. left. reflexivity. }
    apply (stack_ok_not_empty _ _ _ Hok) in Hx.
    apply Forall_cons in Hns as Hns'. destruct Hns' as [Hxn _].
    destruct (join_sep_head x l Hx Hxn) as [H1 H2].
    split; [exact H1|]. split; [exact H2|].
    rewrite (split_path_join _ Hr Hns). rewrite <- Hrev.
    apply (clean_elems_stack false). exact Hok.
Qed.

(** Joining an ordinary name to a cleaned path appends it after a separator. *)
Lemma Join_push (root : bool) (out : list string) (a : string) :
  stack_ok root out -> out <> [] -> plain a = true ->
  Join [render root out; a] = render root (a :: out) /\
  Join [render root out; a] = (render root out ++ "/" ++ a)%string.
Proof.
  intros Hok Hne Ha.
  destruct (render_reparse _ _ Hok Hne) as (Hd & Hroot & Hel).
  assert (E : Join [render root out; a] = render root (a :: out)).
  { simpl Join. destruct (String.eqb_spec (render root out) ""); [congruence|].
    change (render root out ++ "/" ++ a)%string
      with (render root out ++ String "/" a)%string.
    rewrite Clean_not_empty by (apply string_app_not_empty; exact Hd).
    rewrite (rooted_app _ _ Hd), Hroot.
    rewrite (clean_elems_app_plain _ _ _ Ha), Hel. reflexivity. }
  split; [exact E|]. rewrite E. apply render_push. exact Hne.
Qed.

Lemma Join_push2 (root : bool) (out : list string) (a b : string) :
  stack_ok root out -> out <> [] -> plain a = true -> plain b = true ->
  Join [render root out; a; b] = render root (b :: a :: out) /\
  Join [render root out; a; b] = (render root out ++ "/" ++ a ++ "/" ++ b)%string.
Proof.
  intros Hok Hne Ha Hb.
  destruct (render_reparse _ _ Hok Hne) as (Hd & Hroot & Hel).
  assert (E : Join [render root out; a; b] = render root (b :: a :: out)).
  { simpl Join. destruct (String.eqb_spec (render root out) ""); [congruence|].
    change (render root out ++ "/" ++ a ++ "/" ++ b)%string
      with (render root out ++ (String "/" a ++ String "/" b))%string.
    rewrite <- string_app_assoc.
    assert (Hd' : (render root out ++ String "/" a)%string <> "")
      by (apply string_app_not_empty; exact Hd).
    rewrite Clean_not_empty by (apply string_app_not_empty; exact Hd').
    rewrite (rooted_app _ _ Hd'), (rooted_app _ _ Hd), Hroot.
    rewrite (clean_elems_app_plain _ _ _ Hb), (clean_elems_app_plain _ _ _ Ha), Hel.
    reflexivity. }
  split; [exact E|]. rewrite E.
  rewrite render_push by discriminate. rewrite (render_push _ _ _ Hne).
  rewrite !string_app_assoc. reflexivity.
Qed.

(** The root of a storage is a cleaned path that ends in an ordinary name. *)
Lemma storage_dir_form (aux : string) :
  exists root out,
    Join [aux; "sstsnapshot"] = render root out /\
    stack_ok root out /\ out <> [].
Proof.
  destruct (String.eqb_spec aux "") as [->|Hne].
  - exists false, ["sstsnapshot"]. split; [reflexivity|].
    split; [|discriminate].
    apply stack_ok_push; [reflexivity|apply stack_ok_nil].
  - exists (rooted aux), ("sstsnapshot" :: clean_elems (rooted aux) (split_path aux)).
    split; [|split; [|discriminate]].
    + simpl Join. destruct (String.eqb_spec aux ""); [congruence|].
      change (aux ++ "/" ++ "sstsnapshot")%string
        with (aux ++ String "/" "sstsnapshot")%string.
      rewrite Clean_not_empty by (apply string_app_not_empty; exact Hne).
      rewrite (rooted_app _ _ Hne), clean_elems_app_plain by reflexivity.
      reflexivity.
    + apply stack_ok_push; [reflexivity|].
      apply stack_ok_fold; [apply split_path_elems|apply stack_ok_nil].
Qed.

(** *** Decimal numbers as path elements *)

Lemma no_sep_app (a b : string) :
  no_sep a = true -> no_sep b = true -> no_sep (a ++ b) = true.
Proof.
  intros Ha Hb. induction a as [|c r IH]; [exact Hb|].
  rewrite string_app_cons. simpl in *.
  apply andb_true_iff in Ha as [Hc Hr]. rewrite Hc, (IH Hr). reflexivity.
Qed.

Lemma plain_head (c : ascii) (r : string) :
  c <> "."%char -> no_sep (String c r) = true -> plain (String c r) = true.
Proof.
  intros Hc Hn. unfold plain. rewrite Hn.
  destruct (String.eqb_spec (String c r) ""); [discriminate|].
  destruct (String.eqb_spec (String c r) ".") as [E|_]; [congruence|].
  destruct (String.eqb_spec (String c r) "..") as [E|_]; [congruence|].
  reflexivity.
Qed.

Lemma uint_digits (d : uint) :
  no_sep (NilEmpty.string_of_uint d) = true /\
  (NilEmpty.string_of_uint d = "" \/
   exists c r, NilEmpty.string_of_uint d = String c r /\ c <> "."%char).
Proof.
  induction d as [|d [IH _]|d [IH _]|d [IH _]|d [IH _]|d [IH _]
                  |d [IH _]|d [IH _]|d [IH _]|d [IH _]|d [IH _]];
    simpl; (split; [try rewrite IH; reflexivity|]);
    [left; reflexivity|..]; right; eexists _, _; (split; [reflexivity|discriminate]).
Qed.

Lemma Itoa_head (z : Z) :
  exists c r, Itoa z = String c r /\ c <> "."%char /\ no_sep (String c r) = true.
Proof.
  assert (U : forall d, exists c r,
             NilZero.string_of_uint d = String c r /\ c <> "."%char /\
             no_sep (String c r) = true).
  { intros d. destruct (uint_digits d) as [Hn [He|(c & r & He & Hc)]].
    - destruct d; try discriminate. exists "0"%char, "".
      repeat split; discriminate.
    - exists c, r. assert (E : NilZero.string_of_uint d = String c r)
        by (destruct d; try exact He; discriminate).
      rewrite <- He at 2. auto. }
  unfold Itoa. destruct (Z.to_int z) as [d|d]; simpl.
  - apply U.
  - destruct (U d) as (c & r & He & _ & Hn).
    exists "-"%char, (NilZero.string_of_uint d).
    split; [reflexivity|]. split; [discriminate|].
    rewrite He. simpl. simpl in Hn. exact Hn.
Qed.

Lemma Itoa_plain (z : Z) : plain (Itoa z) = true.
Proof.
  destruct (Itoa_head z) as (c & r & -> & Hc & Hn). apply plain_head; assumption.
Qed.

Lemma Sprintf_d_sst_plain (z : Z) : plain (Sprintf_d_sst z) = true.
Proof.
  unfold Sprintf_d_sst. destruct (Itoa_head z) as (c & r & -> & Hc & Hn).
  rewrite string_app_cons. apply plain_head; [exact Hc|].
  rewrite <- string_app_cons. apply no_sep_app; [exact Hn|reflexivity].
Qed.

Lemma Itoa_inj (a b : Z) : Itoa a = Itoa b -> a = b.
Proof.
  unfold Itoa. intros H. apply DecimalZ.to_int_inj.
  assert (N : forall z, Z.to_int z <> Pos Nil /\ Z.to_int z <> Neg Nil).
  { intros [|p|p]; simpl; split; try discriminate;
      intros [= E]; exact (Unsigned.to_uint_nonnil p E). }
  destruct (N a) as [A1 A2], (N b) as [B1 B2].
  pose proof (NilZero.isi _ A1 A2) as Ia.
  pose proof (NilZero.isi _ B1 B2) as Ib.
  rewrite H in Ia. rewrite Ia in Ib. injection Ib as ->. reflexivity.
Qed.

Lemma Sprintf_d_sst_inj (a b : Z) : Sprintf_d_sst a = Sprintf_d_sst b -> a = b.
Proof.
  unfold Sprintf_d_sst. intros H. apply Itoa_inj.
  eapply string_app_inv_r. exact H.
Qed.

(** *** File names differ when their last elements do *)

Lemma render_inj (root : bool) (out : list string) (a b : string) :
  render root (a :: out) = render root (b :: out) -> a = b.
Proof.
  destruct out as [|top out].
  - unfold render. simpl. destruct root; [|auto].
    apply string_app_inv_l.
  - rewrite (render_push root (top :: out) a), (render_push root (top :: out) b)
      by discriminate.
    intros H.
    apply string_app_inv_l in H. apply (string_app_inv_l "/"). exact H.
Qed.

Lemma plain_rooted (a : string) : plain a = true -> rooted a = false.
Proof.
  intros H. pose proof (plain_no_sep _ H) as Hn.
  destruct a as [|c r]; [reflexivity|]. simpl in *.
  apply andb_true_iff in Hn as [Hc _]. apply negb_true_iff in Hc. exact Hc.
Qed.

Lemma Join_last_inj (d a b : string) :
  plain a = true -> plain b = true ->
  Join [d; a] = Join [d; b] -> a = b.
Proof.
  intros Ha Hb. pose proof (plain_not_empty _ Ha) as Hna.
  pose proof (plain_not_empty _ Hb) as Hnb.
  simpl Join. destruct (String.eqb_spec d "") as [->|Hd].
  - destruct (String.eqb_spec a ""); [congruence|].
    destruct (String.eqb_spec b ""); [congruence|].
    rewrite !Clean_not_empty by assumption.
    rewrite (plain_rooted _ Ha), (plain_rooted _ Hb). unfold clean_elems.
    rewrite (split_path_no_sep _ (plain_no_sep _ Ha)).
    rewrite (split_path_no_sep _ (plain_no_sep _ Hb)). simpl.
    rewrite (clean_step_plain _ _ _ Ha), (clean_step_plain _ _ _ Hb).
    apply (render_inj false []).
  - change (d ++ "/" ++ a)%string with (d ++ String "/" a)%string.
    change (d ++ "/" ++ b)%string with (d ++ String "/" b)%string.
    rewrite !Clean_not_empty by (apply string_app_not_empty; exact Hd).
    rewrite !(rooted_app _ _ Hd).
    rewrite (clean_elems_app_plain _ _ _ Ha), (clean_elems_app_plain _ _ _ Hb).
    apply render_inj.
Qed.

Lemma sst_names_NoDup (sc : SSTSnapshotStorageScratch) (n : nat) :
  NoDup (sst_names sc n).
Proof.
  unfold sst_names. apply NoDup_fmap_2_strong; [|apply NoDup_seq].
  intros i j _ _ H. unfold Scratch_filename in H.
  apply Join_last_inj in H; try apply Sprintf_d_sst_plain.
  apply Sprintf_d_sst_inj in H. lia.
Qed.


(** *** Cleaned paths *)

Lemma Clean_fixed_form (d : string) :
  Clean d = d -> d <> "." -> d <> "/" ->
  exists root out, d = render root out /\ stack_ok root out /\ out <> [].
Proof.
  intros Hc Hdot Hroot.
  assert (Hne : d <> "") by (intros ->; discriminate).
  rewrite (Clean_not_empty _ Hne) in Hc.
  exists (rooted d), (clean_elems (rooted d) (split_path d)).
  split; [symmetry; exact Hc|]. split.
  - apply stack_ok_fold; [apply split_path_elems|apply stack_ok_nil].
  - intros Hnil. rewrite Hnil in Hc.
    destruct (rooted d);
      [change ("/" = d) in Hc | change ("." = d) in Hc]; congruence.
Qed.

(** Joining an ordinary name to a cleaned directory, other than [.] and the
    root, writes the name after a separator. *)
Lemma Join_clean_plain (d a : string) :
  Clean d = d -> d <> "." -> d <> "/" -> plain a = true ->
  Join [d; a] = (d ++ "/" ++ a)%string /\ Clean (Join [d; a]) = Join [d; a].
Proof.
  intros Hc Hdot Hroot Ha.
  destruct (Clean_fixed_form d Hc Hdot Hroot) as (root & out & -> & Hok & Hne).
  destruct (Join_push root out a Hok Hne Ha) as [E1 E2].
  split; [exact E2|].
  pose proof (stack_ok_push root out a Ha Hok) as Hok'.
  destruct (render_reparse root (a :: out) Hok') as (Hn & Hr & Hel);
    [discriminate|].
  rewrite E1, (Clean_not_empty _ Hn), Hr, Hel. reflexivity.
Qed.



(** ** Properties of the storage *)

Section Properties.

Context {X : Externals}.

Implicit Types (w : World X) (s f : nat) (r : Z).

(** *** Machine integers *)

Lemma wrap_int_id (z : Z) :
  (min_int <= z <= max_int)%Z -> wrap_int z = z.
Proof.
  unfold wrap_int, min_int, max_int. intros Hz.
  rewrite Z.mod_small; lia.
Qed.

Lemma wrap_int_range (z : Z) : (min_int <= wrap_int z <= max_int)%Z.
Proof.
  unfold wrap_int, min_int, max_int.
  pose proof (Z.mod_pos_bound (z + 2 ^ 63) (2 ^ 64)). lia.
Qed.

(** *** Running a file operation on a file that is in the heap *)

Lemma File_Close_eq w f fl :
  files w !! f = Some fl ->
  File_Close f w =
    if negb (created fl) then Ret (Some (New "file is empty")) w
    else match file fl with
         | None => Ret None w
         | Some h =>
             let r := FileClose X h (engine (storage w)) in
             match fst r with
             | Some e => Ret (Some (External e)) (with_engine w (snd r))
             | None =>
                 Ret None (with_files (with_engine w (snd r))
                                      (<[f := with_file fl None]> (files w)))
             end
         end.
Proof.
  intros Hf. unfold File_Close, bind, get_file, ret. rewrite Hf.
  destruct (created fl); simpl; [|reflexivity].
  destruct (file fl) as [h|]; [|reflexivity].
  unfold engine_call, set_file. simpl.
  destruct (fst (FileClose X h (engine (storage w)))); simpl; [reflexivity|].
  rewrite Hf. reflexivity.
Qed.

Lemma File_Sync_eq w f fl :
  files w !! f = Some fl ->
  File_Sync f w =
    match file fl with
    | None => Panic nil_deref w
    | Some h =>
        let r := FileSync X h (engine (storage w)) in
        Ret (lift_err (fst r)) (with_engine w (snd r))
    end.
Proof.
  intros Hf. unfold File_Sync, bind, get_file, ret, panic. rewrite Hf.
  destruct (file fl); reflexivity.
Qed.

Lemma Scratch_NewFile_eq w s sc (c : Ctx X) (bps : Z) :
  scratches w !! s = Some sc ->
  Scratch_NewFile s c bps w =
    if closed sc then Ret (None, Some (AssertionFailedf scratch_closed_msg)) w
    else
      let name := Scratch_filename sc (Z.of_nat (length (ssts sc))) in
      Ret (Some (length (files w)), None)
        (with_files
           (with_scratches w (<[s := with_ssts sc (ssts sc ++ [name])]> (scratches w)))
           (files w ++ [{| scratch := s; created := false; file := None;
                           filename := name; ctx := c; bytesPerSync := bps |}])).
Proof.
  intros Hs. unfold Scratch_NewFile, bind, get_scratch, ret. rewrite Hs.
  destruct (closed sc); reflexivity.
Qed.

(** C7: closing a file that was never materialized fails with "file is
    empty", and does nothing; closing a materialized file whose handle was
    released returns success and changes nothing, so a second Close after
    one that succeeded is a no-op; a file fresh from NewFile is in the first
    case. *)
Theorem File_Close_empty_or_idempotent w f fl :
  files w !! f = Some fl ->
  (created fl = false ->
     File_Close f w = Ret (Some (New "file is empty")) w) /\
  (created fl = true -> file fl = None -> File_Close f w = Ret None w) /\
  (created fl = true ->
     forall w1, File_Close f w = Ret None w1 ->
       File_Close f w1 = Ret None w1 /\
       exists fl1, files w1 !! f = Some fl1 /\ file fl1 = None) /\
  (forall s (c : Ctx X) bps w0,
     Scratch_NewFile s c bps w0 = Ret (Some f, None) w ->
     File_Close f w = Ret (Some (New "file is empty")) w).
Proof.
  intros Hf. repeat split.
  - intros Hc. rewrite (File_Close_eq _ _ _ Hf), Hc. reflexivity.
  - intros Hc Hn. rewrite (File_Close_eq _ _ _ Hf), Hc, Hn. reflexivity.
  - rewrite (File_Close_eq _ _ _ Hf) in H0. rewrite H in H0. simpl in H0.
    destruct (file fl) as [h|] eqn:Hh.
    + destruct (fst (FileClose X h (engine (storage w)))); [discriminate|].
      injection H0 as <-.
      assert (Hlt : (f < length (files w))%nat) by (eapply lookup_lt_Some; eauto).
      erewrite File_Close_eq;
        [|simpl; apply list_lookup_insert_eq; exact Hlt].
      unfold with_file. simpl. rewrite H. reflexivity.
    + injection H0 as <-.
      rewrite (File_Close_eq _ _ _ Hf), H, Hh. reflexivity.
  - rewrite (File_Close_eq _ _ _ Hf) in H0. rewrite H in H0. simpl in H0.
    destruct (file fl) as [h|] eqn:Hh.
    + destruct (fst (FileClose X h (engine (storage w)))); [discriminate|].
      injection H0 as <-. simpl.
      exists (with_file fl None). split; [|reflexivity].
      apply list_lookup_insert_eq. eapply lookup_lt_Some; eauto.
    + injection H0 as <-. eauto.
  - intros s c bps w0 Hnew.
    unfold Scratch_NewFile, bind, get_scratch, ret in Hnew.
    destruct (scratches w0 !! s) as [sc|]; [|discriminate].
    destruct (closed sc); [discriminate|].
    simpl in Hnew. injection Hnew as Hfe Hw.
    subst w. simpl in Hf. subst f.
    rewrite lookup_app_r in Hf by lia.
    rewrite Nat.sub_diag in Hf. simpl in Hf. injection Hf as <-.
    erewrite File_Close_eq.
    2: { simpl. rewrite lookup_app_r by lia. rewrite Nat.sub_diag. reflexivity. }
    reflexivity.
Qed.

(** C9: Sync does not look at the state of the file: whenever the handle is
    absent it dereferences nil and panics, it never returns a state error.
    Both ways of having no handle are open to a caller: a file fresh from
    NewFile, and a file whose Close has succeeded. *)
Theorem File_Sync_absent_handle_panics :
  (forall w f fl,
     files w !! f = Some fl -> file fl = None ->
     File_Sync f w = Panic nil_deref w) /\
  (forall w0 s (c : Ctx X) bps f w,
     Scratch_NewFile s c bps w0 = Ret (Some f, None) w ->
     File_Sync f w = Panic nil_deref w) /\
  (forall w f w1,
     File_Close f w = Ret None w1 ->
     File_Sync f w1 = Panic nil_deref w1).
Proof.
  split; [|split].
  - intros w f fl Hf Hn. rewrite (File_Sync_eq _ _ _ Hf), Hn. reflexivity.
  - intros w0 s c bps f w Hnew.
    unfold Scratch_NewFile, bind, get_scratch, ret in Hnew.
    destruct (scratches w0 !! s) as [sc|]; [|discriminate].
    destruct (closed sc); [discriminate|].
    simpl in Hnew. injection Hnew as Hfe Hw. subst w f.
    erewrite File_Sync_eq.
    2: { simpl. rewrite lookup_app_r by lia. rewrite Nat.sub_diag. reflexivity. }
    reflexivity.
  - intros w f w1 Hclose.
    destruct (files w !! f) as [fl|] eqn:Hf.
    + rewrite (File_Close_eq _ _ _ Hf) in Hclose.
      destruct (created fl); simpl in Hclose; [|discriminate].
      destruct (file fl) as [h|] eqn:Hh.
      * destruct (fst (FileClose X h (engine (storage w)))); [discriminate|].
        injection Hclose as <-.
        erewrite File_Sync_eq.
        2: { simpl. apply list_lookup_insert_eq. eapply lookup_lt_Some; eauto. }
        reflexivity.
      * injection Hclose as <-.
        rewrite (File_Sync_eq _ _ _ Hf), Hh. reflexivity.
    + unfold File_Close, bind, get_file in Hclose. rewrite Hf in Hclose.
      discriminate.
Qed.

(** *** The reference counts *)

Lemma scratchClosed_eq w r :
  scratchClosed r w =
    let val := refcount (rangeRefCount (storage w)) r in
    if (val <=? 0)%Z then Panic "inconsistent scratch ref count" w
    else if (wrap_int (val - 1) =? 0)%Z then
      let w1 := with_rangeRefCount w (delete r (<[r := wrap_int (val - 1)]> (rangeRefCount (storage w)))) in
      Ret tt (with_engine w1
                (snd (RemoveAll X (Join [dir (storage w); Itoa r]) (engine (storage w)))))
    else Ret tt (with_rangeRefCount w (<[r := wrap_int (val - 1)]> (rangeRefCount (storage w)))).
Proof.
  unfold scratchClosed, bind, get_storage, panic, set_rangeRefCount, ret. simpl.
  destruct (refcount (rangeRefCount (storage w)) r <=? 0)%Z; [reflexivity|].
  destruct (wrap_int (refcount (rangeRefCount (storage w)) r - 1) =? 0)%Z;
    reflexivity.
Qed.

(** C3: the decrement of a count that is absent or not positive panics with
    the world untouched; it does not return, with or without an error. *)
Theorem scratchClosed_underflow_panics w r :
  (rangeRefCount (storage w) !! r = None \/
   exists v, rangeRefCount (storage w) !! r = Some v /\ (v <= 0)%Z) ->
  scratchClosed r w = Panic "inconsistent scratch ref count" w /\
  forall a w', scratchClosed r w <> Ret a w'.
Proof.
  intros H.
  assert (Hv : (refcount (rangeRefCount (storage w)) r <=? 0)%Z = true).
  { unfold refcount. destruct H as [-> | (v & -> & Hv)]; simpl.
    - reflexivity.
    - apply Z.leb_le. exact Hv. }
  assert (Hp : scratchClosed r w = Panic "inconsistent scratch ref count" w).
  { rewrite scratchClosed_eq. simpl. rewrite Hv. reflexivity. }
  split; [exact Hp|]. intros a w'. rewrite Hp. discriminate.
Qed.

(** *** WriteSST *)

(** C5, as the code has it: with no data WriteSST changes nothing, neither
    the disk nor the files nor the names SSTs returns; it succeeds on a
    scratch that is not closed, and on a closed one it returns the
    closed-scratch error. *)
Theorem Scratch_WriteSST_empty w s sc (c : Ctx X) :
  scratches w !! s = Some sc ->
  Scratch_WriteSST s c [] w =
    Ret (if closed sc then Some (AssertionFailedf scratch_closed_msg) else None) w /\
  (closed sc = false -> Scratch_WriteSST s c [] w = Ret None w) /\
  forall res w', Scratch_WriteSST s c [] w = Ret res w' ->
    engine (storage w') = engine (storage w) /\
    files w' = files w /\
    Scratch_SSTs s w' = Ret (ssts sc) w'.
Proof.
  intros Hs.
  assert (E : Scratch_WriteSST s c [] w =
    Ret (if closed sc then Some (AssertionFailedf scratch_closed_msg) else None) w).
  { unfold Scratch_WriteSST, bind, get_scratch, ret. rewrite Hs.
    destruct (closed sc); reflexivity. }
  split; [exact E|]. split.
  - intros Hc. rewrite E, Hc. reflexivity.
  - intros res w' H. rewrite E in H. injection H as _ <-.
    repeat split. unfold Scratch_SSTs, bind, get_scratch, ret.
    rewrite Hs. reflexivity.
Qed.

(** *** Materializing and writing a file *)

Lemma Scratch_createDir_eq w s sc :
  scratches w !! s = Some sc ->
  Scratch_createDir s w =
    let mk := MkdirAll X (snapDir sc) (engine (storage w)) in
    Ret (lift_err (fst mk))
      (with_scratches (with_engine w (snd mk))
         (<[s := with_dirCreated sc (dirCreated sc || is_nil (fst mk))]> (scratches w))).
Proof.
  intros Hs. unfold Scratch_createDir, bind, get_scratch, engine_call, ret.
  rewrite Hs. simpl. rewrite Hs. reflexivity.
Qed.

(** The world after the directory step of ensureFile. *)
Lemma File_ensureFile_eq w f fl sc :
  files w !! f = Some fl ->
  scratches w !! scratch fl = Some sc ->
  File_ensureFile f w =
    if created fl then
      if is_nil (file fl) then Ret (Some (Errorf "file has already been closed")) w
      else Ret None w
    else
      let mk := MkdirAll X (snapDir sc) (engine (storage w)) in
      let w0 :=
        if dirCreated sc then w
        else with_scratches (with_engine w (snd mk))
               (<[scratch fl := with_dirCreated sc (is_nil (fst mk))]> (scratches w)) in
      match (if dirCreated sc then None else fst mk) with
      | Some e => Ret (Some (External e)) w0
      | None =>
          if closed sc then Ret (Some (AssertionFailedf scratch_closed_msg)) w0
          else
            let cr :=
              if (bytesPerSync fl >? 0)%Z
              then CreateWithSync X (filename fl) (bytesPerSync fl) (engine (storage w0))
              else Create X (filename fl) (engine (storage w0)) in
            match snd (fst cr) with
            | Some e =>
                Ret (Some (External e))
                  (with_files (with_engine w0 (snd cr))
                     (<[f := with_file fl (fst (fst cr))]> (files w)))
            | None =>
                Ret None
                  (with_files (with_engine w0 (snd cr))
                     (<[f := with_created (with_file fl (fst (fst cr))) true]> (files w)))
            end
      end.
Proof.
  intros Hf Hs.
  assert (Hfl : (f < length (files w))%nat) by (eapply lookup_lt_Some; eauto).
  assert (Hsl : (scratch fl < length (scratches w))%nat)
    by (eapply lookup_lt_Some; eauto).
  unfold File_ensureFile. unfold bind at 1. unfold get_file at 1. rewrite Hf.
  destruct (created fl) eqn:Hc.
  { destruct (file fl); reflexivity. }
  unfold bind at 1. unfold get_scratch at 1. rewrite Hs.
  destruct (dirCreated sc) eqn:Hd; simpl.
  - unfold bind at 1. unfold ret at 1.
    unfold bind at 1. unfold get_scratch at 1. rewrite Hs.
    destruct (closed sc); [reflexivity|].
    destruct (bytesPerSync fl >? 0)%Z;
      unfold bind, engine_call, get_file, set_file, ret; simpl;
      rewrite Hf; simpl.
    + destruct (snd (fst (CreateWithSync X (filename fl) (bytesPerSync fl)
                            (engine (storage w))))); [reflexivity|].
      unfold with_files, with_engine, with_scratches; simpl.
      rewrite list_lookup_insert_eq by exact Hfl.
      simpl. rewrite list_insert_insert_eq. reflexivity.
    + destruct (snd (fst (Create X (filename fl) (engine (storage w)))));
        [reflexivity|].
      unfold with_files, with_engine, with_scratches; simpl.
      rewrite list_lookup_insert_eq by exact Hfl.
      simpl. rewrite list_insert_insert_eq. reflexivity.
  - unfold bind at 1. rewrite (Scratch_createDir_eq _ _ _ Hs). simpl.
    rewrite Hd. simpl.
    destruct (fst (MkdirAll X (snapDir sc) (engine (storage w)))) eqn:Hmk;
      simpl; [reflexivity|].
    unfold bind at 1. unfold get_scratch at 1.
    unfold with_scratches at 1. simpl.
    rewrite list_lookup_insert_eq by exact Hsl. simpl.
    destruct (closed sc); [reflexivity|].
    destruct (bytesPerSync fl >? 0)%Z;
      unfold bind, engine_call, get_file, set_file, ret; simpl;
      rewrite Hf; simpl.
    + destruct (snd (fst (CreateWithSync X (filename fl) (bytesPerSync fl)
                            (snd (MkdirAll X (snapDir sc) (engine (storage w)))))));
        [reflexivity|].
      unfold with_files, with_engine, with_scratches; simpl.
      rewrite list_lookup_insert_eq by exact Hfl.
      simpl. rewrite list_insert_insert_eq. reflexivity.
    + destruct (snd (fst (Create X (filename fl)
                            (snd (MkdirAll X (snapDir sc) (engine (storage w)))))));
        [reflexivity|].
      unfold with_files, with_engine, with_scratches; simpl.
      rewrite list_lookup_insert_eq by exact Hfl.
      simpl. rewrite list_insert_insert_eq. reflexivity.
Qed.

Lemma File_ensureFile_nil_scratch w f fl :
  files w !! f = Some fl ->
  scratches w !! scratch fl = None ->
  created fl = false ->
  File_ensureFile f w = Panic nil_deref w.
Proof.
  intros Hf Hs Hc. unfold File_ensureFile, bind, get_file, get_scratch.
  rewrite Hf, Hc, Hs. reflexivity.
Qed.

Lemma File_ensureFile_created w f fl :
  files w !! f = Some fl ->
  created fl = true ->
  File_ensureFile f w =
    if is_nil (file fl) then Ret (Some (Errorf "file has already been closed")) w
    else Ret None w.
Proof.
  intros Hf Hc. unfold File_ensureFile, bind, get_file.
  rewrite Hf, Hc. destruct (file fl); reflexivity.
Qed.

(** What ensureFile leaves alone: the limiter, the root, the counts, and in
    the file everything but the handle and the created flag, which is set
    exactly when it returns without error. *)
Lemma File_ensureFile_frame w f fl res w1 :
  files w !! f = Some fl ->
  File_ensureFile f w = Ret res w1 ->
  limiter (storage w1) = limiter (storage w) /\
  dir (storage w1) = dir (storage w) /\
  rangeRefCount (storage w1) = rangeRefCount (storage w) /\
  exists fl1, files w1 !! f = Some fl1 /\ file_grows fl fl1 /\
              (res = None -> created fl1 = true).
Proof.
  intros Hf Hrun.
  assert (Hfl : (f < length (files w))%nat) by (eapply lookup_lt_Some; eauto).
  destruct (created fl) eqn:Hc.
  { rewrite (File_ensureFile_created _ _ _ Hf Hc) in Hrun.
    destruct (is_nil (file fl)); injection Hrun as <- <-;
      (repeat split; try reflexivity); exists fl;
      (split; [exact Hf|]); (split; [repeat split|]); congruence. }
  destruct (scratches w !! scratch fl) as [sc|] eqn:Hs.
  2: { rewrite (File_ensureFile_nil_scratch _ _ _ Hf Hs Hc) in Hrun.
       discriminate. }
  rewrite (File_ensureFile_eq _ _ _ _ Hf Hs), Hc in Hrun. simpl in Hrun.
  destruct (dirCreated sc);
    [|destruct (fst (MkdirAll X (snapDir sc) (engine (storage w))))];
    (destruct (closed sc); [|destruct (bytesPerSync fl >? 0)%Z]);
    repeat case_match; simplify_eq; simpl;
    (repeat split; try reflexivity);
    first [ exists fl; split; [exact Hf|]; split; [repeat split|]; congruence
          | eexists; split; [apply list_lookup_insert_eq; exact Hfl|];
            split; [repeat split; simpl; congruence|]; simpl; congruence ].
Qed.

Lemma File_Write_eq w f (contents : list Byte.byte) :
  contents <> [] ->
  File_Write f contents w =
    match File_ensureFile f w with
    | Panic msg w1 => Panic msg w1
    | Ret (Some e) w1 => Ret (0%Z, Some e) w1
    | Ret None w1 =>
        match files w1 !! f with
        | None => Panic nil_deref w1
        | Some fl1 =>
            let adm := limitBulkIOWrite X (ctx fl1) (limiter (storage w1))
                         (Z.of_nat (length contents)) in
            match fst adm with
            | Some e => Ret (0%Z, Some (External e)) (with_limiter w1 (snd adm))
            | None =>
                match file fl1 with
                | None => Panic nil_deref (with_limiter w1 (snd adm))
                | Some h =>
                    let wr := FileWrite X h contents (engine (storage w1)) in
                    Ret (fst (fst wr), lift_err (snd (fst wr)))
                        (with_engine (with_limiter w1 (snd adm)) (snd wr))
                end
            end
        end
    end.
Proof.
  intros Hne. unfold File_Write.
  assert (Hz : (Z.of_nat (length contents) =? 0)%Z = false).
  { destruct contents; [congruence|]. apply Z.eqb_neq. simpl length. lia. }
  rewrite Hz. unfold bind at 1.
  destruct (File_ensureFile f w) as [[e|] w1|msg w1]; [reflexivity| |reflexivity].
  unfold bind at 1. unfold get_file at 1.
  destruct (files w1 !! f) as [fl1|] eqn:Hf1; [|reflexivity].
  unfold bind at 1. unfold limiter_call. cbv zeta.
  destruct (fst (limitBulkIOWrite X (ctx fl1) (limiter (storage w1))
                   (Z.of_nat (length contents)))); [reflexivity|].
  unfold bind at 1. unfold get_file at 1. unfold with_limiter at 1 2. simpl files.
  rewrite Hf1.
  destruct (file fl1); reflexivity.
Qed.


(** *** Counting open scratches *)

Lemma open_count_app (l l' : list SSTSnapshotStorageScratch) r :
  open_count (l ++ l') r = (open_count l r + open_count l' r)%nat.
Proof.
  induction l as [|sc l IH]; simpl; [reflexivity|]. rewrite IH. lia.
Qed.

Lemma open_count_le_length (l : list SSTSnapshotStorageScratch) r :
  (open_count l r <= length l)%nat.
Proof.
  induction l as [|sc l IH]; simpl; [lia|].
  destruct (is_open r sc); lia.
Qed.

Lemma open_count_insert (l : list SSTSnapshotStorageScratch) s sc sc' r :
  l !! s = Some sc ->
  (open_count (<[s := sc']> l) r + (if is_open r sc then 1 else 0)
   = open_count l r + (if is_open r sc' then 1 else 0))%nat.
Proof.
  revert s. induction l as [|x l IH]; intros s Hs; [discriminate|].
  destruct s as [|s]; simpl in *.
  - injection Hs as ->. lia.
  - specialize (IH s Hs). lia.
Qed.

Lemma open_count_insert_same (l : list SSTSnapshotStorageScratch) s sc sc' r :
  l !! s = Some sc ->
  rangeID sc' = rangeID sc -> closed sc' = closed sc ->
  open_count (<[s := sc']> l) r = open_count l r.
Proof.
  intros Hs Hr Hc. pose proof (open_count_insert l s sc sc' r Hs) as H.
  unfold is_open in H. rewrite Hr, Hc in H. lia.
Qed.

Lemma open_count_pos (l : list SSTSnapshotStorageScratch) s sc :
  l !! s = Some sc -> closed sc = false ->
  (1 <= open_count l (rangeID sc))%nat.
Proof.
  revert s. induction l as [|x l IH]; intros s Hs Hc; [discriminate|].
  destruct s as [|s]; simpl in *.
  - injection Hs as ->. unfold is_open. rewrite Z.eqb_refl, Hc. simpl. lia.
  - specialize (IH s Hs Hc). lia.
Qed.

Lemma count_entry_some (n : nat) (v : Z) :
  count_entry n = Some v -> v = Z.of_nat n /\ (1 <= v)%Z.
Proof.
  destruct n; simpl; [discriminate|]. intros [= <-]. lia.
Qed.

Lemma refcount_count_entry (m : gmap Z Z) r (n : nat) :
  m !! r = count_entry n -> refcount m r = Z.of_nat n.
Proof.
  unfold refcount. intros ->. destruct n; reflexivity.
Qed.

(** *** Changes of the world that keep it consistent *)

Lemma scratch_ok_dir w w' sc :
  dir (storage w') = dir (storage w) -> scratch_ok w sc -> scratch_ok w' sc.
Proof.
  intros Hd [Hn [u Hu]]. split; [exact Hn|]. exists u. rewrite Hd. exact Hu.
Qed.

Lemma consistent_with_engine w (e : Engine X) :
  consistent w -> consistent (with_engine w e).
Proof.
  intros [H1 H2 H3 H4]. split; simpl; auto.
Qed.

Lemma consistent_with_limiter w (l : Limiter X) :
  consistent w -> consistent (with_limiter w l).
Proof.
  intros [H1 H2 H3 H4]. split; simpl; auto.
Qed.

(** A scratch changes, but neither its range nor its directory nor whether it
    is closed; its names stay well numbered and dirCreated is not reset. *)
Lemma consistent_set_scratch w s sc sc' :
  consistent w ->
  scratches w !! s = Some sc ->
  rangeID sc' = rangeID sc ->
  closed sc' = closed sc ->
  snapDir sc' = snapDir sc ->
  (dirCreated sc = true -> dirCreated sc' = true) ->
  (exists more, ssts sc' = (ssts sc ++ more)%list) ->
  ssts sc' = sst_names sc' (length (ssts sc')) ->
  consistent (with_scratches w (<[s := sc']> (scratches w))).
Proof.
  intros [H1 H2 H3 H4] Hs Hr Hc Hd Hdc [more Hm] Hn.
  assert (Hlt : (s < length (scratches w))%nat) by (eapply lookup_lt_Some; eauto).
  split; simpl.
  - intros r. rewrite (open_count_insert_same _ _ _ _ _ Hs Hr Hc). apply H1.
  - exact H2.
  - intros s0 sc0 Hs0. destruct (decide (s = s0)) as [<-|Hne].
    + rewrite list_lookup_insert_eq in Hs0 by exact Hlt. injection Hs0 as <-.
      destruct (H3 _ _ Hs) as [_ [u Hu]]. split; [exact Hn|].
      exists u. simpl. rewrite Hd, Hr. exact Hu.
    + rewrite list_lookup_insert_ne in Hs0 by exact Hne.
      apply (scratch_ok_dir w); [reflexivity|]. eapply H3; eauto.
  - intros f fl Hf. destruct (H4 _ _ Hf) as (sc0 & Hs0 & Hcr & i & Hi & Hname).
    destruct (decide (s = scratch fl)) as [Heq|Hne].
    + subst s. rewrite Hs in Hs0. injection Hs0 as <-.
      exists sc'. simpl. rewrite list_lookup_insert_eq by exact Hlt.
      split; [reflexivity|]. split; [auto|].
      exists i. split.
      * rewrite Hm. apply lookup_app_l_Some. exact Hi.
      * rewrite Hname. unfold Scratch_filename. rewrite Hd. reflexivity.
    + exists sc0. simpl. rewrite list_lookup_insert_ne by exact Hne.
      split; [exact Hs0|]. split; [exact Hcr|]. exists i. auto.
Qed.

(** A file changes, but neither its scratch nor its name; it becomes created
    only when the directory of its scratch is. *)
Lemma consistent_set_file w f fl fl' :
  consistent w ->
  files w !! f = Some fl ->
  scratch fl' = scratch fl ->
  filename fl' = filename fl ->
  (created fl' = true ->
     created fl = true \/
     exists sc, scratches w !! scratch fl = Some sc /\ dirCreated sc = true) ->
  consistent (with_files w (<[f := fl']> (files w))).
Proof.
  intros [H1 H2 H3 H4] Hf Hs Hn Hc.
  assert (Hlt : (f < length (files w))%nat) by (eapply lookup_lt_Some; eauto).
  split; simpl; auto.
  intros f0 fl0 Hf0. destruct (decide (f = f0)) as [<-|Hne].
  - rewrite list_lookup_insert_eq in Hf0 by exact Hlt. injection Hf0 as <-.
    destruct (H4 _ _ Hf) as (sc0 & Hs0 & Hcr & i & Hi & Hname).
    exists sc0. simpl. rewrite Hs, Hn. split; [exact Hs0|]. split.
    + intros Hc'. destruct (Hc Hc') as [Hold | (sc1 & Hs1 & Hd1)]; [auto|].
      rewrite Hs0 in Hs1. injection Hs1 as <-. exact Hd1.
    + exists i. auto.
  - rewrite list_lookup_insert_ne in Hf0 by exact Hne.
    apply (H4 _ _ Hf0).
Qed.

(** *** The file operations keep the world consistent *)

Lemma File_ensureFile_consistent w f res w1 :
  consistent w -> File_ensureFile f w = Ret res w1 -> consistent w1.
Proof.
  intros Hc Hrun.
  destruct (files w !! f) as [fl|] eqn:Hf.
  2: { unfold File_ensureFile, bind, get_file in Hrun. rewrite Hf in Hrun.
       discriminate. }
  destruct (files_ok _ Hc _ _ Hf) as (sc & Hs & Hcr & _).
  rewrite (File_ensureFile_eq _ _ _ _ Hf Hs) in Hrun.
  destruct (created fl) eqn:Hcre.
  { destruct (is_nil (file fl)); injection Hrun as <- <-; exact Hc. }
  cbv zeta in Hrun.
  set (mk := MkdirAll X (snapDir sc) (engine (storage w))) in *.
  set (w0 := if dirCreated sc then w
             else with_scratches (with_engine w (snd mk))
                    (<[scratch fl := with_dirCreated sc (is_nil (fst mk))]> (scratches w)))
    in *.
  assert (Hc0 : consistent w0).
  { subst w0. destruct (dirCreated sc) eqn:Hd; [exact Hc|].
    apply (consistent_set_scratch (with_engine w (snd mk)) _ sc);
      try reflexivity.
    - apply consistent_with_engine. exact Hc.
    - exact Hs.
    - simpl. congruence.
    - exists []. simpl. rewrite app_nil_r. reflexivity.
    - simpl. apply (scratches_ok _ Hc _ _ Hs). }
  assert (Hf0 : files w0 = files w).
  { subst w0. destruct (dirCreated sc); reflexivity. }
  assert (Hd0 : (if dirCreated sc then None else fst mk) = None ->
                exists sc0, scratches w0 !! scratch fl = Some sc0 /\
                            dirCreated sc0 = true).
  { subst w0. destruct (dirCreated sc) eqn:Hd.
    - intros _. exists sc. auto.
    - intros Hmk. eexists. split.
      + simpl. apply list_lookup_insert_eq. eapply lookup_lt_Some; eauto.
      + simpl. rewrite Hmk. reflexivity. }
  clearbody w0 mk.
  destruct (if dirCreated sc then None else fst mk) as [e|].
  { injection Hrun as <- <-. exact Hc0. }
  specialize (Hd0 eq_refl).
  destruct (closed sc).
  { injection Hrun as <- <-. exact Hc0. }
  set (cr := if (bytesPerSync fl >? 0)%Z
             then CreateWithSync X (filename fl) (bytesPerSync fl) (engine (storage w0))
             else Create X (filename fl) (engine (storage w0))) in *.
  clearbody cr. rewrite <- Hf0 in Hrun, Hf.
  destruct (snd (fst cr)); injection Hrun as <- <-.
  - apply (consistent_set_file (with_engine w0 (snd cr)) f fl);
      try reflexivity; [apply consistent_with_engine; exact Hc0 | exact Hf |].
    simpl. intros Hx. left. exact Hx.
  - apply (consistent_set_file (with_engine w0 (snd cr)) f fl);
      try reflexivity; [apply consistent_with_engine; exact Hc0 | exact Hf |].
    intros _. right. exact Hd0.
Qed.

Lemma File_Write_consistent w f contents res w1 :
  consistent w -> File_Write f contents w = Ret res w1 -> consistent w1.
Proof.
  intros Hc Hrun.
  destruct (decide (contents = [])) as [->|Hne].
  { unfold File_Write in Hrun. simpl in Hrun. injection Hrun as _ <-. exact Hc. }
  rewrite (File_Write_eq _ _ _ Hne) in Hrun.
  destruct (File_ensureFile f w) as [[e|] w0|] eqn:Hens; [| |discriminate].
  - injection Hrun as _ <-. eapply File_ensureFile_consistent; eauto.
  - pose proof (File_ensureFile_consistent _ _ _ _ Hc Hens) as Hc0.
    destruct (files w0 !! f) as [fl1|]; [|discriminate].
    cbv zeta in Hrun.
    destruct (fst (limitBulkIOWrite X (ctx fl1) (limiter (storage w0))
                     (Z.of_nat (length contents)))).
    + injection Hrun as _ <-. apply consistent_with_limiter. exact Hc0.
    + destruct (file fl1); [|discriminate].
      injection Hrun as _ <-.
      apply consistent_with_engine, consistent_with_limiter. exact Hc0.
Qed.

Lemma File_Close_consistent w f res w1 :
  consistent w -> File_Close f w = Ret res w1 -> consistent w1.
Proof.
  intros Hc Hrun.
  destruct (files w !! f) as [fl|] eqn:Hf.
  2: { unfold File_Close, bind, get_file in Hrun. rewrite Hf in Hrun.
       discriminate. }
  rewrite (File_Close_eq _ _ _ Hf) in Hrun.
  destruct (created fl) eqn:Hcre; simpl in Hrun.
  2: { injection Hrun as _ <-. exact Hc. }
  destruct (file fl) as [h|].
  2: { injection Hrun as _ <-. exact Hc. }
  destruct (fst (FileClose X h (engine (storage w)))); injection Hrun as _ <-.
  - apply consistent_with_engine. exact Hc.
  - apply (consistent_set_file (with_engine w _) f fl); try reflexivity;
      [apply consistent_with_engine; exact Hc | exact Hf |].
    simpl. intros Hx. left. exact Hx.
Qed.

Lemma File_Sync_consistent w f res w1 :
  consistent w -> File_Sync f w = Ret res w1 -> consistent w1.
Proof.
  intros Hc Hrun.
  destruct (files w !! f) as [fl|] eqn:Hf.
  2: { unfold File_Sync, bind, get_file in Hrun. rewrite Hf in Hrun.
       discriminate. }
  rewrite (File_Sync_eq _ _ _ Hf) in Hrun.
  destruct (file fl); [|discriminate].
  injection Hrun as _ <-. apply consistent_with_engine. exact Hc.
Qed.

(** *** Names handed out by a scratch *)

Lemma sst_names_snapDir (sc sc' : SSTSnapshotStorageScratch) n :
  snapDir sc' = snapDir sc -> sst_names sc' n = sst_names sc n.
Proof.
  intros Hd. unfold sst_names, Scratch_filename. rewrite Hd. reflexivity.
Qed.

Lemma sst_names_S (sc : SSTSnapshotStorageScratch) n :
  sst_names sc (S n) = (sst_names sc n ++ [Scratch_filename sc (Z.of_nat n)])%list.
Proof.
  unfold sst_names. rewrite seq_S, map_app. reflexivity.
Qed.

Lemma sst_names_length (sc : SSTSnapshotStorageScratch) n :
  length (sst_names sc n) = n.
Proof.
  unfold sst_names. rewrite length_map, length_seq. reflexivity.
Qed.

Lemma sst_names_lookup (sc : SSTSnapshotStorageScratch) n i :
  (i < n)%nat -> sst_names sc n !! i = Some (Scratch_filename sc (Z.of_nat i)).
Proof.
  intros Hi. unfold sst_names. rewrite list_lookup_fmap.
  rewrite lookup_seq_lt by exact Hi. reflexivity.
Qed.

(** *** The scratch operations keep the world consistent *)

Lemma consistent_new_file w (fl : SSTSnapshotStorageFile X) :
  consistent w -> file_ok w fl ->
  consistent (with_files w (files w ++ [fl])).
Proof.
  intros [H1 H2 H3 H4] Hok. split; simpl; auto.
  intros f fl0 Hf. apply lookup_app_Some in Hf as [Hf | [_ Hf]].
  - apply (H4 _ _ Hf).
  - apply list_lookup_singleton_Some in Hf as [_ <-]. exact Hok.
Qed.

Lemma Scratch_NewFile_consistent w s (c : Ctx X) bps res w1 :
  consistent w -> Scratch_NewFile s c bps w = Ret res w1 -> consistent w1.
Proof.
  intros Hc Hrun.
  destruct (scratches w !! s) as [sc|] eqn:Hs.
  2: { unfold Scratch_NewFile, bind, get_scratch in Hrun. rewrite Hs in Hrun.
       discriminate. }
  rewrite (Scratch_NewFile_eq _ _ _ _ _ Hs) in Hrun.
  destruct (closed sc); injection Hrun as _ <-; [exact Hc|].
  assert (Hlt : (s < length (scratches w))%nat) by (eapply lookup_lt_Some; eauto).
  destruct (scratches_ok _ Hc _ _ Hs) as [Hn _].
  apply (consistent_new_file (with_scratches w _)).
  - apply (consistent_set_scratch w s sc); try reflexivity; try assumption.
    + auto.
    + eexists. reflexivity.
    + simpl. rewrite length_app. simpl. rewrite Nat.add_1_r, sst_names_S.
      rewrite (sst_names_snapDir sc) by reflexivity.
      rewrite <- Hn. reflexivity.
  - eexists. simpl. rewrite list_lookup_insert_eq by exact Hlt.
    split; [reflexivity|]. split; [discriminate|].
    exists (length (ssts sc)). simpl. split; [|reflexivity].
    rewrite lookup_app_r by lia. rewrite Nat.sub_diag. reflexivity.
Qed.

Lemma Scratch_SSTs_eq w s sc :
  scratches w !! s = Some sc -> Scratch_SSTs s w = Ret (ssts sc) w.
Proof.
  intros Hs. unfold Scratch_SSTs, bind, get_scratch, ret. rewrite Hs. reflexivity.
Qed.

Lemma Scratch_SSTs_world w s res w1 :
  Scratch_SSTs s w = Ret res w1 -> w1 = w.
Proof.
  unfold Scratch_SSTs, bind, get_scratch, ret.
  destruct (scratches w !! s); [|discriminate]. intros [= _ <-]. reflexivity.
Qed.

Lemma Clear_eq w :
  Clear w =
    let rm := RemoveAll X (dir (storage w)) (engine (storage w)) in
    Ret (lift_err (fst rm)) (with_engine w (snd rm)).
Proof. reflexivity. Qed.

Lemma NewScratchSpace_eq w r (u : UUID X) :
  NewScratchSpace r u w =
    Ret (length (scratches w))
      (with_scratches
         (with_rangeRefCount w
            (<[r := wrap_int (refcount (rangeRefCount (storage w)) r + 1)]>
               (rangeRefCount (storage w))))
         (scratches w ++
            [{| rangeID := r; ssts := [];
                snapDir := Join [dir (storage w); Itoa r; UUID_String X u];
                dirCreated := false; closed := false |}])).
Proof. reflexivity. Qed.

Lemma NewScratchSpace_consistent w r (u : UUID X) res w1 :
  consistent w -> heap_bounded w ->
  NewScratchSpace r u w = Ret res w1 -> consistent w1.
Proof.
  intros Hc Hb Hrun. rewrite NewScratchSpace_eq in Hrun.
  injection Hrun as _ <-. destruct Hc as [H1 H2 H3 H4].
  pose proof (open_count_le_length (scratches w) r) as Hle.
  unfold heap_bounded in Hb.
  split; simpl.
  - intros r0. rewrite open_count_app. simpl. unfold is_open. simpl.
    destruct (decide (r = r0)) as [<-|Hne].
    + rewrite lookup_insert_eq, Z.eqb_refl. simpl.
      rewrite (refcount_count_entry _ _ _ (H1 r)).
      rewrite wrap_int_id by (unfold min_int, max_int in *; lia).
      rewrite Nat.add_1_r. simpl count_entry. f_equal. lia.
    + rewrite lookup_insert_ne by exact Hne.
      replace (r =? r0)%Z with false by (symmetry; apply Z.eqb_neq; exact Hne).
      simpl. rewrite Nat.add_0_r. apply H1.
  - intros r0 v Hv. destruct (decide (r = r0)) as [<-|Hne].
    + rewrite lookup_insert_eq in Hv. injection Hv as <-. apply wrap_int_range.
    + rewrite lookup_insert_ne in Hv by exact Hne. eapply H2; eauto.
  - intros s sc Hs. apply lookup_app_Some in Hs as [Hs | [_ Hs]].
    + apply (scratch_ok_dir w); [reflexivity|]. eapply H3; eauto.
    + apply list_lookup_singleton_Some in Hs as [_ <-].
      split; [reflexivity|]. exists u. reflexivity.
  - intros f fl Hf. destruct (H4 _ _ Hf) as (sc & Hs & Hrest).
    exists sc. split; [|exact Hrest]. apply lookup_app_l_Some. exact Hs.
Qed.

(** *** What calls never undo *)

Lemma scratch_grows_refl (sc : SSTSnapshotStorageScratch) : scratch_grows sc sc.
Proof.
  repeat split; auto. exists []. rewrite app_nil_r. reflexivity.
Qed.

Lemma scratch_grows_trans (a b c : SSTSnapshotStorageScratch) :
  scratch_grows a b -> scratch_grows b c -> scratch_grows a c.
Proof.
  intros (R1 & D1 & C1 & DC1 & m1 & S1) (R2 & D2 & C2 & DC2 & m2 & S2).
  repeat split; try congruence; auto.
  exists (m1 ++ m2)%list. rewrite S2, S1, app_assoc. reflexivity.
Qed.

Lemma file_grows_refl (fl : SSTSnapshotStorageFile X) : file_grows fl fl.
Proof. repeat split; auto. Qed.

Lemma file_grows_trans (a b c : SSTSnapshotStorageFile X) :
  file_grows a b -> file_grows b c -> file_grows a c.
Proof.
  intros (S1 & N1 & X1 & B1 & C1) (S2 & N2 & X2 & B2 & C2).
  repeat split; try congruence; auto.
Qed.

Lemma extends_refl w : extends w w.
Proof.
  split; [reflexivity| |].
  - intros s sc Hs. exists sc. split; [exact Hs|apply scratch_grows_refl].
  - intros f fl Hf. exists fl. split; [exact Hf|apply file_grows_refl].
Qed.

Lemma extends_trans w1 w2 w3 : extends w1 w2 -> extends w2 w3 -> extends w1 w3.
Proof.
  intros [D1 S1 F1] [D2 S2 F2]. split; [congruence| |].
  - intros s sc Hs. destruct (S1 _ _ Hs) as (sc2 & Hs2 & G1).
    destruct (S2 _ _ Hs2) as (sc3 & Hs3 & G2).
    exists sc3. split; [exact Hs3|]. eapply scratch_grows_trans; eauto.
  - intros f fl Hf. destruct (F1 _ _ Hf) as (fl2 & Hf2 & G1).
    destruct (F2 _ _ Hf2) as (fl3 & Hf3 & G2).
    exists fl3. split; [exact Hf3|]. eapply file_grows_trans; eauto.
Qed.

(** Two worlds with the same root and the same heaps. *)
Lemma extends_same w w' :
  dir (storage w') = dir (storage w) ->
  scratches w' = scratches w ->
  files w' = files w ->
  extends w w'.
Proof.
  intros Hd Hs Hf. split; [exact Hd| |].
  - intros s sc H. exists sc. rewrite Hs. split; [exact H|apply scratch_grows_refl].
  - intros f fl H. exists fl. rewrite Hf. split; [exact H|apply file_grows_refl].
Qed.

Lemma extends_set_scratch w s sc sc' :
  scratches w !! s = Some sc -> scratch_grows sc sc' ->
  extends w (with_scratches w (<[s := sc']> (scratches w))).
Proof.
  intros Hs Hg.
  assert (Hlt : (s < length (scratches w))%nat) by (eapply lookup_lt_Some; eauto).
  split; simpl; [reflexivity| |].
  - intros s0 sc0 Hs0. destruct (decide (s = s0)) as [<-|Hne].
    + rewrite list_lookup_insert_eq by exact Hlt. exists sc'.
      split; [reflexivity|]. congruence.
    + rewrite list_lookup_insert_ne by exact Hne. exists sc0.
      split; [exact Hs0|apply scratch_grows_refl].
  - intros f fl Hf. exists fl. split; [exact Hf|apply file_grows_refl].
Qed.

Lemma extends_set_file w f fl fl' :
  files w !! f = Some fl -> file_grows fl fl' ->
  extends w (with_files w (<[f := fl']> (files w))).
Proof.
  intros Hf Hg.
  assert (Hlt : (f < length (files w))%nat) by (eapply lookup_lt_Some; eauto).
  split; simpl; [reflexivity| |].
  - intros s sc Hs. exists sc. split; [exact Hs|apply scratch_grows_refl].
  - intros f0 fl0 Hf0. destruct (decide (f = f0)) as [<-|Hne].
    + rewrite list_lookup_insert_eq by exact Hlt. exists fl'.
      split; [reflexivity|]. congruence.
    + rewrite list_lookup_insert_ne by exact Hne. exists fl0.
      split; [exact Hf0|apply file_grows_refl].
Qed.

Lemma extends_new_scratch w (l : list SSTSnapshotStorageScratch) :
  extends w (with_scratches w (scratches w ++ l)).
Proof.
  split; simpl; [reflexivity| |].
  - intros s sc Hs. exists sc.
    split; [apply lookup_app_l_Some; exact Hs|apply scratch_grows_refl].
  - intros f fl Hf. exists fl. split; [exact Hf|apply file_grows_refl].
Qed.

Lemma extends_new_file w (l : list (SSTSnapshotStorageFile X)) :
  extends w (with_files w (files w ++ l)).
Proof.
  split; simpl; [reflexivity| |].
  - intros s sc Hs. exists sc. split; [exact Hs|apply scratch_grows_refl].
  - intros f fl Hf. exists fl.
    split; [apply lookup_app_l_Some; exact Hf|apply file_grows_refl].
Qed.

Lemma File_ensureFile_extends w f res w1 :
  File_ensureFile f w = Ret res w1 -> extends w w1.
Proof.
  intros Hrun.
  destruct (files w !! f) as [fl|] eqn:Hf.
  2: { unfold File_ensureFile, bind, get_file in Hrun. rewrite Hf in Hrun.
       discriminate. }
  destruct (created fl) eqn:Hcre.
  { rewrite (File_ensureFile_created _ _ _ Hf Hcre) in Hrun.
    destruct (is_nil (file fl)); injection Hrun as _ <-; apply extends_refl. }
  destruct (scratches w !! scratch fl) as [sc|] eqn:Hs.
  2: { rewrite (File_ensureFile_nil_scratch _ _ _ Hf Hs Hcre) in Hrun.
       discriminate. }
  rewrite (File_ensureFile_eq _ _ _ _ Hf Hs), Hcre in Hrun.
  cbv zeta in Hrun.
  set (mk := MkdirAll X (snapDir sc) (engine (storage w))) in *.
  set (w0 := if dirCreated sc then w
             else with_scratches (with_engine w (snd mk))
                    (<[scratch fl := with_dirCreated sc (is_nil (fst mk))]> (scratches w)))
    in *.
  assert (He0 : extends w w0).
  { subst w0. destruct (dirCreated sc) eqn:Hd; [apply extends_refl|].
    apply (extends_trans _ (with_engine w (snd mk)));
      [apply extends_same; reflexivity|].
    apply (extends_set_scratch (with_engine w (snd mk)) _ sc); [exact Hs|].
    repeat split; simpl; auto; [congruence|].
    exists []. rewrite app_nil_r. reflexivity. }
  assert (Hf0 : files w0 = files w).
  { subst w0. destruct (dirCreated sc); reflexivity. }
  clearbody w0 mk.
  destruct (if dirCreated sc then None else fst mk) as [e|].
  { injection Hrun as _ <-. exact He0. }
  destruct (closed sc).
  { injection Hrun as _ <-. exact He0. }
  set (cr := if (bytesPerSync fl >? 0)%Z
             then CreateWithSync X (filename fl) (bytesPerSync fl) (engine (storage w0))
             else Create X (filename fl) (engine (storage w0))) in *.
  clearbody cr. rewrite <- Hf0 in Hrun, Hf.
  apply (extends_trans _ w0); [exact He0|].
  apply (extends_trans _ (with_engine w0 (snd cr)));
    [apply extends_same; reflexivity|].
  destruct (snd (fst cr)); injection Hrun as _ <-;
    apply (extends_set_file (with_engine w0 (snd cr)) f fl); try exact Hf;
    repeat split; simpl; congruence.
Qed.

Lemma File_Write_extends w f contents res w1 :
  File_Write f contents w = Ret res w1 -> extends w w1.
Proof.
  intros Hrun.
  destruct (decide (contents = [])) as [->|Hne].
  { unfold File_Write in Hrun. simpl in Hrun. injection Hrun as _ <-.
    apply extends_refl. }
  rewrite (File_Write_eq _ _ _ Hne) in Hrun.
  destruct (File_ensureFile f w) as [[e|] w0|] eqn:Hens; [| |discriminate].
  - injection Hrun as _ <-. eapply File_ensureFile_extends; eauto.
  - pose proof (File_ensureFile_extends _ _ _ _ Hens) as He0.
    destruct (files w0 !! f) as [fl1|]; [|discriminate].
    cbv zeta in Hrun.
    destruct (fst (limitBulkIOWrite X (ctx fl1) (limiter (storage w0))
                     (Z.of_nat (length contents)))).
    + injection Hrun as _ <-.
      apply (extends_trans _ w0); [exact He0|apply extends_same; reflexivity].
    + destruct (file fl1); [|discriminate].
      injection Hrun as _ <-.
      apply (extends_trans _ w0); [exact He0|apply extends_same; reflexivity].
Qed.

Lemma File_Close_extends w f res w1 :
  File_Close f w = Ret res w1 -> extends w w1.
Proof.
  intros Hrun.
  destruct (files w !! f) as [fl|] eqn:Hf.
  2: { unfold File_Close, bind, get_file in Hrun. rewrite Hf in Hrun.
       discriminate. }
  rewrite (File_Close_eq _ _ _ Hf) in Hrun.
  destruct (created fl) eqn:Hcre; simpl in Hrun.
  2: { injection Hrun as _ <-. apply extends_refl. }
  destruct (file fl) as [h|].
  2: { injection Hrun as _ <-. apply extends_refl. }
  destruct (fst (FileClose X h (engine (storage w)))); injection Hrun as _ <-.
  - apply extends_same; reflexivity.
  - apply (extends_trans _ (with_engine w (snd (FileClose X h (engine (storage w))))));
      [apply extends_same; reflexivity|].
    apply (extends_set_file (with_engine w _) f fl); [exact Hf|].
    repeat split; simpl; congruence.
Qed.

Lemma File_Sync_extends w f res w1 :
  File_Sync f w = Ret res w1 -> extends w w1.
Proof.
  intros Hrun.
  destruct (files w !! f) as [fl|] eqn:Hf.
  2: { unfold File_Sync, bind, get_file in Hrun. rewrite Hf in Hrun.
       discriminate. }
  rewrite (File_Sync_eq _ _ _ Hf) in Hrun.
  destruct (file fl); [|discriminate].
  injection Hrun as _ <-. apply extends_same; reflexivity.
Qed.

Lemma Scratch_NewFile_extends w s (c : Ctx X) bps res w1 :
  Scratch_NewFile s c bps w = Ret res w1 -> extends w w1.
Proof.
  intros Hrun.
  destruct (scratches w !! s) as [sc|] eqn:Hs.
  2: { unfold Scratch_NewFile, bind, get_scratch in Hrun. rewrite Hs in Hrun.
       discriminate. }
  rewrite (Scratch_NewFile_eq _ _ _ _ _ Hs) in Hrun.
  destruct (closed sc); injection Hrun as _ <-; [apply extends_refl|].
  eapply extends_trans; [|apply (extends_new_file (with_scratches w _))].
  apply (extends_set_scratch w s sc); [exact Hs|].
  repeat split; simpl; auto. eexists. reflexivity.
Qed.

(** *** Closing a scratch *)

Lemma Scratch_Close_eq w s sc :
  scratches w !! s = Some sc ->
  Scratch_Close s w =
    if closed sc then Ret None w
    else
      let rm := RemoveAll X (snapDir sc) (engine (storage w)) in
      let w1 := with_engine
                  (with_scratches w (<[s := with_closed sc true]> (scratches w)))
                  (snd rm) in
      match scratchClosed (rangeID sc) w1 with
      | Ret _ w2 => Ret (lift_err (fst rm)) w2
      | Panic msg w2 => Panic msg w2
      end.
Proof.
  intros Hs.
  assert (Hlt : (s < length (scratches w))%nat) by (eapply lookup_lt_Some; eauto).
  unfold Scratch_Close. unfold bind at 1. unfold get_scratch at 1. rewrite Hs.
  destruct (closed sc); [reflexivity|].
  unfold bind at 1. unfold set_scratch.
  unfold bind at 1. unfold get_scratch. unfold with_scratches at 1. simpl scratches.
  rewrite list_lookup_insert_eq by exact Hlt.
  unfold defer, bind, engine_call, ret. simpl.
  reflexivity.
Qed.

Lemma scratchClosed_scratches w r res w1 :
  scratchClosed r w = Ret res w1 ->
  scratches w1 = scratches w /\ files w1 = files w /\
  dir (storage w1) = dir (storage w) /\ limiter (storage w1) = limiter (storage w).
Proof.
  rewrite scratchClosed_eq. cbv zeta.
  destruct (refcount (rangeRefCount (storage w)) r <=? 0)%Z; [discriminate|].
  destruct (wrap_int (refcount (rangeRefCount (storage w)) r - 1) =? 0)%Z;
    intros [= _ <-]; repeat split.
Qed.

(** The first Close of an open scratch in a consistent world. *)
Lemma Scratch_Close_open w s sc :
  consistent w ->
  scratches w !! s = Some sc ->
  closed sc = false ->
  let r := rangeID sc in
  let n := refcount (rangeRefCount (storage w)) r in
  let rm := RemoveAll X (snapDir sc) (engine (storage w)) in
  (1 <= n)%Z /\
  exists w',
    Scratch_Close s w = Ret (lift_err (fst rm)) w' /\
    scratches w' = <[s := with_closed sc true]> (scratches w) /\
    files w' = files w /\
    limiter (storage w') = limiter (storage w) /\
    dir (storage w') = dir (storage w) /\
    rangeRefCount (storage w') =
      (if (n =? 1)%Z then delete r (rangeRefCount (storage w))
       else <[r := (n - 1)%Z]> (rangeRefCount (storage w))) /\
    engine (storage w') =
      (if (n =? 1)%Z
       then snd (RemoveAll X (Join [dir (storage w); Itoa r]) (snd rm))
       else snd rm).
Proof.
  intros Hc Hs Hcl r n rm.
  pose proof (open_count_pos _ _ _ Hs Hcl) as Hpos.
  pose proof (counts_ok _ Hc r) as Hcnt. fold r in Hpos.
  assert (Hn : n = Z.of_nat (open_count (scratches w) r)).
  { subst n. apply refcount_count_entry. exact Hcnt. }
  assert (Hrange : (min_int <= n <= max_int)%Z).
  { destruct (open_count (scratches w) r) as [|k] eqn:Hk; [lia|].
    simpl count_entry in Hcnt. apply (range_ok _ Hc) in Hcnt. lia. }
  split; [lia|].
  rewrite (Scratch_Close_eq _ _ _ Hs), Hcl. cbv zeta.
  rewrite scratchClosed_eq. cbv zeta.
  change (refcount (rangeRefCount (storage (with_engine
            (with_scratches w (<[s:=with_closed sc true]> (scratches w)))
            (snd (RemoveAll X (snapDir sc) (engine (storage w))))))) (rangeID sc))
    with n.
  replace (n <=? 0)%Z with false by (symmetry; apply Z.leb_gt; lia).
  rewrite wrap_int_id by (unfold min_int, max_int in *; lia).
  replace (n - 1 =? 0)%Z with (n =? 1)%Z
    by (destruct (Z.eqb_spec n 1), (Z.eqb_spec (n - 1) 0); lia || reflexivity).
  destruct (n =? 1)%Z; eexists; (split; [reflexivity|]); simpl;
    repeat split.
  apply delete_insert_eq.
Qed.

Lemma Scratch_Close_consistent w s res w1 :
  consistent w -> Scratch_Close s w = Ret res w1 -> consistent w1.
Proof.
  intros Hc Hrun.
  destruct (scratches w !! s) as [sc|] eqn:Hs.
  2: { unfold Scratch_Close, bind, get_scratch in Hrun. rewrite Hs in Hrun.
       discriminate. }
  destruct (closed sc) eqn:Hcl.
  { rewrite (Scratch_Close_eq _ _ _ Hs), Hcl in Hrun. injection Hrun as _ <-.
    exact Hc. }
  destruct (Scratch_Close_open _ _ _ Hc Hs Hcl)
    as (Hn & w' & Hrun' & Hsc & Hfl & _ & Hdir & Hm & _).
  rewrite Hrun' in Hrun. injection Hrun as _ <-.
  pose proof (counts_ok _ Hc (rangeID sc)) as Hcnt.
  pose proof (refcount_count_entry _ _ _ Hcnt) as Hrc.
  assert (Hlt : (s < length (scratches w))%nat) by (eapply lookup_lt_Some; eauto).
  split.
  - intros r0. rewrite Hsc, Hm.
    pose proof (open_count_insert (scratches w) s sc (with_closed sc true) r0 Hs)
      as Hins.
    unfold is_open in Hins. simpl in Hins. rewrite Hcl in Hins.
    rewrite andb_false_r, andb_true_r in Hins.
    destruct (decide (rangeID sc = r0)) as [<-|Hne].
    + rewrite Z.eqb_refl in Hins. rewrite Hrc in *.
      destruct (Z.eqb_spec (Z.of_nat (open_count (scratches w) (rangeID sc))) 1)
        as [H1|H1].
      * rewrite lookup_delete_eq.
        replace (open_count (<[s:=with_closed sc true]> (scratches w)) (rangeID sc))
          with 0%nat by lia.
        reflexivity.
      * rewrite lookup_insert_eq.
        destruct (open_count (<[s:=with_closed sc true]> (scratches w)) (rangeID sc))
          as [|k] eqn:Hk; [lia|].
        simpl count_entry. f_equal. lia.
    + replace (rangeID sc =? r0)%Z with false in Hins
        by (symmetry; apply Z.eqb_neq; exact Hne).
      replace (open_count (<[s:=with_closed sc true]> (scratches w)) r0)
        with (open_count (scratches w) r0) by lia.
      destruct (refcount (rangeRefCount (storage w)) (rangeID sc) =? 1)%Z.
      * rewrite lookup_delete_ne by exact Hne. apply (counts_ok _ Hc).
      * rewrite lookup_insert_ne by exact Hne. apply (counts_ok _ Hc).
  - rewrite Hm. intros r0 v Hv.
    destruct (refcount (rangeRefCount (storage w)) (rangeID sc) =? 1)%Z.
    + apply lookup_delete_Some in Hv as [_ Hv]. eapply (range_ok _ Hc); eauto.
    + destruct (decide (rangeID sc = r0)) as [<-|Hne].
      * rewrite lookup_insert_eq in Hv. injection Hv as <-.
        rewrite Hrc in *.
        destruct (open_count (scratches w) (rangeID sc)) as [|k] eqn:Hk; [lia|].
        simpl count_entry in Hcnt. apply (range_ok _ Hc) in Hcnt.
        unfold min_int, max_int in *. lia.
      * rewrite lookup_insert_ne in Hv by exact Hne. eapply (range_ok _ Hc); eauto.
  - rewrite Hsc. intros s0 sc0 Hs0. destruct (decide (s = s0)) as [<-|Hne].
    + rewrite list_lookup_insert_eq in Hs0 by exact Hlt. injection Hs0 as <-.
      destruct (scratches_ok _ Hc _ _ Hs) as [Hnm [u Hu]].
      split; [exact Hnm|]. exists u. rewrite Hdir. exact Hu.
    + rewrite list_lookup_insert_ne in Hs0 by exact Hne.
      apply (scratch_ok_dir w); [exact Hdir|]. eapply (scratches_ok _ Hc); eauto.
  - rewrite Hfl. intros f fl Hf.
    destruct (files_ok _ Hc _ _ Hf) as (sc0 & Hs0 & Hcr & Hnm).
    unfold file_ok. rewrite Hsc. destruct (decide (s = scratch fl)) as [Heq|Hne].
    + subst s. rewrite Hs in Hs0. injection Hs0 as <-.
      exists (with_closed sc true). rewrite list_lookup_insert_eq by exact Hlt.
      split; [reflexivity|]. split; [exact Hcr|exact Hnm].
    + exists sc0. rewrite list_lookup_insert_ne by exact Hne.
      split; [exact Hs0|]. split; [exact Hcr|exact Hnm].
Qed.

Lemma Scratch_Close_extends w s res w1 :
  Scratch_Close s w = Ret res w1 -> extends w w1.
Proof.
  intros Hrun.
  destruct (scratches w !! s) as [sc|] eqn:Hs.
  2: { unfold Scratch_Close, bind, get_scratch in Hrun. rewrite Hs in Hrun.
       discriminate. }
  rewrite (Scratch_Close_eq _ _ _ Hs) in Hrun.
  destruct (closed sc) eqn:Hcl.
  { injection Hrun as _ <-. apply extends_refl. }
  cbv zeta in Hrun.
  destruct (scratchClosed _ _) as [a w2|] eqn:Hsc in Hrun; [|discriminate].
  injection Hrun as _ <-.
  destruct (scratchClosed_scratches _ _ _ _ Hsc) as (S2 & F2 & D2 & _).
  eapply extends_trans; [|apply extends_same; [exact D2|exact S2|exact F2]].
  apply (extends_trans _
           (with_scratches w (<[s := with_closed sc true]> (scratches w))));
    [|apply extends_same; reflexivity].
  apply (extends_set_scratch w s sc); [exact Hs|].
  repeat split; simpl; auto. exists []. rewrite app_nil_r. reflexivity.
Qed.

(** *** Sequences: bind and defer *)

Lemma bind_Ret {A B : Type} (m : M X A) (k : A -> M X B) w b w' :
  bind m k w = Ret b w' ->
  exists a w1, m w = Ret a w1 /\ k a w1 = Ret b w'.
Proof.
  unfold bind. destruct (m w) as [a w1|]; [|discriminate]. eauto.
Qed.

Lemma defer_Ret {A B : Type} (d : M X B) (body : M X A) w a w' :
  defer d body w = Ret a w' ->
  exists w1 b, body w = Ret a w1 /\ d w1 = Ret b w'.
Proof.
  unfold defer. destruct (body w) as [a0 w1|msg w1].
  - destruct (d w1) as [b w2|] eqn:Hd; [|discriminate].
    intros [= <- <-]. eauto.
  - destruct (d w1); discriminate.
Qed.

(** WriteSST is a sequence of NewFile, Write, Sync and Close: a relation
    between worlds that holds across each of them, and composes, holds
    across WriteSST. *)
Lemma Scratch_WriteSST_steps (R : World X -> World X -> Prop) :
  (forall w, R w w) ->
  (forall a b c, R a b -> R b c -> R a c) ->
  (forall w s c bps res w1, Scratch_NewFile s c bps w = Ret res w1 -> R w w1) ->
  (forall w f contents res w1, File_Write f contents w = Ret res w1 -> R w w1) ->
  (forall w f res w1, File_Sync f w = Ret res w1 -> R w w1) ->
  (forall w f res w1, File_Close f w = Ret res w1 -> R w w1) ->
  forall w s (c : Ctx X) data res w1,
    Scratch_WriteSST s c data w = Ret res w1 -> R w w1.
Proof.
  intros Hrefl Htrans HNew HWrite HSync HClose w s c data res w1 Hrun.
  unfold Scratch_WriteSST in Hrun.
  apply bind_Ret in Hrun as (x & w0 & Hget & Hrun).
  unfold get_scratch in Hget.
  destruct (scratches w !! s) as [sc0|]; [|discriminate].
  injection Hget as <- <-.
  destruct (closed sc0); [injection Hrun as _ <-; apply Hrefl|].
  destruct (Z.of_nat (length data) =? 0)%Z;
    [injection Hrun as _ <-; apply Hrefl|].
  apply bind_Ret in Hrun as ([fo eo] & w2 & Hnew & Hrun).
  apply HNew in Hnew. simpl in Hrun.
  destruct eo as [e|]; [injection Hrun as _ <-; exact Hnew|].
  destruct fo as [f|]; [|discriminate].
  apply defer_Ret in Hrun as (w3 & b & Hbody & Hdef).
  apply HClose in Hdef.
  apply (Htrans _ w2); [exact Hnew|]. apply (Htrans _ w3); [|exact Hdef].
  apply bind_Ret in Hbody as ([n eo] & w4 & Hwr & Hbody).
  apply HWrite in Hwr. simpl in Hbody.
  destruct eo as [e|]; [injection Hbody as _ <-; exact Hwr|].
  apply (Htrans _ w4); [exact Hwr|].
  apply bind_Ret in Hbody as (eo & w5 & Hsy & Hbody).
  apply HSync in Hsy.
  destruct eo as [e|]; [injection Hbody as _ <-; exact Hsy|].
  apply (Htrans _ w5); [exact Hsy|]. eapply HClose; eauto.
Qed.

Lemma Scratch_WriteSST_consistent w s (c : Ctx X) data res w1 :
  consistent w -> Scratch_WriteSST s c data w = Ret res w1 -> consistent w1.
Proof.
  intros Hc Hrun. revert Hc.
  apply (Scratch_WriteSST_steps (fun a b => consistent a -> consistent b))
    with (s := s) (c := c) (data := data) (res := res); auto.
  - intros; eapply Scratch_NewFile_consistent; eauto.
  - intros; eapply File_Write_consistent; eauto.
  - intros; eapply File_Sync_consistent; eauto.
  - intros; eapply File_Close_consistent; eauto.
Qed.

Lemma Scratch_WriteSST_extends w s (c : Ctx X) data res w1 :
  Scratch_WriteSST s c data w = Ret res w1 -> extends w w1.
Proof.
  apply (Scratch_WriteSST_steps extends).
  - apply extends_refl.
  - apply extends_trans.
  - apply Scratch_NewFile_extends.
  - apply File_Write_extends.
  - apply File_Sync_extends.
  - apply File_Close_extends.
Qed.

(** *** Every call, and every world the interface reaches *)

Lemma run_consistent (c : Call) w w1 :
  consistent w -> heap_bounded w -> run c w = Ret tt w1 -> consistent w1.
Proof.
  intros Hc Hb Hrun. destruct c; simpl in Hrun;
    apply bind_Ret in Hrun as (a & w0 & Hop & Hret);
    injection Hret as <-.
  - eapply NewScratchSpace_consistent; eauto.
  - rewrite Clear_eq in Hop. injection Hop as _ <-.
    apply consistent_with_engine. exact Hc.
  - eapply Scratch_NewFile_consistent; eauto.
  - eapply Scratch_WriteSST_consistent; eauto.
  - apply Scratch_SSTs_world in Hop. subst w0. exact Hc.
  - eapply Scratch_Close_consistent; eauto.
  - eapply File_Write_consistent; eauto.
  - eapply File_Close_consistent; eauto.
  - eapply File_Sync_consistent; eauto.
Qed.

Lemma run_extends (c : Call) w w1 :
  run c w = Ret tt w1 -> extends w w1.
Proof.
  intros Hrun. destruct c; simpl in Hrun;
    apply bind_Ret in Hrun as (a & w0 & Hop & Hret);
    injection Hret as <-.
  - rewrite NewScratchSpace_eq in Hop. injection Hop as _ <-.
    eapply extends_trans; [|apply (extends_new_scratch (with_rangeRefCount w _))].
    apply extends_same; reflexivity.
  - rewrite Clear_eq in Hop. injection Hop as _ <-.
    apply extends_same; reflexivity.
  - eapply Scratch_NewFile_extends; eauto.
  - eapply Scratch_WriteSST_extends; eauto.
  - apply Scratch_SSTs_world in Hop. subst w0. apply extends_refl.
  - eapply Scratch_Close_extends; eauto.
  - eapply File_Write_extends; eauto.
  - eapply File_Close_extends; eauto.
  - eapply File_Sync_extends; eauto.
Qed.

Lemma run_all_extends (cs : list Call) w w1 :
  run_all cs w = Ret tt w1 -> extends w w1.
Proof.
  revert w. induction cs as [|c cs IH]; intros w Hrun; simpl in Hrun.
  - injection Hrun as <-. apply extends_refl.
  - apply bind_Ret in Hrun as ([] & w0 & Hc & Hrest).
    eapply extends_trans; [eapply run_extends; eauto|]. apply IH. exact Hrest.
Qed.

Lemma init_world_consistent (e : Engine X) (l : Limiter X) :
  consistent (init_world e l).
Proof.
  split; simpl.
  - intros r. apply lookup_empty.
  - intros r v Hv. rewrite lookup_empty in Hv. discriminate.
  - intros s sc Hs. discriminate.
  - intros f fl Hf. discriminate.
Qed.

Lemma reachable_consistent w : reachable w -> consistent w.
Proof.
  induction 1 as [e l|w w' c _ IH Hb Hrun].
  - apply init_world_consistent.
  - eapply run_consistent; eauto.
Qed.

(** *** Close of a scratch, twice *)

Lemma Scratch_Close_closed w s sc :
  scratches w !! s = Some sc -> closed sc = true ->
  Scratch_Close s w = Ret None w.
Proof.
  intros Hs Hc. rewrite (Scratch_Close_eq _ _ _ Hs), Hc. reflexivity.
Qed.

Lemma Scratch_Close_sets_closed w s res w1 :
  Scratch_Close s w = Ret res w1 ->
  exists sc1, scratches w1 !! s = Some sc1 /\ closed sc1 = true.
Proof.
  intros Hrun.
  destruct (scratches w !! s) as [sc0|] eqn:Hs.
  2: { unfold Scratch_Close, bind, get_scratch in Hrun. rewrite Hs in Hrun.
       discriminate. }
  rewrite (Scratch_Close_eq _ _ _ Hs) in Hrun.
  destruct (closed sc0) eqn:Hcl.
  { injection Hrun as _ <-. eauto. }
  cbv zeta in Hrun.
  destruct (scratchClosed _ _) as [a w2|] eqn:Hsc in Hrun; [|discriminate].
  injection Hrun as _ <-.
  destruct (scratchClosed_scratches _ _ _ _ Hsc) as (S2 & _).
  rewrite S2. simpl. exists (with_closed sc0 true).
  split; [|reflexivity].
  apply list_lookup_insert_eq. eapply lookup_lt_Some; eauto.
Qed.

Lemma run_all_Close_closed w s sc (k : nat) :
  scratches w !! s = Some sc -> closed sc = true ->
  run_all (repeat (CallScratchClose s) k) w = Ret tt w.
Proof.
  intros Hs Hc. induction k as [|k IH]; simpl; [reflexivity|].
  unfold bind at 1. unfold bind at 1.
  rewrite (Scratch_Close_closed _ _ _ Hs Hc). simpl. exact IH.
Qed.

(** C1: once a Close of a scratch has returned, a Close of the same scratch
    returns nil and leaves the world as it is, the counts included, also
    after any number of repetitions and after any other calls in between;
    over the first Close and all that follow it the count of the range goes
    down by one in all if the scratch was open, and not at all if it was
    closed already. *)
Theorem Scratch_Close_idempotent :
  (forall w s res w1,
     Scratch_Close s w = Ret res w1 ->
     Scratch_Close s w1 = Ret None w1 /\
     (forall k, run_all (repeat (CallScratchClose s) k) w1 = Ret tt w1) /\
     (forall cs w2, run_all cs w1 = Ret tt w2 ->
        Scratch_Close s w2 = Ret None w2)) /\
  (forall w s sc res w1,
     reachable w ->
     scratches w !! s = Some sc ->
     Scratch_Close s w = Ret res w1 ->
     forall k w2,
       run_all (repeat (CallScratchClose s) k) w1 = Ret tt w2 ->
       refcount (rangeRefCount (storage w2)) (rangeID sc) =
         (refcount (rangeRefCount (storage w)) (rangeID sc)
          - (if closed sc then 0 else 1))%Z).
Proof.
  split.
  - intros w s res w1 Hrun.
    destruct (Scratch_Close_sets_closed _ _ _ _ Hrun) as (sc1 & Hs1 & Hc1).
    split; [eapply Scratch_Close_closed; eauto|]. split.
    + intros k. eapply run_all_Close_closed; eauto.
    + intros cs w2 Hcs. apply run_all_extends in Hcs.
      destruct (ext_scratches _ _ Hcs _ _ Hs1) as (sc2 & Hs2 & Hg).
      destruct Hg as (_ & _ & Hcl & _).
      eapply Scratch_Close_closed; eauto.
  - intros w s sc0 res w1 Hreach Hs Hrun k w2 Hk.
    destruct (Scratch_Close_sets_closed _ _ _ _ Hrun) as (sc1 & Hs1 & Hc1).
    rewrite (run_all_Close_closed _ _ _ k Hs1 Hc1) in Hk. injection Hk as <-.
    destruct (closed sc0) eqn:Hcl.
    + rewrite (Scratch_Close_closed _ _ _ Hs Hcl) in Hrun.
      injection Hrun as _ <-. lia.
    + destruct (Scratch_Close_open _ _ _ (reachable_consistent _ Hreach) Hs Hcl)
        as (Hn & w' & Hrun' & _ & _ & _ & _ & Hm & _).
      rewrite Hrun' in Hrun. injection Hrun as _ <-. rewrite Hm.
      destruct (Z.eqb_spec (refcount (rangeRefCount (storage w)) (rangeID sc0)) 1)
        as [H1|H1].
      * unfold refcount at 1. rewrite lookup_delete_eq. simpl. lia.
      * unfold refcount at 1. rewrite lookup_insert_eq. reflexivity.
Qed.

(** C2: the first Close of an open scratch returns, and what it returns is
    the error of removing the scratch's directory, nil when there was none.
    Whatever that error, the scratch is marked closed, the engine has gone
    through RemoveAll of the scratch's directory, and the count of the range
    is one less: the entry is rewritten, or dropped together with the
    range's directory when the count was one. *)
Theorem Scratch_Close_first_call w s sc :
  reachable w ->
  scratches w !! s = Some sc ->
  closed sc = false ->
  let r := rangeID sc in
  let n := refcount (rangeRefCount (storage w)) r in
  let rm := RemoveAll X (snapDir sc) (engine (storage w)) in
  exists w',
    Scratch_Close s w = Ret (lift_err (fst rm)) w' /\
    scratches w' = <[s := with_closed sc true]> (scratches w) /\
    files w' = files w /\
    (1 <= n)%Z /\
    refcount (rangeRefCount (storage w')) r = (n - 1)%Z /\
    rangeRefCount (storage w') =
      (if (n =? 1)%Z then delete r (rangeRefCount (storage w))
       else <[r := (n - 1)%Z]> (rangeRefCount (storage w))) /\
    engine (storage w') =
      (if (n =? 1)%Z
       then snd (RemoveAll X (Join [dir (storage w); Itoa r]) (snd rm))
       else snd rm).
Proof.
  intros Hreach Hs Hcl r n rm.
  destruct (Scratch_Close_open _ _ _ (reachable_consistent _ Hreach) Hs Hcl)
    as (Hn & w' & Hrun & Hsc & Hfl & _ & _ & Hm & He).
  exists w'. repeat split; try assumption.
  rewrite Hm. fold r n.
  destruct (Z.eqb_spec n 1) as [H1|H1].
  - unfold refcount at 1. rewrite lookup_delete_eq. simpl. lia.
  - unfold refcount at 1. rewrite lookup_insert_eq. reflexivity.
Qed.

(** C4: in every world the interface reaches, each entry of the count map is
    at least one.  NewScratchSpace puts a missing entry at one and keeps
    the entries positive as long as the count has room to grow;
    scratchClosed drops the entry that falls to zero and keeps the others
    positive. *)
Theorem refcount_entries_positive :
  (forall w, reachable w -> refs_positive (rangeRefCount (storage w))) /\
  (forall w r (u : UUID X),
     rangeRefCount (storage w) !! r = None ->
     exists s w', NewScratchSpace r u w = Ret s w' /\
                  rangeRefCount (storage w') !! r = Some 1%Z) /\
  (forall w r,
     rangeRefCount (storage w) !! r = Some 1%Z ->
     exists w', scratchClosed r w = Ret tt w' /\
                rangeRefCount (storage w') !! r = None) /\
  (forall w r (u : UUID X) s w',
     refs_positive (rangeRefCount (storage w)) ->
     (refcount (rangeRefCount (storage w)) r < max_int)%Z ->
     NewScratchSpace r u w = Ret s w' ->
     refs_positive (rangeRefCount (storage w'))) /\
  (forall w r w',
     refs_positive (rangeRefCount (storage w)) ->
     refs_in_range (rangeRefCount (storage w)) ->
     scratchClosed r w = Ret tt w' ->
     refs_positive (rangeRefCount (storage w'))).
Proof.
  split; [|split; [|split; [|split]]].
  - intros w Hreach r v Hv.
    rewrite (counts_ok _ (reachable_consistent _ Hreach)) in Hv.
    apply count_entry_some in Hv. lia.
  - intros w r u Hnone. rewrite NewScratchSpace_eq.
    eexists _, _. split; [reflexivity|]. simpl.
    rewrite lookup_insert_eq. unfold refcount. rewrite Hnone. reflexivity.
  - intros w r Hone. rewrite scratchClosed_eq. cbv zeta.
    unfold refcount. rewrite Hone. simpl.
    eexists. split; [reflexivity|]. simpl. apply lookup_delete_eq.
  - intros w r u s w' Hpos Hlt Hrun. rewrite NewScratchSpace_eq in Hrun.
    injection Hrun as _ <-. simpl. intros r0 v Hv.
    destruct (decide (r = r0)) as [<-|Hne].
    + rewrite lookup_insert_eq in Hv. injection Hv as <-.
      assert (0 <= refcount (rangeRefCount (storage w)) r)%Z.
      { unfold refcount. destruct (rangeRefCount (storage w) !! r) eqn:E; simpl;
          [apply Hpos in E|]; lia. }
      rewrite wrap_int_id by (unfold min_int, max_int in *; lia). lia.
    + rewrite lookup_insert_ne in Hv by exact Hne. eapply Hpos; eauto.
  - intros w r w' Hpos Hrange Hrun. rewrite scratchClosed_eq in Hrun.
    cbv zeta in Hrun.
    destruct (Z.leb_spec (refcount (rangeRefCount (storage w)) r) 0)
      as [|Hgt]; [discriminate|].
    assert (Hv : rangeRefCount (storage w) !! r
                 = Some (refcount (rangeRefCount (storage w)) r)).
    { unfold refcount in *. destruct (rangeRefCount (storage w) !! r); simpl in *;
        [reflexivity|lia]. }
    apply Hrange in Hv.
    rewrite wrap_int_id in Hrun by (unfold min_int, max_int in *; lia).
    destruct (Z.eqb_spec (refcount (rangeRefCount (storage w)) r - 1) 0) as [H0|H0];
      injection Hrun as <-; simpl; intros r0 v Hv0.
    + apply lookup_delete_Some in Hv0 as [Hne Hv0].
      rewrite lookup_insert_ne in Hv0 by exact Hne. eapply Hpos; eauto.
    + destruct (decide (r = r0)) as [<-|Hne].
      * rewrite lookup_insert_eq in Hv0. injection Hv0 as <-. lia.
      * rewrite lookup_insert_ne in Hv0 by exact Hne. eapply Hpos; eauto.
Qed.

Lemma reachable_dir w :
  reachable w ->
  exists e : Engine X, dir (storage w) = Join [GetAuxiliaryDir X e; "sstsnapshot"].
Proof.
  induction 1 as [e l|w w' c _ [e He] _ Hrun].
  - exists e. reflexivity.
  - exists e. rewrite (ext_dir _ _ (run_extends _ _ _ Hrun)). exact He.
Qed.

(** With an ordinary name for the snapshot, the directory of a scratch and
    the names of its files are the root, the range, the snapshot and the
    file, written one after the other with separators. *)
Lemma scratch_paths_literal w (sc : SSTSnapshotStorageScratch) (u : string) :
  reachable w ->
  snapDir sc = Join [dir (storage w); Itoa (rangeID sc); u] ->
  plain u = true ->
  snapDir sc = (dir (storage w) ++ "/" ++ Itoa (rangeID sc) ++ "/" ++ u)%string /\
  forall i, Scratch_filename sc i = (snapDir sc ++ "/" ++ Itoa i ++ ".sst")%string.
Proof.
  intros Hreach Hd Hu.
  destruct (reachable_dir _ Hreach) as [e He].
  destruct (storage_dir_form (GetAuxiliaryDir X e)) as (root & out & Hr & Hok & Hne).
  rewrite <- He in Hr.
  destruct (Join_push2 root out (Itoa (rangeID sc)) u Hok Hne (Itoa_plain _) Hu)
    as [E1 E2].
  rewrite <- Hr in E1, E2. rewrite <- Hd in E1, E2.
  split; [exact E2|].
  intros i. unfold Scratch_filename. rewrite E1.
  apply (Join_push root (u :: Itoa (rangeID sc) :: out)).
  - apply stack_ok_push; [exact Hu|].
    apply stack_ok_push; [apply Itoa_plain|exact Hok].
  - discriminate.
  - apply Sprintf_d_sst_plain.
Qed.

(** *** File names *)

(** C6: in every world the interface reaches, whatever became of the files,
    the names SSTs returns for a scratch are, in order, the files numbered
    0, 1, ... of the scratch's directory, and that directory is the one of
    the range and snapshot under the root.  NewFile on an open scratch
    succeeds, names its file with the next number, the count of names so
    far, and appends that name to what SSTs returns.  No call removes or
    moves a name, and the names of a scratch are pairwise distinct, so a
    number is not handed out twice.  When the snapshot's identifier is an
    ordinary name, the paths read root/range/snapshot/number.sst. *)
Theorem NewFile_names_sequential :
  (forall w s sc,
     reachable w ->
     scratches w !! s = Some sc ->
     (exists u : UUID X,
        snapDir sc = Join [dir (storage w); Itoa (rangeID sc); UUID_String X u]) /\
     Scratch_SSTs s w =
       Ret (map (fun i => Join [snapDir sc; (Itoa (Z.of_nat i) ++ ".sst")%string])
                (seq 0 (length (ssts sc)))) w) /\
  (forall w s sc (c : Ctx X) bps,
     scratches w !! s = Some sc ->
     closed sc = false ->
     let name := Join [snapDir sc; (Itoa (Z.of_nat (length (ssts sc))) ++ ".sst")%string] in
     exists w',
       Scratch_NewFile s c bps w = Ret (Some (length (files w)), None) w' /\
       files w' !! length (files w) =
         Some {| scratch := s; created := false; file := None;
                 filename := name; ctx := c; bytesPerSync := bps |} /\
       Scratch_SSTs s w' = Ret (ssts sc ++ [name])%list w') /\
  (forall w s sc cs w',
     scratches w !! s = Some sc ->
     run_all cs w = Ret tt w' ->
     exists more, Scratch_SSTs s w' = Ret (ssts sc ++ more)%list w') /\
  (forall w s sc,
     reachable w ->
     scratches w !! s = Some sc ->
     NoDup (ssts sc)) /\
  (forall w s sc (u : UUID X),
     reachable w ->
     scratches w !! s = Some sc ->
     snapDir sc = Join [dir (storage w); Itoa (rangeID sc); UUID_String X u] ->
     plain (UUID_String X u) = true ->
     let d := (dir (storage w) ++ "/" ++ Itoa (rangeID sc) ++ "/"
               ++ UUID_String X u)%string in
     snapDir sc = d /\
     Scratch_SSTs s w =
       Ret (map (fun i => (d ++ "/" ++ Itoa (Z.of_nat i) ++ ".sst")%string)
                (seq 0 (length (ssts sc)))) w).
Proof.
  split; [|split; [|split; [|split]]].
  - intros w s sc0 Hreach Hs.
    destruct (scratches_ok _ (reachable_consistent _ Hreach) _ _ Hs) as [Hn Hu].
    split; [exact Hu|].
    rewrite (Scratch_SSTs_eq _ _ _ Hs). rewrite Hn at 1. reflexivity.
  - intros w s sc0 c bps Hs Hcl name.
    assert (Hlt : (s < length (scratches w))%nat) by (eapply lookup_lt_Some; eauto).
    rewrite (Scratch_NewFile_eq _ _ _ _ _ Hs), Hcl. cbv zeta.
    eexists. split; [reflexivity|]. split.
    + simpl. rewrite lookup_app_r by lia. rewrite Nat.sub_diag. reflexivity.
    + rewrite (Scratch_SSTs_eq _ s (with_ssts sc0 (ssts sc0 ++ [name])));
        [reflexivity|].
      simpl. apply list_lookup_insert_eq. exact Hlt.
  - intros w s sc0 cs w' Hs Hrun.
    apply run_all_extends in Hrun.
    destruct (ext_scratches _ _ Hrun _ _ Hs) as (sc1 & Hs1 & Hg).
    destruct Hg as (_ & _ & _ & _ & more & Hm).
    exists more. rewrite (Scratch_SSTs_eq _ _ _ Hs1), Hm. reflexivity.
  - intros w s sc0 Hreach Hs.
    destruct (scratches_ok _ (reachable_consistent _ Hreach) _ _ Hs) as [Hn _].
    rewrite Hn. apply sst_names_NoDup.
  - intros w s sc0 u Hreach Hs Hd Hu d.
    destruct (scratches_ok _ (reachable_consistent _ Hreach) _ _ Hs) as [Hn _].
    destruct (scratch_paths_literal w sc0 _ Hreach Hd Hu) as [E1 E2].
    split; [exact E1|].
    rewrite (Scratch_SSTs_eq _ _ _ Hs). rewrite Hn at 1. unfold sst_names.
    f_equal. apply map_ext. intros i. rewrite E2. subst d. rewrite <- E1.
    reflexivity.
Qed.

(** *** A write through a file of a closed scratch *)


Lemma reachable_run_checked (cs : list Call) w w' :
  reachable w -> run_checked cs w = Some w' -> reachable w'.
Proof.
  revert w. induction cs as [|c cs IH]; intros w Hreach Hrun; simpl in Hrun.
  - injection Hrun as <-. exact Hreach.
  - destruct (Z.ltb_spec (Z.of_nat (length (scratches w))) max_int) as [Hb|];
      [|discriminate].
    destruct (run c w) as [[] w1|] eqn:Hc; [|discriminate].
    apply (IH w1); [|exact Hrun].
    eapply reachable_call; eauto.
Qed.

(** *** What the file operations leave alone *)

Lemma same_scratch_refl (sc : SSTSnapshotStorageScratch) : same_scratch sc sc.
Proof. repeat split; auto. Qed.

Lemma same_scratch_trans (a b c : SSTSnapshotStorageScratch) :
  same_scratch a b -> same_scratch b c -> same_scratch a c.
Proof.
  intros (R1 & N1 & D1 & C1 & DC1) (R2 & N2 & D2 & C2 & DC2).
  repeat split; try congruence; auto.
Qed.

Lemma file_frame_refl w : file_frame w w.
Proof.
  split; try reflexivity.
  - intros s sc Hs. exists sc. split; [exact Hs|apply same_scratch_refl].
  - intros f fl Hf. exists fl. split; [exact Hf|]. split; [apply file_grows_refl|auto].
Qed.

Lemma file_frame_trans w1 w2 w3 :
  file_frame w1 w2 -> file_frame w2 w3 -> file_frame w1 w3.
Proof.
  intros [D1 C1 LS1 LF1 S1 F1] [D2 C2 LS2 LF2 S2 F2].
  split; try congruence.
  - intros s sc Hs. destruct (S1 _ _ Hs) as (sc2 & Hs2 & G1).
    destruct (S2 _ _ Hs2) as (sc3 & Hs3 & G2).
    exists sc3. split; [exact Hs3|]. eapply same_scratch_trans; eauto.
  - intros f fl Hf. destruct (F1 _ _ Hf) as (fl2 & Hf2 & G1 & K1).
    destruct (F2 _ _ Hf2) as (fl3 & Hf3 & G2 & K2).
    exists fl3. split; [exact Hf3|]. split; [eapply file_grows_trans; eauto|].
    intros Hc Hn. specialize (K1 Hc Hn). subst fl2. auto.
Qed.

Lemma file_frame_same w w' :
  dir (storage w') = dir (storage w) ->
  rangeRefCount (storage w') = rangeRefCount (storage w) ->
  scratches w' = scratches w ->
  files w' = files w ->
  file_frame w w'.
Proof.
  intros Hd Hc Hs Hf. split; try congruence.
  - intros s sc H. exists sc. rewrite Hs. split; [exact H|apply same_scratch_refl].
  - intros f fl H. exists fl. rewrite Hf.
    split; [exact H|]. split; [apply file_grows_refl|auto].
Qed.

Lemma file_frame_set_scratch w s sc sc' :
  scratches w !! s = Some sc -> same_scratch sc sc' ->
  file_frame w (with_scratches w (<[s := sc']> (scratches w))).
Proof.
  intros Hs Hg.
  assert (Hlt : (s < length (scratches w))%nat) by (eapply lookup_lt_Some; eauto).
  split; simpl; try reflexivity.
  - apply length_insert.
  - intros s0 sc0 Hs0. destruct (decide (s = s0)) as [<-|Hne].
    + rewrite list_lookup_insert_eq by exact Hlt. exists sc'.
      split; [reflexivity|]. congruence.
    + rewrite list_lookup_insert_ne by exact Hne. exists sc0.
      split; [exact Hs0|apply same_scratch_refl].
  - intros f fl Hf. exists fl.
    split; [exact Hf|]. split; [apply file_grows_refl|auto].
Qed.

Lemma file_frame_set_file w f fl fl' :
  files w !! f = Some fl -> file_grows fl fl' ->
  (created fl = true -> file fl = None -> fl' = fl) ->
  file_frame w (with_files w (<[f := fl']> (files w))).
Proof.
  intros Hf Hg Hk.
  assert (Hlt : (f < length (files w))%nat) by (eapply lookup_lt_Some; eauto).
  split; simpl; try reflexivity.
  - apply length_insert.
  - intros s sc Hs. exists sc. split; [exact Hs|apply same_scratch_refl].
  - intros f0 fl0 Hf0. destruct (decide (f = f0)) as [<-|Hne].
    + rewrite list_lookup_insert_eq by exact Hlt. exists fl'.
      rewrite Hf in Hf0. injection Hf0 as <-.
      split; [reflexivity|]. split; [exact Hg|exact Hk].
    + rewrite list_lookup_insert_ne by exact Hne. exists fl0.
      split; [exact Hf0|]. split; [apply file_grows_refl|auto].
Qed.

Lemma File_ensureFile_frame_all w f res w1 :
  File_ensureFile f w = Ret res w1 -> file_frame w w1.
Proof.
  intros Hrun.
  destruct (files w !! f) as [fl|] eqn:Hf.
  2: { unfold File_ensureFile, bind, get_file in Hrun. rewrite Hf in Hrun.
       discriminate. }
  destruct (created fl) eqn:Hcre.
  { rewrite (File_ensureFile_created _ _ _ Hf Hcre) in Hrun.
    destruct (is_nil (file fl)); injection Hrun as _ <-; apply file_frame_refl. }
  destruct (scratches w !! scratch fl) as [sc|] eqn:Hs.
  2: { rewrite (File_ensureFile_nil_scratch _ _ _ Hf Hs Hcre) in Hrun.
       discriminate. }
  rewrite (File_ensureFile_eq _ _ _ _ Hf Hs), Hcre in Hrun.
  cbv zeta in Hrun.
  set (mk := MkdirAll X (snapDir sc) (engine (storage w))) in *.
  set (w0 := if dirCreated sc then w
             else with_scratches (with_engine w (snd mk))
                    (<[scratch fl := with_dirCreated sc (is_nil (fst mk))]> (scratches w)))
    in *.
  assert (He0 : file_frame w w0).
  { subst w0. destruct (dirCreated sc) eqn:Hd; [apply file_frame_refl|].
    apply (file_frame_trans _ (with_engine w (snd mk)));
      [apply file_frame_same; reflexivity|].
    apply (file_frame_set_scratch (with_engine w (snd mk)) _ sc); [exact Hs|].
    repeat split; simpl; auto. congruence. }
  assert (Hf0 : files w0 = files w).
  { subst w0. destruct (dirCreated sc); reflexivity. }
  clearbody w0 mk.
  destruct (if dirCreated sc then None else fst mk) as [e|].
  { injection Hrun as _ <-. exact He0. }
  destruct (closed sc).
  { injection Hrun as _ <-. exact He0. }
  set (cr := if (bytesPerSync fl >? 0)%Z
             then CreateWithSync X (filename fl) (bytesPerSync fl) (engine (storage w0))
             else Create X (filename fl) (engine (storage w0))) in *.
  clearbody cr. rewrite <- Hf0 in Hrun, Hf.
  apply (file_frame_trans _ w0); [exact He0|].
  apply (file_frame_trans _ (with_engine w0 (snd cr)));
    [apply file_frame_same; reflexivity|].
  destruct (snd (fst cr)); injection Hrun as _ <-;
    apply (file_frame_set_file (with_engine w0 (snd cr)) f fl); try exact Hf;
    try (repeat split; simpl; congruence); congruence.
Qed.

Lemma File_Write_frame_all w f contents res w1 :
  File_Write f contents w = Ret res w1 -> file_frame w w1.
Proof.
  intros Hrun.
  destruct (decide (contents = [])) as [->|Hne].
  { unfold File_Write in Hrun. simpl in Hrun. injection Hrun as _ <-.
    apply file_frame_refl. }
  rewrite (File_Write_eq _ _ _ Hne) in Hrun.
  destruct (File_ensureFile f w) as [[e|] w0|] eqn:Hens; [| |discriminate].
  - injection Hrun as _ <-. eapply File_ensureFile_frame_all; eauto.
  - pose proof (File_ensureFile_frame_all _ _ _ _ Hens) as He0.
    destruct (files w0 !! f) as [fl1|]; [|discriminate].
    cbv zeta in Hrun.
    destruct (fst (limitBulkIOWrite X (ctx fl1) (limiter (storage w0))
                     (Z.of_nat (length contents)))).
    + injection Hrun as _ <-.
      apply (file_frame_trans _ w0); [exact He0|apply file_frame_same; reflexivity].
    + destruct (file fl1); [|discriminate].
      injection Hrun as _ <-.
      apply (file_frame_trans _ w0); [exact He0|apply file_frame_same; reflexivity].
Qed.

Lemma File_Close_frame_all w f res w1 :
  File_Close f w = Ret res w1 -> file_frame w w1.
Proof.
  intros Hrun.
  destruct (files w !! f) as [fl|] eqn:Hf.
  2: { unfold File_Close, bind, get_file in Hrun. rewrite Hf in Hrun.
       discriminate. }
  rewrite (File_Close_eq _ _ _ Hf) in Hrun.
  destruct (created fl) eqn:Hcre; simpl in Hrun.
  2: { injection Hrun as _ <-. apply file_frame_refl. }
  destruct (file fl) as [h|] eqn:Hh.
  2: { injection Hrun as _ <-. apply file_frame_refl. }
  destruct (fst (FileClose X h (engine (storage w)))); injection Hrun as _ <-.
  - apply file_frame_same; reflexivity.
  - apply (file_frame_trans _ (with_engine w (snd (FileClose X h (engine (storage w))))));
      [apply file_frame_same; reflexivity|].
    apply (file_frame_set_file (with_engine w _) f fl); [exact Hf| |congruence].
    repeat split; simpl; congruence.
Qed.

Lemma File_Sync_frame_all w f res w1 :
  File_Sync f w = Ret res w1 -> file_frame w w1.
Proof.
  intros Hrun.
  destruct (files w !! f) as [fl|] eqn:Hf.
  2: { unfold File_Sync, bind, get_file in Hrun. rewrite Hf in Hrun.
       discriminate. }
  rewrite (File_Sync_eq _ _ _ Hf) in Hrun.
  destruct (file fl); [|discriminate].
  injection Hrun as _ <-. apply file_frame_same; reflexivity.
Qed.

(** *** What is final *)

Lemma settled_refl w : settled w w.
Proof.
  split.
  - intros s sc Hs Hc. exists sc. auto.
  - intros f fl Hf _ _. exact Hf.
Qed.

Lemma settled_trans w1 w2 w3 : settled w1 w2 -> settled w2 w3 -> settled w1 w3.
Proof.
  intros [S1 F1] [S2 F2]. split.
  - intros s sc Hs Hc. destruct (S1 _ _ Hs Hc) as (sc2 & Hs2 & Hc2 & Hn2).
    destruct (S2 _ _ Hs2 Hc2) as (sc3 & Hs3 & Hc3 & Hn3).
    exists sc3. repeat split; congruence.
  - intros f fl Hf Hc Hn. apply F2; auto.
Qed.

Lemma file_frame_settled w w' : file_frame w w' -> settled w w'.
Proof.
  intros Hfr. split.
  - intros s sc Hs Hc. destruct (frame_scratches _ _ Hfr _ _ Hs) as (sc' & Hs' & G).
    destruct G as (_ & Hn & _ & Hcl & _).
    exists sc'. repeat split; congruence.
  - intros f fl Hf Hc Hn.
    destruct (frame_files _ _ Hfr _ _ Hf) as (fl' & Hf' & _ & K).
    rewrite (K Hc Hn) in Hf'. exact Hf'.
Qed.

Lemma settled_same w w' :
  scratches w' = scratches w -> files w' = files w -> settled w w'.
Proof.
  intros Hs Hf. split.
  - intros s sc H Hc. exists sc. rewrite Hs. auto.
  - intros f fl H _ _. rewrite Hf. exact H.
Qed.

Lemma Scratch_NewFile_closed w s sc (c : Ctx X) (bps : Z) :
  scratches w !! s = Some sc -> closed sc = true ->
  Scratch_NewFile s c bps w
    = Ret (None, Some (AssertionFailedf scratch_closed_msg)) w.
Proof.
  intros Hs Hc. rewrite (Scratch_NewFile_eq _ _ _ _ _ Hs), Hc. reflexivity.
Qed.

Lemma Scratch_WriteSST_closed w s sc (c : Ctx X) data :
  scratches w !! s = Some sc -> closed sc = true ->
  Scratch_WriteSST s c data w
    = Ret (Some (AssertionFailedf scratch_closed_msg)) w.
Proof.
  intros Hs Hc. unfold Scratch_WriteSST, bind, get_scratch, ret.
  rewrite Hs, Hc. reflexivity.
Qed.

Lemma Scratch_NewFile_settled w s (c : Ctx X) bps res w1 :
  Scratch_NewFile s c bps w = Ret res w1 -> settled w w1.
Proof.
  intros Hrun.
  destruct (scratches w !! s) as [sc0|] eqn:Hs.
  2: { unfold Scratch_NewFile, bind, get_scratch in Hrun. rewrite Hs in Hrun.
       discriminate. }
  rewrite (Scratch_NewFile_eq _ _ _ _ _ Hs) in Hrun.
  destruct (closed sc0) eqn:Hcl; injection Hrun as _ <-; [apply settled_refl|].
  split; simpl.
  - intros s0 sc1 Hs0 Hc0. exists sc1.
    destruct (decide (s = s0)) as [<-|Hne]; [congruence|].
    rewrite list_lookup_insert_ne by exact Hne. auto.
  - intros f fl Hf _ _. apply lookup_app_l_Some. exact Hf.
Qed.

Lemma Scratch_Close_settled w s res w1 :
  Scratch_Close s w = Ret res w1 -> settled w w1.
Proof.
  intros Hrun.
  destruct (scratches w !! s) as [sc0|] eqn:Hs.
  2: { unfold Scratch_Close, bind, get_scratch in Hrun. rewrite Hs in Hrun.
       discriminate. }
  rewrite (Scratch_Close_eq _ _ _ Hs) in Hrun.
  destruct (closed sc0) eqn:Hcl.
  { injection Hrun as _ <-. apply settled_refl. }
  cbv zeta in Hrun.
  destruct (scratchClosed _ _) as [a w2|] eqn:Hsc in Hrun; [|discriminate].
  injection Hrun as _ <-.
  destruct (scratchClosed_scratches _ _ _ _ Hsc) as (S2 & F2 & _).
  split.
  - intros s0 sc1 Hs0 Hc0. rewrite S2. simpl. exists sc1.
    destruct (decide (s = s0)) as [<-|Hne]; [congruence|].
    rewrite list_lookup_insert_ne by exact Hne. auto.
  - intros f fl Hf _ _. rewrite F2. exact Hf.
Qed.

Lemma Scratch_WriteSST_settled w s (c : Ctx X) data res w1 :
  Scratch_WriteSST s c data w = Ret res w1 -> settled w w1.
Proof.
  apply (Scratch_WriteSST_steps settled).
  - apply settled_refl.
  - apply settled_trans.
  - apply Scratch_NewFile_settled.
  - intros; eapply file_frame_settled, File_Write_frame_all; eauto.
  - intros; eapply file_frame_settled, File_Sync_frame_all; eauto.
  - intros; eapply file_frame_settled, File_Close_frame_all; eauto.
Qed.

Lemma run_settled (c : Call) w w1 :
  run c w = Ret tt w1 -> settled w w1.
Proof.
  intros Hrun. destruct c; simpl in Hrun;
    apply bind_Ret in Hrun as (a & w0 & Hop & Hret);
    injection Hret as <-.
  - rewrite NewScratchSpace_eq in Hop. injection Hop as _ <-.
    split; simpl.
    + intros s0 sc1 Hs0 Hc0. exists sc1.
      split; [apply lookup_app_l_Some; exact Hs0|auto].
    + auto.
  - rewrite Clear_eq in Hop. injection Hop as _ <-.
    apply settled_same; reflexivity.
  - eapply Scratch_NewFile_settled; eauto.
  - eapply Scratch_WriteSST_settled; eauto.
  - apply Scratch_SSTs_world in Hop. subst w0. apply settled_refl.
  - eapply Scratch_Close_settled; eauto.
  - eapply file_frame_settled, File_Write_frame_all; eauto.
  - eapply file_frame_settled, File_Close_frame_all; eauto.
  - eapply file_frame_settled, File_Sync_frame_all; eauto.
Qed.

Lemma run_all_settled (cs : list Call) w w1 :
  run_all cs w = Ret tt w1 -> settled w w1.
Proof.
  revert w. induction cs as [|c cs IH]; intros w Hrun; simpl in Hrun.
  - injection Hrun as <-. apply settled_refl.
  - apply bind_Ret in Hrun as ([] & w0 & Hc & Hrest).
    eapply settled_trans; [eapply run_settled; eauto|]. apply IH. exact Hrest.
Qed.

(** X1: the operations on files do not reach beyond the files: across Write,
    Sync and Close of a file the counts, the root, the number of scratches
    and of files stay, no scratch changes its range, names, directory or
    closed flag, and no file changes its scratch, name, context or sync
    threshold. *)
Theorem file_operations_frame w f :
  (forall contents res w1, File_Write f contents w = Ret res w1 -> file_frame w w1) /\
  (forall res w1, File_Sync f w = Ret res w1 -> file_frame w w1) /\
  (forall res w1, File_Close f w = Ret res w1 -> file_frame w w1).
Proof.
  split; [|split]; intros.
  - eapply File_Write_frame_all; eauto.
  - eapply File_Sync_frame_all; eauto.
  - eapply File_Close_frame_all; eauto.
Qed.

(** X2: a closed scratch is final: whatever is called afterwards, it stays
    closed, SSTs returns the names it had, and NewFile and WriteSST on it
    return the closed-scratch error and change nothing. *)
Theorem closed_scratch_is_final w s sc (cs : list Call) w' :
  scratches w !! s = Some sc ->
  closed sc = true ->
  run_all cs w = Ret tt w' ->
  Scratch_SSTs s w' = Ret (ssts sc) w' /\
  Scratch_Close s w' = Ret None w' /\
  (forall (c : Ctx X) bps,
     Scratch_NewFile s c bps w'
       = Ret (None, Some (AssertionFailedf scratch_closed_msg)) w') /\
  (forall (c : Ctx X) data,
     Scratch_WriteSST s c data w'
       = Ret (Some (AssertionFailedf scratch_closed_msg)) w').
Proof.
  intros Hs Hc Hrun. apply run_all_settled in Hrun.
  destruct (settled_scratches _ _ Hrun _ _ Hs Hc) as (sc' & Hs' & Hc' & Hn').
  split; [rewrite (Scratch_SSTs_eq _ _ _ Hs'), Hn'; reflexivity|].
  split; [exact (Scratch_Close_closed _ _ _ Hs' Hc')|].
  split; intros.
  - exact (Scratch_NewFile_closed _ _ _ _ _ Hs' Hc').
  - exact (Scratch_WriteSST_closed _ _ _ _ _ Hs' Hc').
Qed.

(** X3: a file does not reopen: after a Close of the file that returned nil,
    whatever is called afterwards, a Write with data returns the
    already-closed error and changes nothing, a further Close returns nil,
    and the file object is as the Close left it. *)
Theorem closed_file_is_final w0 f w (cs : list Call) w' :
  File_Close f w0 = Ret None w ->
  run_all cs w = Ret tt w' ->
  files w' !! f = files w !! f /\
  File_Close f w' = Ret None w' /\
  forall contents, contents <> [] ->
    File_Write f contents w'
      = Ret (0%Z, Some (Errorf "file has already been closed")) w'.
Proof.
  intros Hclose Hrun.
  assert (Hfl : exists fl, files w !! f = Some fl /\ created fl = true /\ file fl = None).
  { destruct (files w0 !! f) as [fl0|] eqn:Hf0.
    2: { unfold File_Close, bind, get_file in Hclose. rewrite Hf0 in Hclose.
         discriminate. }
    rewrite (File_Close_eq _ _ _ Hf0) in Hclose.
    destruct (created fl0) eqn:Hcre; simpl in Hclose; [|discriminate].
    destruct (file fl0) as [h|] eqn:Hh.
    - destruct (fst (FileClose X h (engine (storage w0)))); [discriminate|].
      injection Hclose as <-. exists (with_file fl0 None). simpl.
      split; [apply list_lookup_insert_eq; eapply lookup_lt_Some; eauto|].
      split; [exact Hcre|reflexivity].
    - injection Hclose as <-. exists fl0. auto. }
  destruct Hfl as (fl & Hf & Hcre & Hn).
  apply run_all_settled in Hrun.
  pose proof (settled_files _ _ Hrun _ _ Hf Hcre Hn) as Hf'.
  split; [congruence|]. split.
  - rewrite (File_Close_eq _ _ _ Hf'), Hcre, Hn. reflexivity.
  - intros contents Hne.
    rewrite (File_Write_eq _ _ _ Hne), (File_ensureFile_created _ _ _ Hf' Hcre), Hn.
    reflexivity.
Qed.

(** *** Counts and open scratches *)

(** X4: the count of a range is the number of its scratches that are open: in
    every world the interface reaches, the entry of a range holds that
    number, and there is no entry exactly when the range has no open
    scratch. *)
Theorem refcount_counts_open_scratches w (r : Z) :
  reachable w ->
  refcount (rangeRefCount (storage w)) r = Z.of_nat (open_count (scratches w) r) /\
  (rangeRefCount (storage w) !! r = None <-> open_count (scratches w) r = 0%nat).
Proof.
  intros Hreach.
  pose proof (counts_ok _ (reachable_consistent _ Hreach) r) as Hc.
  split; [apply refcount_count_entry; exact Hc|].
  rewrite Hc. destruct (open_count (scratches w) r); simpl; split;
    congruence.
Qed.

(** X5: the directory of a range goes with its last open scratch: the Close of
    an open scratch returns; it removes the directory of the range, after
    the scratch's own, exactly when no other scratch of the range is open,
    and afterwards the range has one open scratch less. *)
Theorem Scratch_Close_last_removes_range w s sc :
  reachable w ->
  scratches w !! s = Some sc ->
  closed sc = false ->
  let n := open_count (scratches w) (rangeID sc) in
  let rm := RemoveAll X (snapDir sc) (engine (storage w)) in
  exists res w',
    Scratch_Close s w = Ret res w' /\
    (1 <= n)%nat /\
    open_count (scratches w') (rangeID sc) = (n - 1)%nat /\
    engine (storage w') =
      (if (n =? 1)%nat
       then snd (RemoveAll X (Join [dir (storage w); Itoa (rangeID sc)]) (snd rm))
       else snd rm).
Proof.
  intros Hreach Hs Hcl n rm.
  pose proof (reachable_consistent _ Hreach) as Hc.
  destruct (Scratch_Close_open _ _ _ Hc Hs Hcl)
    as (Hn & w' & Hrun & Hsc & _ & _ & _ & _ & He).
  pose proof (refcount_count_entry _ _ _ (counts_ok _ Hc (rangeID sc))) as Hrc.
  fold n in Hrc. rewrite Hrc in He, Hn.
  eexists _, w'. split; [exact Hrun|]. split; [lia|]. split.
  - rewrite Hsc.
    pose proof (open_count_insert (scratches w) s sc (with_closed sc true)
                  (rangeID sc) Hs) as Hins.
    unfold is_open in Hins. simpl in Hins. rewrite Hcl, Z.eqb_refl in Hins.
    simpl in Hins. fold n in Hins. lia.
  - rewrite He. fold rm.
    destruct (Z.eqb_spec (Z.of_nat n) 1), (Nat.eqb_spec n 1); try lia; reflexivity.
Qed.

(** *** Panics *)

Lemma only_nil_ret {A : Type} (a : A) : only_nil_panics (X := X) (ret a).
Proof. intros w msg w' H. discriminate. Qed.

Lemma only_nil_bind {A B : Type} (m : M X A) (k : A -> M X B) :
  only_nil_panics m -> (forall a, only_nil_panics (k a)) ->
  only_nil_panics (bind m k).
Proof.
  intros Hm Hk w msg w' H. unfold bind in H.
  destruct (m w) as [a w1|msg1 w1] eqn:E.
  - eapply Hk; eauto.
  - injection H as <- <-. eapply Hm; eauto.
Qed.

Lemma only_nil_defer {A B : Type} (d : M X B) (body : M X A) :
  only_nil_panics d -> only_nil_panics body -> only_nil_panics (defer d body).
Proof.
  intros Hd Hb w msg w' H. unfold defer in H.
  destruct (body w) as [a w1|msg1 w1] eqn:E.
  - destruct (d w1) as [b w2|msg2 w2] eqn:E2; [discriminate|].
    injection H as <- <-. eapply Hd; eauto.
  - destruct (d w1) as [b w2|msg2 w2] eqn:E2; injection H as <- <-.
    + eapply Hb; eauto.
    + eapply Hd; eauto.
Qed.

Lemma only_nil_panic {A : Type} : only_nil_panics (X := X) (A := A) (panic nil_deref).
Proof. intros w msg w' H. injection H as <- _. reflexivity. Qed.

Lemma only_nil_get_scratch s : only_nil_panics (get_scratch (X := X) s).
Proof.
  intros w msg w' H. unfold get_scratch in H.
  destruct (scratches w !! s); [discriminate|]. injection H as <- _. reflexivity.
Qed.

Lemma only_nil_get_file f : only_nil_panics (get_file (X := X) f).
Proof.
  intros w msg w' H. unfold get_file in H.
  destruct (files w !! f); [discriminate|]. injection H as <- _. reflexivity.
Qed.

Lemma only_nil_total {A : Type} (m : M X A) :
  (forall w, exists a w', m w = Ret a w') -> only_nil_panics m.
Proof.
  intros Ht w msg w' H. destruct (Ht w) as (a & w1 & E). congruence.
Qed.

Ltac only_nil :=
  repeat first
    [ apply only_nil_ret
    | apply only_nil_panic
    | apply only_nil_get_scratch
    | apply only_nil_get_file
    | apply only_nil_total; intros; eexists _, _; reflexivity
    | apply only_nil_defer
    | apply only_nil_bind; [|intros]
    | match goal with
      | |- only_nil_panics (if ?b then _ else _) => destruct b
      | |- only_nil_panics (match ?x with _ => _ end) => destruct x
      end ].

Lemma Scratch_createDir_only_nil s : only_nil_panics (Scratch_createDir (X := X) s).
Proof. unfold Scratch_createDir. only_nil. Qed.

Lemma File_ensureFile_only_nil f : only_nil_panics (File_ensureFile (X := X) f).
Proof.
  unfold File_ensureFile. pose proof Scratch_createDir_only_nil as Hc. only_nil.
  all: try apply Hc.
Qed.

Lemma File_Write_only_nil f contents : only_nil_panics (File_Write (X := X) f contents).
Proof.
  unfold File_Write. pose proof File_ensureFile_only_nil as He. only_nil.
  all: try apply He.
Qed.

Lemma File_Close_only_nil f : only_nil_panics (File_Close (X := X) f).
Proof. unfold File_Close. only_nil. Qed.

Lemma File_Sync_only_nil f : only_nil_panics (File_Sync (X := X) f).
Proof. unfold File_Sync. only_nil. Qed.

Lemma Scratch_NewFile_only_nil s (c : Ctx X) bps :
  only_nil_panics (Scratch_NewFile s c bps).
Proof. unfold Scratch_NewFile. only_nil. Qed.

Lemma Scratch_WriteSST_only_nil s (c : Ctx X) data :
  only_nil_panics (Scratch_WriteSST s c data).
Proof.
  unfold Scratch_WriteSST.
  pose proof Scratch_NewFile_only_nil as Hn. pose proof File_Write_only_nil as Hw.
  pose proof File_Sync_only_nil as Hs. pose proof File_Close_only_nil as Hc.
  only_nil.
  all: first [apply Hn | apply Hw | apply Hs | apply Hc].
Qed.

(** X6: the panic of the reference counts is out of reach: in a world the
    interface reaches no call panics with the inconsistent-count message;
    a call that panics has dereferenced nil. *)
Theorem exported_calls_panic_only_on_nil w (c : Call) msg w' :
  reachable w ->
  run c w = Panic msg w' ->
  msg = nil_deref /\ msg <> "inconsistent scratch ref count".
Proof.
  intros Hreach Hrun.
  assert (E : msg = nil_deref); [|split; [exact E|subst msg; discriminate]].
  destruct c; simpl in Hrun.
  - revert Hrun. apply only_nil_bind; [|intros; apply only_nil_ret].
    apply only_nil_total. intros. eexists _, _. apply NewScratchSpace_eq.
  - revert Hrun. apply only_nil_bind; [|intros; apply only_nil_ret].
    apply only_nil_total. intros. eexists _, _. apply Clear_eq.
  - revert Hrun. apply only_nil_bind; [apply Scratch_NewFile_only_nil|].
    intros; apply only_nil_ret.
  - revert Hrun. apply only_nil_bind; [apply Scratch_WriteSST_only_nil|].
    intros; apply only_nil_ret.
  - revert Hrun. unfold Scratch_SSTs. only_nil.
  - unfold bind at 1 in Hrun.
    destruct (scratches w !! s) as [sc|] eqn:Hs.
    + destruct (closed sc) eqn:Hcl.
      * rewrite (Scratch_Close_closed _ _ _ Hs Hcl) in Hrun. discriminate.
      * destruct (Scratch_Close_open _ _ _ (reachable_consistent _ Hreach) Hs Hcl)
          as (_ & w1 & E & _).
        rewrite E in Hrun. discriminate.
    + unfold Scratch_Close, bind, get_scratch in Hrun. rewrite Hs in Hrun.
      injection Hrun as <- _. reflexivity.
  - revert Hrun. apply only_nil_bind; [apply File_Write_only_nil|].
    intros; apply only_nil_ret.
  - revert Hrun. apply only_nil_bind; [apply File_Close_only_nil|].
    intros; apply only_nil_ret.
  - revert Hrun. apply only_nil_bind; [apply File_Sync_only_nil|].
    intros; apply only_nil_ret.
Qed.

(** *** Nothing on the disk before the first data *)

(** X7: creating scratches and files, listing names and writing no data do not
    touch the engine or the limiter: after any run of such calls the disk is
    as it was. *)
Theorem no_data_no_io (cs : list Call) w w' :
  Forall (fun c => no_data c = true) cs ->
  run_all cs w = Ret tt w' ->
  engine (storage w') = engine (storage w) /\
  limiter (storage w') = limiter (storage w).
Proof.
  revert w. induction cs as [|c cs IH]; intros w Hall Hrun; simpl in Hrun.
  - injection Hrun as <-. auto.
  - apply Forall_cons in Hall as [Hc Hcs].
    apply bind_Ret in Hrun as ([] & w0 & Hrun & Hrest).
    destruct (IH _ Hcs Hrest) as [E1 E2]. rewrite E1, E2. clear IH Hrest E1 E2.
    destruct c; simpl in Hc; try discriminate; simpl in Hrun;
      apply bind_Ret in Hrun as (a & w1 & Hop & Hret); injection Hret as <-.
    + rewrite NewScratchSpace_eq in Hop. injection Hop as _ <-. auto.
    + unfold Scratch_NewFile, bind, get_scratch, ret in Hop.
      destruct (scratches w !! s) as [sc|]; [|discriminate].
      destruct (closed sc); injection Hop as _ <-; auto.
    + destruct data; [|discriminate].
      unfold Scratch_WriteSST, bind, get_scratch, ret in Hop.
      destruct (scratches w !! s) as [sc|]; [|discriminate].
      destruct (closed sc); injection Hop as _ <-; auto.
    + apply Scratch_SSTs_world in Hop. subst w1. auto.
    + destruct contents; [|discriminate].
      unfold File_Write in Hop. simpl in Hop. injection Hop as _ <-. auto.
Qed.

(** *** WriteSST with data *)

Lemma File_Sync_limiter w f res w1 :
  File_Sync f w = Ret res w1 -> limiter (storage w1) = limiter (storage w).
Proof.
  intros Hrun.
  destruct (files w !! f) as [fl|] eqn:Hf.
  2: { unfold File_Sync, bind, get_file in Hrun. rewrite Hf in Hrun.
       discriminate. }
  rewrite (File_Sync_eq _ _ _ Hf) in Hrun.
  destruct (file fl); [|discriminate]. injection Hrun as _ <-. reflexivity.
Qed.

Lemma File_Close_limiter w f res w1 :
  File_Close f w = Ret res w1 -> limiter (storage w1) = limiter (storage w).
Proof.
  intros Hrun.
  destruct (files w !! f) as [fl|] eqn:Hf.
  2: { unfold File_Close, bind, get_file in Hrun. rewrite Hf in Hrun.
       discriminate. }
  rewrite (File_Close_eq _ _ _ Hf) in Hrun.
  destruct (created fl); simpl in Hrun; [|injection Hrun as _ <-; reflexivity].
  destruct (file fl) as [h|]; [|injection Hrun as _ <-; reflexivity].
  destruct (fst (FileClose X h (engine (storage w)))); injection Hrun as _ <-;
    reflexivity.
Qed.

Lemma File_Close_nil_released w f w1 :
  File_Close f w = Ret None w1 ->
  exists fl, files w1 !! f = Some fl /\ created fl = true /\ file fl = None.
Proof.
  intros Hclose.
  destruct (files w !! f) as [fl0|] eqn:Hf0.
  2: { unfold File_Close, bind, get_file in Hclose. rewrite Hf0 in Hclose.
       discriminate. }
  rewrite (File_Close_eq _ _ _ Hf0) in Hclose.
  destruct (created fl0) eqn:Hcre; simpl in Hclose; [|discriminate].
  destruct (file fl0) as [h|] eqn:Hh.
  - destruct (fst (FileClose X h (engine (storage w)))); [discriminate|].
    injection Hclose as <-. exists (with_file fl0 None). simpl.
    split; [apply list_lookup_insert_eq; eapply lookup_lt_Some; eauto|].
    split; [exact Hcre|reflexivity].
  - injection Hclose as <-. exists fl0. auto.
Qed.

(** WriteSST with data on an open scratch, taken apart: the NewFile, the
    block of Write, Sync and Close, and the deferred Close. *)
Lemma Scratch_WriteSST_open_inv w s sc (c : Ctx X) data res w' :
  scratches w !! s = Some sc ->
  closed sc = false ->
  data <> [] ->
  Scratch_WriteSST s c data w = Ret res w' ->
  let name := Scratch_filename sc (Z.of_nat (length (ssts sc))) in
  let f := length (files w) in
  let w2 := with_files
              (with_scratches w (<[s := with_ssts sc (ssts sc ++ [name])]> (scratches w)))
              (files w ++ [{| scratch := s; created := false; file := None;
                              filename := name; ctx := c;
                              bytesPerSync := Z.shiftl 512 10 |}]) in
  exists w3 b,
    File_Close f w3 = Ret b w' /\
    (exists o4 w4,
       File_Write f data w2 = Ret o4 w4 /\
       match snd o4 with
       | Some e => res = Some e /\ w3 = w4
       | None =>
           exists o5 w5,
             File_Sync f w4 = Ret o5 w5 /\
             match o5 with
             | Some e => res = Some e /\ w3 = w5
             | None => File_Close f w5 = Ret res w3
             end
       end).
Proof.
  intros Hs Hcl Hne Hrun name f w2.
  unfold Scratch_WriteSST in Hrun.
  unfold bind at 1 in Hrun. unfold get_scratch at 1 in Hrun.
  rewrite Hs, Hcl in Hrun.
  assert (Hz : (Z.of_nat (length data) =? 0)%Z = false).
  { destruct data; [congruence|]. apply Z.eqb_neq. simpl length. lia. }
  rewrite Hz in Hrun. unfold bind at 1 in Hrun.
  rewrite (Scratch_NewFile_eq _ _ _ _ _ Hs), Hcl in Hrun. cbv zeta in Hrun.
  simpl fst in Hrun. simpl snd in Hrun. cbv iota beta in Hrun.
  apply defer_Ret in Hrun as (w3 & b & Hbody & Hdef).
  exists w3, b. split; [exact Hdef|].
  apply bind_Ret in Hbody as (o4 & w4 & Hwr & Hbody).
  exists o4, w4. split; [exact Hwr|].
  destruct (snd o4) as [e|].
  - injection Hbody as <- <-. auto.
  - apply bind_Ret in Hbody as (o5 & w5 & Hsy & Hbody).
    exists o5, w5. split; [exact Hsy|].
    destruct o5 as [e|]; [injection Hbody as <- <-; auto|exact Hbody].
Qed.

Lemma Scratch_WriteSST_open_frame w s sc (c : Ctx X) data res w' :
  scratches w !! s = Some sc ->
  closed sc = false ->
  data <> [] ->
  Scratch_WriteSST s c data w = Ret res w' ->
  let name := Scratch_filename sc (Z.of_nat (length (ssts sc))) in
  file_frame
    (with_files
       (with_scratches w (<[s := with_ssts sc (ssts sc ++ [name])]> (scratches w)))
       (files w ++ [{| scratch := s; created := false; file := None;
                       filename := name; ctx := c;
                       bytesPerSync := Z.shiftl 512 10 |}]))
    w'.
Proof.
  intros Hs Hcl Hne Hrun name.
  destruct (Scratch_WriteSST_open_inv _ _ _ _ _ _ _ Hs Hcl Hne Hrun)
    as (w3 & b & Hdef & o4 & w4 & Hwr & Hrest).
  apply File_Close_frame_all in Hdef. apply File_Write_frame_all in Hwr.
  eapply file_frame_trans; [|exact Hdef].
  eapply file_frame_trans; [exact Hwr|].
  destruct (snd o4) as [e|].
  - destruct Hrest as [_ ->]. apply file_frame_refl.
  - destruct Hrest as (o5 & w5 & Hsy & Hrest).
    apply File_Sync_frame_all in Hsy.
    eapply file_frame_trans; [exact Hsy|].
    destruct o5 as [e|].
    + destruct Hrest as [_ ->]. apply file_frame_refl.
    + eapply File_Close_frame_all; eauto.
Qed.

(** X8: WriteSST with data on an open scratch registers its file whatever
    happens to the write: when it returns, with or without error, SSTs has
    exactly one more name, the next number, there is exactly one more file
    object, named so, and the counts are as before. *)
Theorem Scratch_WriteSST_registers_name w s sc (c : Ctx X) data res w' :
  scratches w !! s = Some sc ->
  closed sc = false ->
  data <> [] ->
  Scratch_WriteSST s c data w = Ret res w' ->
  let name := Join [snapDir sc; (Itoa (Z.of_nat (length (ssts sc))) ++ ".sst")%string] in
  Scratch_SSTs s w' = Ret (ssts sc ++ [name])%list w' /\
  length (files w') = S (length (files w)) /\
  (exists fl, files w' !! length (files w) = Some fl /\
              filename fl = name /\ scratch fl = s) /\
  rangeRefCount (storage w') = rangeRefCount (storage w).
Proof.
  intros Hs Hcl Hne Hrun name.
  assert (Hlt : (s < length (scratches w))%nat) by (eapply lookup_lt_Some; eauto).
  pose proof (Scratch_WriteSST_open_frame _ _ _ _ _ _ _ Hs Hcl Hne Hrun) as Hfr.
  cbv zeta in Hfr.
  destruct (frame_scratches _ _ Hfr s (with_ssts sc (ssts sc ++ [name])))
    as (sc' & Hs' & G).
  { simpl. apply list_lookup_insert_eq. exact Hlt. }
  destruct G as (_ & Hn & _).
  split; [rewrite (Scratch_SSTs_eq _ _ _ Hs'), Hn; reflexivity|].
  split.
  { rewrite (frame_files_len _ _ Hfr). simpl. rewrite length_app. simpl. lia. }
  split.
  - edestruct (frame_files _ _ Hfr (length (files w))) as (fl' & Hf' & G & _).
    { simpl. rewrite lookup_app_r by lia. rewrite Nat.sub_diag. reflexivity. }
    exists fl'. split; [exact Hf'|]. destruct G as (Hsc & Hnm & _).
    split; [rewrite Hnm|rewrite Hsc]; reflexivity.
  - rewrite (frame_counts _ _ Hfr). reflexivity.
Qed.

(** X9: WriteSST that returns nil has done all of it: the limiter admitted one
    request, for the length of the data and the caller's context; the new
    file is created and its handle released; the directory of the scratch is
    marked as made. *)
Theorem Scratch_WriteSST_success w s sc (c : Ctx X) data w' :
  reachable w ->
  scratches w !! s = Some sc ->
  closed sc = false ->
  data <> [] ->
  Scratch_WriteSST s c data w = Ret None w' ->
  let adm := limitBulkIOWrite X c (limiter (storage w)) (Z.of_nat (length data)) in
  fst adm = None /\
  limiter (storage w') = snd adm /\
  (exists fl, files w' !! length (files w) = Some fl /\
              created fl = true /\ file fl = None /\
              bytesPerSync fl = 524288%Z) /\
  (exists sc', scratches w' !! s = Some sc' /\
               dirCreated sc' = true /\ closed sc' = false).
Proof.
  intros Hreach Hs Hcl Hne Hrun adm.
  assert (Hlt : (s < length (scratches w))%nat) by (eapply lookup_lt_Some; eauto).
  pose proof (Scratch_WriteSST_consistent _ _ _ _ _ _
                (reachable_consistent _ Hreach) Hrun) as Hcons.
  pose proof (Scratch_WriteSST_open_frame _ _ _ _ _ _ _ Hs Hcl Hne Hrun) as Hfr.
  destruct (Scratch_WriteSST_open_inv _ _ _ _ _ _ _ Hs Hcl Hne Hrun)
    as (w3 & b & Hdef & o4 & w4 & Hwr & Hrest).
  cbv zeta in Hfr, Hwr.
  set (f := length (files w)) in *.
  set (name := Scratch_filename sc (Z.of_nat (length (ssts sc)))) in *.
  set (w2 := with_files _ _) in Hwr, Hfr.
  destruct (snd o4) as [e|] eqn:Hr4; [destruct Hrest; discriminate|].
  destruct Hrest as (o5 & w5 & Hsy & Hrest).
  destruct o5 as [e|]; [destruct Hrest; discriminate|].
  (* the block's Close released the handle, the deferred one found it so *)
  destruct (File_Close_nil_released _ _ _ Hrest) as (fl3 & Hf3 & Hc3 & Hn3).
  rewrite (File_Close_eq _ _ _ Hf3), Hc3, Hn3 in Hdef. simpl in Hdef.
  injection Hdef as _ <-.
  (* the limiter *)
  assert (Hf2 : files w2 !! f
                = Some {| scratch := s; created := false; file := None;
                          filename := name; ctx := c;
                          bytesPerSync := Z.shiftl 512 10 |}).
  { subst w2 f. simpl. rewrite lookup_app_r by lia. rewrite Nat.sub_diag.
    reflexivity. }
  rewrite (File_Write_eq _ _ _ Hne) in Hwr.
  destruct (File_ensureFile f w2) as [[e|] w1|] eqn:Hens;
    [injection Hwr as <- _; discriminate| |discriminate].
  destruct (File_ensureFile_frame _ _ _ _ _ Hf2 Hens)
    as (Hl1 & _ & _ & fl1 & Hf1 & G1 & _).
  rewrite Hf1 in Hwr. cbv zeta in Hwr.
  destruct G1 as (_ & _ & Hctx & _). simpl in Hctx.
  rewrite Hctx, Hl1 in Hwr.
  change (limiter (storage w2)) with (limiter (storage w)) in Hwr.
  fold adm in Hwr.
  destruct (fst adm) as [e|] eqn:Hadm; [injection Hwr as <- _; discriminate|].
  destruct (file fl1) as [h|]; [|discriminate].
  injection Hwr as _ <-.
  apply File_Sync_limiter in Hsy. apply File_Close_limiter in Hrest.
  split; [reflexivity|].
  split; [rewrite Hrest, Hsy; reflexivity|].
  split.
  - destruct (frame_files _ _ Hfr _ _ Hf2) as (fl' & Hf' & G & _).
    rewrite Hf3 in Hf'. injection Hf' as <-.
    exists fl3. destruct G as (_ & _ & _ & Hb & _).
    repeat split; first [assumption | rewrite Hb; reflexivity].
  - destruct (frame_scratches _ _ Hfr s (with_ssts sc (ssts sc ++ [name])))
      as (sc' & Hs' & G).
    { subst w2. simpl. apply list_lookup_insert_eq. exact Hlt. }
    exists sc'. split; [exact Hs'|].
    destruct G as (_ & _ & _ & Hcl' & _). simpl in Hcl'.
    split; [|congruence].
    destruct (files_ok _ Hcons _ _ Hf3) as (sc3 & Hs3 & Hcr3 & _).
    destruct (frame_files _ _ Hfr _ _ Hf2) as (fl' & Hf' & G & _).
    rewrite Hf3 in Hf'. injection Hf' as <-.
    destruct G as (Hsc & _). simpl in Hsc. rewrite Hsc in Hs3.
    rewrite Hs' in Hs3. injection Hs3 as <-. auto.
Qed.

(** *** Where the directories are *)

(** X10: the root of a new storage: for an auxiliary directory that is a cleaned
    path, other than [.] and the root directory, it is that directory
    followed by [/sstsnapshot]; it is again a cleaned path; and the storage
    starts without any count. *)
Theorem NewSSTSnapshotStorage_root (e : Engine X) (l : Limiter X) :
  let aux := GetAuxiliaryDir X e in
  Clean aux = aux -> aux <> "." -> aux <> "/" ->
  dir (NewSSTSnapshotStorage e l) = (aux ++ "/sstsnapshot")%string /\
  Clean (dir (NewSSTSnapshotStorage e l)) = dir (NewSSTSnapshotStorage e l) /\
  rangeRefCount (NewSSTSnapshotStorage e l) = ∅ /\
  engine (NewSSTSnapshotStorage e l) = e.
Proof.
  intros aux Hc Hdot Hroot. simpl.
  destruct (Join_clean_plain aux "sstsnapshot" Hc Hdot Hroot eq_refl) as [E1 E2].
  fold aux. repeat split; assumption.
Qed.

Lemma reachable_dir_form w :
  reachable w ->
  exists root out,
    dir (storage w) = render root out /\ stack_ok root out /\ out <> [].
Proof.
  intros Hreach. destruct (reachable_dir _ Hreach) as [e He].
  destruct (storage_dir_form (GetAuxiliaryDir X e)) as (root & out & Hr & Hok & Hne).
  exists root, out. rewrite He. auto.
Qed.


(** X12: what the last Close of a range removes holds everything of the range:
    the directory of a scratch is the directory of its range followed by the
    snapshot's name, and each of its files is that followed by the file's
    name. *)
Theorem scratch_files_below_range_directory w s sc (u : string) :
  reachable w ->
  scratches w !! s = Some sc ->
  snapDir sc = Join [dir (storage w); Itoa (rangeID sc); u] ->
  plain u = true ->
  let rangeDir := Join [dir (storage w); Itoa (rangeID sc)] in
  rangeDir = (dir (storage w) ++ "/" ++ Itoa (rangeID sc))%string /\
  snapDir sc = (rangeDir ++ "/" ++ u)%string /\
  forall name, In name (ssts sc) ->
    exists i : nat,
      (i < length (ssts sc))%nat /\
      name = (rangeDir ++ "/" ++ u ++ "/" ++ Itoa (Z.of_nat i) ++ ".sst")%string.
Proof.
  intros Hreach Hs Hd Hu rangeDir.
  destruct (reachable_dir_form _ Hreach) as (root & out & Hdir & Hok & Hne).
  destruct (scratch_paths_literal w sc u Hreach Hd Hu) as [E1 E2].
  assert (Er : rangeDir = (dir (storage w) ++ "/" ++ Itoa (rangeID sc))%string).
  { subst rangeDir. rewrite Hdir.
    apply (Join_push root out _ Hok Hne (Itoa_plain _)). }
  split; [exact Er|]. split.
  - rewrite E1, Er, !string_app_assoc. reflexivity.
  - intros name Hin.
    destruct (scratches_ok _ (reachable_consistent _ Hreach) _ _ Hs) as [Hn _].
    rewrite Hn in Hin. unfold sst_names in Hin.
    apply in_map_iff in Hin as (i & <- & Hi). apply in_seq in Hi.
    exists i. split; [lia|].
    rewrite E2, E1, Er, !string_app_assoc. reflexivity.
Qed.

(** X13: the error WriteSST returns is the first one met: when the Write fails,
    or the Sync after it, WriteSST returns that error, after the deferred
    Close of the file, whose own result, error or not, is dropped. *)
Theorem Scratch_WriteSST_first_error w s sc (c : Ctx X) data :
  scratches w !! s = Some sc ->
  closed sc = false ->
  data <> [] ->
  let name := Scratch_filename sc (Z.of_nat (length (ssts sc))) in
  let f := length (files w) in
  let w2 := with_files
              (with_scratches w (<[s := with_ssts sc (ssts sc ++ [name])]> (scratches w)))
              (files w ++ [{| scratch := s; created := false; file := None;
                              filename := name; ctx := c;
                              bytesPerSync := Z.shiftl 512 10 |}]) in
  (forall n e w4 b w',
     File_Write f data w2 = Ret (n, Some e) w4 ->
     File_Close f w4 = Ret b w' ->
     Scratch_WriteSST s c data w = Ret (Some e) w') /\
  (forall n w4 e w5 b w',
     File_Write f data w2 = Ret (n, None) w4 ->
     File_Sync f w4 = Ret (Some e) w5 ->
     File_Close f w5 = Ret b w' ->
     Scratch_WriteSST s c data w = Ret (Some e) w').
Proof.
  intros Hs Hcl Hne name f w2.
  assert (Hz : (Z.of_nat (length data) =? 0)%Z = false).
  { destruct data; [congruence|]. apply Z.eqb_neq. simpl length. lia. }
  assert (E : Scratch_WriteSST s c data w =
              defer (File_Close f)
                (let* wr := File_Write f data in
                 match snd wr with
                 | Some e => ret (Some e)
                 | None =>
                     let* err := File_Sync f in
                     match err with
                     | Some e => ret (Some e)
                     | None => File_Close f
                     end
                 end) w2).
  { unfold Scratch_WriteSST.
    unfold bind at 1. unfold get_scratch at 1. rewrite Hs, Hcl, Hz.
    unfold bind at 1.
    rewrite (Scratch_NewFile_eq _ _ _ _ _ Hs), Hcl. reflexivity. }
  rewrite E. split.
  - intros n e w4 b w' Hwr Hclose. unfold defer, bind. rewrite Hwr. simpl.
    unfold ret. rewrite Hclose. reflexivity.
  - intros n w4 e w5 b w' Hwr Hsy Hclose. unfold defer, bind. rewrite Hwr. simpl.
    rewrite Hsy. unfold ret. rewrite Hclose. reflexivity.
Qed.

End Properties.

(** ** Properties of the log redaction *)

Section RedactProperties.

Import Redact.

Context (L : Library).

Lemma SelectEditMode_cases (r k : bool) :
  SelectEditMode r k =
    match r, k with
    | false, false => WithFlattenedSensitiveData
    | false, true => WithMarkedSensitiveData
    | true, false => WithoutSensitiveDataNorMarkers
    | true, true => WithoutSensitiveData
    end.
Proof. destruct r, k; reflexivity. Qed.

Lemma getEditor_selected (r k : bool) :
  exists ed, getEditor L (SelectEditMode r k) = Editor ed.
Proof. destruct r, k; eexists; reflexivity. Qed.

Lemma getEditor_cases (m : Z) :
  match getEditor L m with
  | Editor _ => m = 1%Z \/ m = 3%Z \/ m = 5%Z \/ m = 7%Z
  | UnrecognizedMode m' => m' = m /\ m <> 1%Z /\ m <> 3%Z /\ m <> 5%Z /\ m <> 7%Z
  end.
Proof.
  unfold getEditor.
  change WithMarkedSensitiveData with 3%Z.
  change WithFlattenedSensitiveData with 1%Z.
  change WithoutSensitiveData with 7%Z.
  change WithoutSensitiveDataNorMarkers with 5%Z.
  destruct (Z.eqb_spec m 3); [lia|].
  destruct (Z.eqb_spec m 1); [lia|].
  destruct (Z.eqb_spec m 7); [lia|].
  destruct (Z.eqb_spec m 5); [lia|].
  repeat split; assumption.
Qed.

(** X14: [getEditor] knows exactly the modes [SelectEditMode] gives: it
    returns an editor for the mode of any two flags, and on every other
    value, the zero of an uninitialised mode among them, it panics with the
    value. *)
Theorem getEditor_recognizes_selected_modes :
  (forall redact keepRedactable,
     exists ed, getEditor L (SelectEditMode redact keepRedactable) = Editor ed) /\
  (forall m, (forall redact keepRedactable, m <> SelectEditMode redact keepRedactable) ->
     getEditor L m = UnrecognizedMode m) /\
  getEditor L 0 = UnrecognizedMode 0.
Proof.
  split; [|split].
  - intros r k. apply getEditor_selected.
  - intros m Hm. pose proof (getEditor_cases m) as Hc.
    destruct (getEditor L m) as [ed|m'].
    + exfalso. destruct Hc as [-> | [-> | [-> | ->]]].
      * exact (Hm false false eq_refl).
      * exact (Hm false true eq_refl).
      * exact (Hm true false eq_refl).
      * exact (Hm true true eq_refl).
    + destruct Hc as [-> _]. reflexivity.
  - reflexivity.
Qed.

(** X15: what an editor leaves is in the form that was asked for: the
    editor of [SelectEditMode redact keepRedactable] returns a package whose
    redactable flag is [keepRedactable], whatever the flag was. *)
Theorem editor_result_flag (redact keepRedactable : bool) (ed : redactEditor)
  (p : redactablePackage) :
  getEditor L (SelectEditMode redact keepRedactable) = Editor ed ->
  redactable (ed p) = keepRedactable.
Proof.
  intros H. destruct redact, keepRedactable; injection H as <-;
    destruct p as [m []]; reflexivity.
Qed.

(** X16: without redaction an editor only converts between the two forms:
    a package already in the form asked for comes back as it is, and so
    editing twice is editing once. *)
Theorem editor_without_redaction_converts (keepRedactable : bool)
  (ed : redactEditor) :
  getEditor L (SelectEditMode false keepRedactable) = Editor ed ->
  (forall p, redactable p = keepRedactable -> ed p = p) /\
  (forall p, ed (ed p) = ed p).
Proof.
  intros H. destruct keepRedactable; injection H as <-; split; intros p;
    destruct p as [m []]; simpl; try reflexivity; discriminate.
Qed.

(** X17: [maybeRedactEntry] edits the tags under the flag the message was
    left with, not the flag of the entry: the entry comes back with the flag
    asked for and its other fields; without redaction the tags come back as
    they were; with redaction they are redacted as marked text when markers
    are kept, and are the stripped marker when they are not. *)
Theorem maybeRedactEntry_flag_and_tags {Other : Type} (redact keepRedactable : bool)
  (ed : redactEditor) (entry : Entry Other) :
  getEditor L (SelectEditMode redact keepRedactable) = Editor ed ->
  let out := maybeRedactEntry entry ed in
  Redactable out = keepRedactable /\
  other_fields out = other_fields entry /\
  Message out
    = string_of_list_byte
        (msg (ed {| msg := list_byte_of_string (Message entry);
                    redactable := Redactable entry |})) /\
  Tags out
    = match redact, keepRedactable with
      | false, _ => Tags entry
      | true, true =>
          string_of_list_byte (RedactBytes L (list_byte_of_string (Tags entry)))
      | true, false => string_of_list_byte (strippedMarker L)
      end.
Proof.
  intros H out. subst out.
  destruct entry as [m t fl o].
  destruct redact, keepRedactable; injection H as <-; destruct fl;
    unfold maybeRedactEntry; simpl;
    rewrite ?string_of_list_byte_of_string; repeat split; reflexivity.
Qed.

(** X18: without redaction [maybeRedactEntry] changes an entry once: an
    entry already in the form asked for comes back as it is, and the entry
    that comes back is in that form. *)
Theorem maybeRedactEntry_without_redaction {Other : Type} (keepRedactable : bool)
  (ed : redactEditor) (entry : Entry Other) :
  getEditor L (SelectEditMode false keepRedactable) = Editor ed ->
  (Redactable entry = keepRedactable -> maybeRedactEntry entry ed = entry) /\
  maybeRedactEntry (maybeRedactEntry entry ed) ed = maybeRedactEntry entry ed.
Proof.
  intros H. destruct entry as [m t fl o].
  destruct keepRedactable; injection H as <-; destruct fl;
    unfold maybeRedactEntry; simpl;
    rewrite ?string_of_list_byte_of_string; split; intros; try reflexivity;
    discriminate.
Qed.

End RedactProperties.
Section TagProperties.

Import Redact.

Context {V : Type} (Fprint : tag_value V -> string).

Lemma string_app_nil_r (a : string) : (a ++ "")%string = a.
Proof.
  induction a as [|c a IH]; [reflexivity|]. rewrite string_app_cons, IH. reflexivity.
Qed.

Lemma render_tag_text (buf comma : string) (t : Tag V) :
  render_tag Fprint (buf, comma) t = ((buf ++ comma ++ tag_text Fprint t)%string, ",").
Proof.
  unfold render_tag, tag_text. simpl fst. simpl snd.
  destruct (has_value (Value t)); [destruct (1 <? Z.of_nat (String.length (Key t)))%Z|];
    rewrite ?string_app_assoc, ?string_app_nil_r; reflexivity.
Qed.

Lemma fold_render_tag_comma (l : list (Tag V)) (buf : string) :
  fst (fold_left (render_tag Fprint) l (buf, ","))
  = match l with
    | [] => buf
    | _ => (buf ++ "," ++ comma_sep (map (tag_text Fprint) l))%string
    end.
Proof.
  revert buf. induction l as [|t l IH]; intros buf; [reflexivity|].
  simpl fold_left. rewrite render_tag_text, IH.
  destruct l as [|t' l]; simpl; rewrite ?string_app_assoc; reflexivity.
Qed.

(** X19: [renderTagsAsRedactable] appends the tags with commas between
    them and nowhere else: a context without tags leaves the buffer as it
    is; otherwise the buffer gains, for each tag in order, its key, followed
    when the value is neither nil nor the empty string by the printed value,
    after an equals sign when the key is longer than one byte. *)
Theorem renderTagsAsRedactable_comma_separated (tags : option (list (Tag V)))
  (buf : string) :
  renderTagsAsRedactable Fprint tags buf
  = match tags with
    | None => buf
    | Some l => (buf ++ comma_sep (map (tag_text Fprint) l))%string
    end.
Proof.
  destruct tags as [l|]; [|reflexivity].
  unfold renderTagsAsRedactable.
  destruct l as [|t l]; [simpl; rewrite string_app_nil_r; reflexivity|].
  simpl fold_left. rewrite render_tag_text, fold_render_tag_comma.
  change (buf ++ "" ++ tag_text Fprint t)%string with (buf ++ tag_text Fprint t)%string.
  destruct l as [|t' l]; simpl; rewrite ?string_app_assoc; reflexivity.
Qed.

End TagProperties.

Section LoggerProperties.

Import Redact.

Context (L : Library) {Rest : Type}.

Implicit Types (heap : list (sinkInfo Rest)) (ptrs : list nat).

Lemma set_editor_set (si : sinkInfo Rest) (e1 e2 : option redactEditor) :
  set_editor (set_editor si e1) e2 = set_editor si e2.
Proof. reflexivity. Qed.

Lemma set_editor_same (si : sinkInfo Rest) : set_editor si (editor si) = si.
Proof. destruct si; reflexivity. Qed.

(** What the first loop does, sink by sink. *)
Lemma install_spec (b : bool) (ed : redactEditor) ptrs :
  getEditor L (SelectEditMode false b) = Editor ed ->
  forall heap,
    NoDup ptrs ->
    (forall p, p ∈ ptrs -> is_Some (heap !! p)) ->
    exists prev heap',
      install L b ptrs heap = Some (prev, heap') /\
      length heap' = length heap /\
      length prev = length ptrs /\
      (forall q, q ∉ ptrs -> heap' !! q = heap !! q) /\
      (forall i p, ptrs !! i = Some p ->
         exists si, heap !! p = Some si /\ prev !! i = Some (editor si) /\
                    heap' !! p = Some (set_editor si (Some ed))).
Proof.
  intros Hed. induction ptrs as [|p ptrs IH]; intros heap Hnd Hval.
  - exists [], heap. repeat split; auto. intros i p Hi. discriminate.
  - apply NoDup_cons in Hnd as [Hp Hnd].
    destruct (Hval p) as [si Hsi]; [left|].
    assert (Hlt : (p < length heap)%nat) by (apply lookup_lt_Some in Hsi; exact Hsi).
    simpl. rewrite Hsi, Hed.
    destruct (IH (<[p := set_editor si (Some ed)]> heap) Hnd)
      as (prev & heap' & Hrun & Hlen & Hlp & Hout & Hin).
    { intros q Hq. destruct (decide (q = p)) as [->|Hne].
      - rewrite list_lookup_insert_eq; [eauto|exact Hlt].
      - rewrite list_lookup_insert_ne by congruence. apply Hval. right. exact Hq. }
    rewrite Hrun. exists (editor si :: prev), heap'.
    split; [reflexivity|]. split; [rewrite Hlen; apply length_insert|].
    split; [simpl; rewrite Hlp; reflexivity|]. split.
    + intros q Hq. rewrite Hout by (intros ?; apply Hq; right; assumption).
      apply list_lookup_insert_ne. intros ->. apply Hq. left.
    + intros [|i] q Hi; simpl in Hi.
      * injection Hi as <-. exists si. split; [exact Hsi|]. split; [reflexivity|].
        rewrite (Hout p Hp). apply list_lookup_insert_eq. exact Hlt.
      * assert (Hne : q <> p).
        { intros ->. apply Hp. eapply list_elem_of_lookup_2. exact Hi. }
        destruct (Hin i q Hi) as (si' & H1 & H2 & H3).
        rewrite list_lookup_insert_ne in H1 by congruence.
        exists si'. auto.
Qed.

(** What the loop of the cleanup does, sink by sink. *)
Lemma restore_spec ptrs :
  forall (prev : list (option redactEditor)) (pre : list nat) heap,
    length prev = length ptrs ->
    NoDup ptrs ->
    (forall p, p ∈ ptrs -> is_Some (heap !! p)) ->
    exists heap',
      restore (length pre) prev {| sinks := heap; sinkInfos := pre ++ ptrs |}
        = Some {| sinks := heap'; sinkInfos := pre ++ ptrs |} /\
      length heap' = length heap /\
      (forall q, q ∉ ptrs -> heap' !! q = heap !! q) /\
      (forall i p, ptrs !! i = Some p ->
         exists si e, heap !! p = Some si /\ prev !! i = Some e /\
                      heap' !! p = Some (set_editor si e)).
Proof.
  induction ptrs as [|p ptrs IH]; intros prev pre heap Hlen Hnd Hval.
  - destruct prev; [|discriminate]. exists heap. repeat split; auto.
    intros i p Hi. discriminate.
  - destruct prev as [|e prev]; [discriminate|].
    apply NoDup_cons in Hnd as [Hp Hnd].
    destruct (Hval p) as [si Hsi]; [left|].
    assert (Hlt : (p < length heap)%nat) by (apply lookup_lt_Some in Hsi; exact Hsi).
    simpl restore. simpl sinkInfos. simpl sinks.
    rewrite list_lookup_middle by reflexivity. rewrite Hsi.
    destruct (IH prev (pre ++ [p])%list (<[p := set_editor si e]> heap))
      as (heap' & Hrun & Hl & Hout & Hin).
    { simpl in Hlen. lia. }
    { exact Hnd. }
    { intros q Hq. destruct (decide (q = p)) as [->|Hne].
      - rewrite list_lookup_insert_eq; [eauto|exact Hlt].
      - rewrite list_lookup_insert_ne by congruence. apply Hval. right. exact Hq. }
    rewrite length_app in Hrun. simpl in Hrun.
    replace (length pre + 1)%nat with (S (length pre)) in Hrun by lia.
    rewrite <- app_assoc in Hrun. simpl in Hrun.
    exists heap'. split; [exact Hrun|].
    split; [rewrite Hl; apply length_insert|]. split.
    + intros q Hq. rewrite Hout by (intros ?; apply Hq; right; assumption).
      apply list_lookup_insert_ne. intros ->. apply Hq. left.
    + intros [|i] q Hi; simpl in Hi.
      * injection Hi as <-. exists si, e. split; [exact Hsi|]. split; [reflexivity|].
        rewrite (Hout p Hp). apply list_lookup_insert_eq. exact Hlt.
      * assert (Hne : q <> p).
        { intros ->. apply Hp. eapply list_elem_of_lookup_2. exact Hi. }
        destruct (Hin i q Hi) as (si' & e' & H1 & H2 & H3).
        rewrite list_lookup_insert_ne in H1 by congruence.
        exists si', e'. auto.
Qed.

(** X20: the cleanup of [TestingSetRedactable] undoes it: on a logger whose
    slice points to distinct, existing sinks, the call returns; every sink of
    the slice then has the editor that keeps or strips the markers as asked
    and redacts nothing, the other sinks are as they were; and the cleanup
    function, run on that logger, gives back the logger of before. *)
Theorem TestingSetRedactable_cleanup_restores (redactableLogs : bool)
  (lg : loggerT Rest) :
  NoDup (sinkInfos lg) ->
  (forall p, p ∈ sinkInfos lg -> is_Some (sinks lg !! p)) ->
  exists lg' cleanup ed,
    TestingSetRedactable L redactableLogs lg = Some (lg', cleanup) /\
    getEditor L (SelectEditMode false redactableLogs) = Editor ed /\
    sinkInfos lg' = sinkInfos lg /\
    (forall p si, p ∈ sinkInfos lg -> sinks lg !! p = Some si ->
       sinks lg' !! p = Some (set_editor si (Some ed))) /\
    (forall q, q ∉ sinkInfos lg -> sinks lg' !! q = sinks lg !! q) /\
    cleanup lg' = Some lg.
Proof.
  intros Hnd Hval.
  destruct (getEditor_selected L false redactableLogs) as [ed Hed].
  destruct lg as [heap ptrs]. simpl in *.
  destruct (install_spec redactableLogs ed ptrs Hed heap Hnd Hval)
    as (prev & heap' & Hrun & Hlen & Hlp & Hout & Hin).
  unfold TestingSetRedactable. simpl. rewrite Hrun.
  eexists _, _, ed. split; [reflexivity|]. split; [exact Hed|].
  split; [reflexivity|]. simpl. split; [|split; [exact Hout|]].
  - intros p si Hp Hsi. apply list_elem_of_lookup_1 in Hp as [i Hi].
    destruct (Hin i p Hi) as (si' & H1 & _ & H3). congruence.
  - destruct (restore_spec ptrs prev [] heap' Hlp Hnd) as (heap2 & Hres & Hl2 & Hout2 & Hin2).
    { intros p Hp. apply list_elem_of_lookup_1 in Hp as [i Hi].
      destruct (Hin i p Hi) as (si' & _ & _ & H3). eauto. }
    simpl in Hres. rewrite Hres. f_equal. f_equal.
    apply list_eq. intros q.
    destruct (decide (q ∈ ptrs)) as [Hq|Hq].
    + apply list_elem_of_lookup_1 in Hq as [i Hi].
      destruct (Hin i q Hi) as (si & H1 & H2 & H3).
      destruct (Hin2 i q Hi) as (si2 & e & H4 & H5 & H6).
      rewrite H6, H1. rewrite H3 in H4. injection H4 as <-.
      rewrite H2 in H5. injection H5 as <-.
      rewrite set_editor_set, set_editor_same. reflexivity.
    + rewrite Hout2, Hout by assumption. reflexivity.
Qed.

End LoggerProperties.

(** ** The theorems at work on the in-memory collaborators *)

Lemma reachable_w_one : reachable Mem.w_one.
Proof.
  apply (reachable_run_checked Mem.opened Mem.start);
    [apply reachable_init | vm_compute; reflexivity].
Defined.

Lemma reachable_w_one_stuck : reachable Mem.w_one_stuck.
Proof.
  apply (reachable_run_checked Mem.opened (@init_world Mem.X (Mem.disk ["RemoveAll"]) []));
    [apply reachable_init | vm_compute; reflexivity].
Defined.

Lemma reachable_w_pair : reachable Mem.w_pair.
Proof.
  apply (reachable_run_checked
           [@CallNewScratchSpace Mem.X 7%Z "a"; @CallNewScratchSpace Mem.X 7%Z "b"]
           Mem.start);
    [apply reachable_init | vm_compute; reflexivity].
Defined.

Lemma reachable_w_file : reachable Mem.w_file.
Proof.
  apply (reachable_run_checked Mem.with_file0 Mem.start);
    [apply reachable_init | vm_compute; reflexivity].
Defined.

Lemma reachable_w_stale : reachable Mem.w_stale.
Proof.
  apply (reachable_run_checked Mem.stale Mem.start);
    [apply reachable_init | vm_compute; reflexivity].
Defined.

Lemma reachable_w_unlucky : reachable Mem.w_unlucky.
Proof.
  apply (reachable_run_checked Mem.unlucky (@init_world Mem.X (Mem.disk ["Create"]) []));
    [apply reachable_init | vm_compute; reflexivity].
Defined.

(** A scratch closed twice on a disk that refuses to remove anything: the
    first Close hands back the error, the second returns nil, and the count
    of range 7 went from one to none. *)
Lemma Scratch_Close_idempotent_witness :
  reachable Mem.w_one_stuck /\
  scratches Mem.w_one_stuck !! 0%nat = Some (Mem.a_scratch [] false false) /\
  exists res w1,
    @Scratch_Close Mem.X 0 Mem.w_one_stuck = Ret res w1 /\
    res = Some (@External Mem.X "remove: input/output error") /\
    Scratch_Close 0 w1 = Ret None w1 /\
    refcount (rangeRefCount (storage Mem.w_one_stuck)) 7 = 1%Z /\
    refcount (rangeRefCount (storage w1)) 7 = 0%Z.
Proof.
  split; [exact reachable_w_one_stuck|].
  split; [vm_compute; reflexivity|].
  destruct (@Scratch_Close Mem.X 0 Mem.w_one_stuck) as [res w1|] eqn:Hrun;
    [|vm_compute in Hrun; discriminate].
  exists res, w1. split; [reflexivity|].
  split; [vm_compute in Hrun; injection Hrun as <- _; reflexivity|].
  split; [apply (proj1 (proj1 Scratch_Close_idempotent _ _ _ _ Hrun))|].
  split; [vm_compute; reflexivity|].
  assert (Hs : scratches Mem.w_one_stuck !! 0%nat
               = Some (Mem.a_scratch [] false false))
    by (vm_compute; reflexivity).
  apply (proj2 Scratch_Close_idempotent _ _ _ _ _ reachable_w_one_stuck Hs Hrun
           0%nat w1 eq_refl).
Defined.

(** The first Close on that disk: the removal error comes back, and the
    scratch is closed and the count dropped all the same. *)
Lemma Scratch_Close_first_call_witness :
  reachable Mem.w_one_stuck /\
  (exists sc, scratches Mem.w_one_stuck !! 0%nat = Some sc /\ closed sc = false) /\
  exists w',
    @Scratch_Close Mem.X 0 Mem.w_one_stuck
      = Ret (Some (@External Mem.X "remove: input/output error")) w' /\
    (exists sc', scratches w' !! 0%nat = Some sc' /\ closed sc' = true) /\
    rangeRefCount (storage Mem.w_one_stuck) !! 7%Z = Some 1%Z /\
    rangeRefCount (storage w') !! 7%Z = None.
Proof.
  split; [exact reachable_w_one_stuck|].
  assert (Hs : scratches Mem.w_one_stuck !! 0%nat
               = Some (Mem.a_scratch [] false false))
    by (vm_compute; reflexivity).
  split; [eexists; split; [exact Hs|reflexivity]|].
  destruct (Scratch_Close_first_call Mem.w_one_stuck 0 _
              reachable_w_one_stuck Hs eq_refl)
    as (w' & Hrun & Hsc & _ & _ & _ & Hm & _).
  exists w'. split; [exact Hrun|]. split.
  - rewrite Hsc. eexists. split; [vm_compute; reflexivity|reflexivity].
  - split; [vm_compute; reflexivity|]. rewrite Hm. vm_compute. reflexivity.
Defined.

(** The decrement on a fresh storage, where no range has a count. *)
Lemma scratchClosed_underflow_panics_witness :
  rangeRefCount (storage Mem.start) !! 7%Z = None /\
  @scratchClosed Mem.X 7 Mem.start
    = Panic "inconsistent scratch ref count" Mem.start.
Proof.
  split; [vm_compute; reflexivity|].
  apply (scratchClosed_underflow_panics Mem.start 7).
  left. vm_compute. reflexivity.
Defined.

(** Two scratches of one range: the entry is two; a third range has none. *)
Lemma refcount_entries_positive_witness :
  reachable Mem.w_pair /\
  rangeRefCount (storage Mem.w_pair) !! 7%Z = Some 2%Z /\
  refs_positive (rangeRefCount (storage Mem.w_pair)).
Proof.
  split; [exact reachable_w_pair|].
  split; [vm_compute; reflexivity|].
  apply (proj1 refcount_entries_positive Mem.w_pair reachable_w_pair).
Defined.

(** WriteSST without data on an open scratch. *)
Lemma Scratch_WriteSST_empty_witness :
  (exists sc, scratches Mem.w_one !! 0%nat = Some sc /\ closed sc = false) /\
  @Scratch_WriteSST Mem.X 0 false [] Mem.w_one = Ret None Mem.w_one.
Proof.
  assert (Hs : scratches Mem.w_one !! 0%nat
               = Some (Mem.a_scratch [] false false))
    by (vm_compute; reflexivity).
  split; [eexists; split; [exact Hs|reflexivity]|].
  apply (proj1 (proj2 (Scratch_WriteSST_empty Mem.w_one 0 _ false Hs))).
  reflexivity.
Defined.

(** C5 does not hold on a closed scratch: WriteSST without data returns the
    closed-scratch error there, not success. *)
Lemma Scratch_WriteSST_empty_closed_fails :
  reachable Mem.w_stale /\
  (exists sc, scratches Mem.w_stale !! 0%nat = Some sc /\ closed sc = true) /\
  @Scratch_WriteSST Mem.X 0 false [] Mem.w_stale
    = Ret (Some (AssertionFailedf "SSTSnapshotStorageScratch closed")) Mem.w_stale /\
  forall w', @Scratch_WriteSST Mem.X 0 false [] Mem.w_stale <> Ret None w'.
Proof.
  split; [exact reachable_w_stale|].
  split; [eexists; split; vm_compute; reflexivity|].
  assert (E : @Scratch_WriteSST Mem.X 0 false [] Mem.w_stale
    = Ret (Some (AssertionFailedf "SSTSnapshotStorageScratch closed")) Mem.w_stale)
    by (vm_compute; reflexivity).
  split; [exact E|]. intros w'. rewrite E. discriminate.
Qed.

(** Three files, none of them ever written with success: 0, 1 and 2. *)
Lemma NewFile_names_sequential_witness :
  reachable Mem.w_unlucky /\
  (exists sc, scratches Mem.w_unlucky !! 0%nat = Some sc /\ length (ssts sc) = 3%nat) /\
  plain "abcd" = true /\
  Mem.contents (engine (storage Mem.w_unlucky)) = [] /\
  NoDup ["/data/aux/sstsnapshot/7/abcd/0.sst";
         "/data/aux/sstsnapshot/7/abcd/1.sst";
         "/data/aux/sstsnapshot/7/abcd/2.sst"] /\
  @Scratch_SSTs Mem.X 0 Mem.w_unlucky
    = Ret ["/data/aux/sstsnapshot/7/abcd/0.sst";
           "/data/aux/sstsnapshot/7/abcd/1.sst";
           "/data/aux/sstsnapshot/7/abcd/2.sst"] Mem.w_unlucky.
Proof.
  assert (Hs : scratches Mem.w_unlucky !! 0%nat
               = Some (Mem.a_scratch ["/data/aux/sstsnapshot/7/abcd/0.sst";
                                  "/data/aux/sstsnapshot/7/abcd/1.sst";
                                  "/data/aux/sstsnapshot/7/abcd/2.sst"] true false))
    by (vm_compute; reflexivity).
  split; [exact reachable_w_unlucky|].
  split; [eexists; split; [exact Hs|reflexivity]|].
  split; [reflexivity|].
  split; [vm_compute; reflexivity|].
  split;
    [exact (proj1 (proj2 (proj2 (proj2 NewFile_names_sequential)))
              Mem.w_unlucky 0%nat _ reachable_w_unlucky Hs)|].
  refine (eq_trans
            (proj2 (proj1 NewFile_names_sequential Mem.w_unlucky 0%nat _
                      reachable_w_unlucky Hs)) _).
  vm_compute. reflexivity.
Defined.

(** A file that was never written to, and a file written, synced and
    closed. *)
Lemma File_Close_empty_or_idempotent_witness :
  (exists fl, files Mem.w_file !! 0%nat = Some fl /\ created fl = false) /\
  @File_Close Mem.X 0 Mem.w_file = Ret (Some (New "file is empty")) Mem.w_file /\
  (exists fl, files Mem.w_done !! 0%nat = Some fl /\
              created fl = true /\ file fl = None) /\
  @File_Close Mem.X 0 Mem.w_done = Ret None Mem.w_done.
Proof.
  assert (Hf : files Mem.w_file !! 0%nat
               = Some (Mem.a_file false false))
    by (vm_compute; reflexivity).
  assert (Hd : files Mem.w_done !! 0%nat
               = Some (Mem.a_file true false))
    by (vm_compute; reflexivity).
  split; [eexists; split; [exact Hf|reflexivity]|].
  split; [apply (proj1 (File_Close_empty_or_idempotent Mem.w_file 0 _ Hf));
          reflexivity|].
  split; [eexists; split; [exact Hd|split; reflexivity]|].
  apply (proj1 (proj2 (File_Close_empty_or_idempotent Mem.w_done 0 _ Hd)));
    reflexivity.
Defined.


(** Sync on a file that was never written to. *)
Lemma File_Sync_absent_handle_panics_witness :
  reachable Mem.w_file /\
  (exists fl, files Mem.w_file !! 0%nat = Some fl /\ file fl = None) /\
  @File_Sync Mem.X 0 Mem.w_file = Panic nil_deref Mem.w_file /\
  @File_Sync Mem.X 0 Mem.w_done = Panic nil_deref Mem.w_done.
Proof.
  split; [exact reachable_w_file|].
  assert (Hf : files Mem.w_file !! 0%nat
               = Some (Mem.a_file false false))
    by (vm_compute; reflexivity).
  split; [eexists; split; [exact Hf|reflexivity]|].
  split.
  - apply (proj1 File_Sync_absent_handle_panics Mem.w_file 0%nat _ Hf). reflexivity.
  - apply (proj2 (proj2 File_Sync_absent_handle_panics)
             (Mem.after (Mem.with_file0 ++ [@CallWrite Mem.X 0 [Mem.x]; @CallSync Mem.X 0])
                Mem.start) 0%nat Mem.w_done).
    vm_compute. reflexivity.
Defined.

(** ** Further properties at work *)

Lemma reachable_w_written : reachable Mem.w_written.
Proof.
  apply (reachable_run_checked Mem.written Mem.start);
    [apply reachable_init | vm_compute; reflexivity].
Defined.

(** The first write to a file makes the directory and the file; the counts,
    the names and the flags of the scratch stay. *)
Lemma file_operations_frame_witness :
  @File_Write Mem.X 0 [Mem.x] Mem.w_file
    = Ret (1%Z, None) (Mem.after [@CallWrite Mem.X 0 [Mem.x]] Mem.w_file) /\
  file_frame Mem.w_file (Mem.after [@CallWrite Mem.X 0 [Mem.x]] Mem.w_file).
Proof.
  assert (H : @File_Write Mem.X 0 [Mem.x] Mem.w_file
              = Ret (1%Z, None) (Mem.after [@CallWrite Mem.X 0 [Mem.x]] Mem.w_file))
    by (vm_compute; reflexivity).
  split; [exact H|].
  exact (proj1 (file_operations_frame Mem.w_file 0%nat) _ _ _ H).
Defined.

(** A scratch closed with one file, then a second scratch of the range, a
    write to the file of the first and an SST for the second: the first
    still lists its one name and refuses new files. *)
Lemma closed_scratch_is_final_witness :
  scratches Mem.w_stale !! 0%nat
    = Some (Mem.a_scratch ["/data/aux/sstsnapshot/7/abcd/0.sst"] false true) /\
  run_all Mem.later Mem.w_stale = Ret tt (Mem.after Mem.later Mem.w_stale) /\
  @Scratch_SSTs Mem.X 0 (Mem.after Mem.later Mem.w_stale)
    = Ret ["/data/aux/sstsnapshot/7/abcd/0.sst"] (Mem.after Mem.later Mem.w_stale) /\
  @Scratch_NewFile Mem.X 0 false 0 (Mem.after Mem.later Mem.w_stale)
    = Ret (None, Some (AssertionFailedf "SSTSnapshotStorageScratch closed"))
        (Mem.after Mem.later Mem.w_stale).
Proof.
  assert (Hs : scratches Mem.w_stale !! 0%nat
               = Some (Mem.a_scratch ["/data/aux/sstsnapshot/7/abcd/0.sst"] false true))
    by (vm_compute; reflexivity).
  assert (Hrun : run_all Mem.later Mem.w_stale = Ret tt (Mem.after Mem.later Mem.w_stale))
    by (vm_compute; reflexivity).
  destruct (closed_scratch_is_final Mem.w_stale 0%nat _ Mem.later _ Hs eq_refl Hrun)
    as (H1 & _ & H3 & _).
  split; [exact Hs|]. split; [exact Hrun|]. split; [exact H1|].
  exact (H3 false 0%Z).
Defined.

(** A file written, synced and closed, then the same calls: a further write
    is refused and the file is as the Close left it. *)
Lemma closed_file_is_final_witness :
  @File_Close Mem.X 0 Mem.w_written = Ret None Mem.w_done /\
  run_all Mem.later Mem.w_done = Ret tt (Mem.after Mem.later Mem.w_done) /\
  files (Mem.after Mem.later Mem.w_done) !! 0%nat = Some (Mem.a_file true false) /\
  @File_Write Mem.X 0 [Mem.x] (Mem.after Mem.later Mem.w_done)
    = Ret (0%Z, Some (Errorf "file has already been closed"))
        (Mem.after Mem.later Mem.w_done).
Proof.
  assert (Hc : @File_Close Mem.X 0 Mem.w_written = Ret None Mem.w_done)
    by (vm_compute; reflexivity).
  assert (Hrun : run_all Mem.later Mem.w_done = Ret tt (Mem.after Mem.later Mem.w_done))
    by (vm_compute; reflexivity).
  destruct (closed_file_is_final Mem.w_written 0%nat _ Mem.later _ Hc Hrun)
    as (H1 & _ & H3).
  split; [exact Hc|]. split; [exact Hrun|]. split.
  - rewrite H1. vm_compute. reflexivity.
  - apply H3. discriminate.
Defined.

(** Two open scratches of range 7: the count is two; range 8 has no entry. *)
Lemma refcount_counts_open_scratches_witness :
  reachable Mem.w_pair /\
  open_count (scratches Mem.w_pair) 7 = 2%nat /\
  refcount (rangeRefCount (storage Mem.w_pair)) 7 = 2%Z /\
  rangeRefCount (storage Mem.w_pair) !! 8%Z = None.
Proof.
  split; [exact reachable_w_pair|].
  assert (H2 : open_count (scratches Mem.w_pair) 7 = 2%nat) by (vm_compute; reflexivity).
  split; [exact H2|]. split.
  - rewrite (proj1 (refcount_counts_open_scratches Mem.w_pair 7 reachable_w_pair)), H2.
    reflexivity.
  - apply (proj2 (refcount_counts_open_scratches Mem.w_pair 8 reachable_w_pair)).
    vm_compute. reflexivity.
Defined.

(** The only scratch of range 7, with a file on the disk: its Close leaves
    no open scratch and removes the directory of the range with all in it. *)
Lemma Scratch_Close_last_removes_range_witness :
  reachable Mem.w_written /\
  scratches Mem.w_written !! 0%nat
    = Some (Mem.a_scratch ["/data/aux/sstsnapshot/7/abcd/0.sst"] true false) /\
  Mem.dirs (engine (storage Mem.w_written)) = ["/data/aux/sstsnapshot/7/abcd"] /\
  exists res w',
    @Scratch_Close Mem.X 0 Mem.w_written = Ret res w' /\
    open_count (scratches w') 7 = 0%nat /\
    engine (storage w') = Mem.disk [].
Proof.
  assert (Hs : scratches Mem.w_written !! 0%nat
               = Some (Mem.a_scratch ["/data/aux/sstsnapshot/7/abcd/0.sst"] true false))
    by (vm_compute; reflexivity).
  split; [exact reachable_w_written|]. split; [exact Hs|].
  split; [vm_compute; reflexivity|].
  destruct (Scratch_Close_last_removes_range Mem.w_written 0%nat _
              reachable_w_written Hs eq_refl)
    as (res & w' & Hrun & _ & Hn & He).
  exists res, w'. split; [exact Hrun|]. split.
  - refine (eq_trans Hn _). vm_compute. reflexivity.
  - refine (eq_trans He _). vm_compute. reflexivity.
Defined.

(** Sync on a file that was never written: the call panics, on the nil
    handle. *)
Lemma exported_calls_panic_only_on_nil_witness :
  reachable Mem.w_file /\
  run (@CallSync Mem.X 0) Mem.w_file = Panic nil_deref Mem.w_file /\
  nil_deref <> "inconsistent scratch ref count".
Proof.
  assert (Hrun : run (@CallSync Mem.X 0) Mem.w_file = Panic nil_deref Mem.w_file)
    by (vm_compute; reflexivity).
  split; [exact reachable_w_file|]. split; [exact Hrun|].
  destruct (exported_calls_panic_only_on_nil Mem.w_file _ _ _ reachable_w_file Hrun)
    as [_ H].
  exact H.
Defined.

(** A scratch, a file, a write and an SST without data, the names: the disk
    and the limiter are as at the start. *)
Lemma no_data_no_io_witness :
  Forall (fun c => no_data c = true) Mem.idle /\
  run_all Mem.idle Mem.start = Ret tt (Mem.after Mem.idle Mem.start) /\
  engine (storage (Mem.after Mem.idle Mem.start)) = Mem.disk [] /\
  limiter (storage (Mem.after Mem.idle Mem.start)) = [].
Proof.
  assert (Hf : Forall (fun c => no_data c = true) Mem.idle)
    by (repeat constructor).
  assert (Hrun : run_all Mem.idle Mem.start = Ret tt (Mem.after Mem.idle Mem.start))
    by (vm_compute; reflexivity).
  split; [exact Hf|]. split; [exact Hrun|].
  destruct (no_data_no_io Mem.idle Mem.start _ Hf Hrun) as [He Hl].
  split; [rewrite He; reflexivity | rewrite Hl; reflexivity].
Defined.

(** An SST on a disk whose Create fails: the error comes back and the name
    is on the list all the same. *)
Lemma Scratch_WriteSST_registers_name_witness :
  scratches Mem.w_unlucky !! 0%nat
    = Some (Mem.a_scratch ["/data/aux/sstsnapshot/7/abcd/0.sst";
                           "/data/aux/sstsnapshot/7/abcd/1.sst";
                           "/data/aux/sstsnapshot/7/abcd/2.sst"] true false) /\
  [Mem.x] <> [] /\
  exists w',
    @Scratch_WriteSST Mem.X 0 false [Mem.x] Mem.w_unlucky
      = Ret (Some (@External Mem.X "create: input/output error")) w' /\
    @Scratch_SSTs Mem.X 0 w'
      = Ret ["/data/aux/sstsnapshot/7/abcd/0.sst";
             "/data/aux/sstsnapshot/7/abcd/1.sst";
             "/data/aux/sstsnapshot/7/abcd/2.sst";
             "/data/aux/sstsnapshot/7/abcd/3.sst"] w' /\
    length (files w') = 4%nat.
Proof.
  assert (Hs : scratches Mem.w_unlucky !! 0%nat
               = Some (Mem.a_scratch ["/data/aux/sstsnapshot/7/abcd/0.sst";
                                      "/data/aux/sstsnapshot/7/abcd/1.sst";
                                      "/data/aux/sstsnapshot/7/abcd/2.sst"] true false))
    by (vm_compute; reflexivity).
  assert (Hne : [Mem.x] <> []) by discriminate.
  assert (Hrun : @Scratch_WriteSST Mem.X 0 false [Mem.x] Mem.w_unlucky
                 = Ret (Some (@External Mem.X "create: input/output error"))
                     (Mem.after [@CallWriteSST Mem.X 0 false [Mem.x]] Mem.w_unlucky))
    by (vm_compute; reflexivity).
  split; [exact Hs|]. split; [exact Hne|].
  destruct (Scratch_WriteSST_registers_name Mem.w_unlucky 0%nat _ false [Mem.x] _ _
              Hs eq_refl Hne Hrun) as (H1 & H2 & _ & _).
  eexists. split; [exact Hrun|]. split.
  - refine (eq_trans H1 _). vm_compute. reflexivity.
  - rewrite H2. vm_compute. reflexivity.
Defined.

(** An SST of two bytes on a fresh scratch: the limiter was asked for two
    bytes, the file is made and closed, the directory exists. *)
Lemma Scratch_WriteSST_success_witness :
  reachable Mem.w_one /\
  scratches Mem.w_one !! 0%nat = Some (Mem.a_scratch [] false false) /\
  [Mem.x; Mem.x] <> [] /\
  exists w',
    @Scratch_WriteSST Mem.X 0 false [Mem.x; Mem.x] Mem.w_one = Ret None w' /\
    limiter (storage w') = [2%Z] /\
    exists sc', scratches w' !! 0%nat = Some sc' /\
                dirCreated sc' = true /\ closed sc' = false.
Proof.
  assert (Hs : scratches Mem.w_one !! 0%nat = Some (Mem.a_scratch [] false false))
    by (vm_compute; reflexivity).
  assert (Hne : [Mem.x; Mem.x] <> []) by discriminate.
  assert (Hrun : @Scratch_WriteSST Mem.X 0 false [Mem.x; Mem.x] Mem.w_one
                 = Ret None (Mem.after [@CallWriteSST Mem.X 0 false [Mem.x; Mem.x]] Mem.w_one))
    by (vm_compute; reflexivity).
  split; [exact reachable_w_one|]. split; [exact Hs|]. split; [exact Hne|].
  destruct (Scratch_WriteSST_success Mem.w_one 0%nat _ false [Mem.x; Mem.x] _
              reachable_w_one Hs eq_refl Hne Hrun) as (_ & Hl & _ & Hsc).
  eexists. split; [exact Hrun|]. split.
  - rewrite Hl. vm_compute. reflexivity.
  - exact Hsc.
Defined.

(** A storage on the in-memory disk. *)
Lemma NewSSTSnapshotStorage_root_witness :
  Clean "/data/aux" = "/data/aux" /\
  dir (@NewSSTSnapshotStorage Mem.X (Mem.disk []) []) = "/data/aux/sstsnapshot".
Proof.
  split; [vm_compute; reflexivity|].
  refine (proj1 (@NewSSTSnapshotStorage_root Mem.X (Mem.disk []) [] _ _ _)).
  - vm_compute. reflexivity.
  - discriminate.
  - discriminate.
Defined.


(** The three files of the scratch are below the directory of range 7. *)
Lemma scratch_files_below_range_directory_witness :
  reachable Mem.w_unlucky /\
  plain "abcd" = true /\
  Join [dir (storage Mem.w_unlucky); Itoa 7] = "/data/aux/sstsnapshot/7" /\
  forall name,
    In name ["/data/aux/sstsnapshot/7/abcd/0.sst";
             "/data/aux/sstsnapshot/7/abcd/1.sst";
             "/data/aux/sstsnapshot/7/abcd/2.sst"] ->
    exists i : nat,
      (i < 3)%nat /\
      name = ("/data/aux/sstsnapshot/7" ++ "/" ++ "abcd" ++ "/"
                ++ Itoa (Z.of_nat i) ++ ".sst")%string.
Proof.
  assert (Hs : scratches Mem.w_unlucky !! 0%nat
               = Some (Mem.a_scratch ["/data/aux/sstsnapshot/7/abcd/0.sst";
                                      "/data/aux/sstsnapshot/7/abcd/1.sst";
                                      "/data/aux/sstsnapshot/7/abcd/2.sst"] true false))
    by (vm_compute; reflexivity).
  split; [exact reachable_w_unlucky|]. split; [reflexivity|].
  split; [vm_compute; reflexivity|].
  assert (Hd : Join [dir (storage Mem.w_unlucky); Itoa 7] = "/data/aux/sstsnapshot/7")
    by (vm_compute; reflexivity).
  destruct (scratch_files_below_range_directory Mem.w_unlucky 0%nat _ "abcd"
              reachable_w_unlucky Hs) as (_ & _ & H3).
  { vm_compute. reflexivity. }
  { reflexivity. }
  simpl rangeID in H3. rewrite Hd in H3. exact H3.
Defined.

(** An SST on a disk whose Create fails: the error of the Write is the one
    WriteSST returns. *)
Lemma Scratch_WriteSST_first_error_witness :
  scratches Mem.w_unlucky !! 0%nat
    = Some (Mem.a_scratch ["/data/aux/sstsnapshot/7/abcd/0.sst";
                           "/data/aux/sstsnapshot/7/abcd/1.sst";
                           "/data/aux/sstsnapshot/7/abcd/2.sst"] true false) /\
  [Mem.x] <> [] /\
  @Scratch_WriteSST Mem.X 0 false [Mem.x] Mem.w_unlucky
    = Ret (Some (@External Mem.X "create: input/output error"))
        (Mem.after [@CallWriteSST Mem.X 0 false [Mem.x]] Mem.w_unlucky).
Proof.
  assert (Hs : scratches Mem.w_unlucky !! 0%nat
               = Some (Mem.a_scratch ["/data/aux/sstsnapshot/7/abcd/0.sst";
                                      "/data/aux/sstsnapshot/7/abcd/1.sst";
                                      "/data/aux/sstsnapshot/7/abcd/2.sst"] true false))
    by (vm_compute; reflexivity).
  assert (Hne : [Mem.x] <> []) by discriminate.
  split; [exact Hs|]. split; [exact Hne|].
  apply (proj1 (Scratch_WriteSST_first_error Mem.w_unlucky 0%nat _ false [Mem.x]
                  Hs eq_refl Hne)
           0%Z (@External Mem.X "create: input/output error")
           (Mem.after [@CallWriteSST Mem.X 0 false [Mem.x]] Mem.w_unlucky)
           (Some (@New Mem.X "file is empty"))).
  - vm_compute. reflexivity.
  - vm_compute. reflexivity.
Defined.

(** Redaction without markers of a marked text. *)
Lemma editor_result_flag_witness :
  exists ed,
    Redact.getEditor Redact.ascii_library (Redact.SelectEditMode true false)
      = Redact.Editor ed /\
    Redact.redactable
      (ed {| Redact.msg := list_byte_of_string "user <alice>";
             Redact.redactable := true |}) = false /\
    Redact.msg
      (ed {| Redact.msg := list_byte_of_string "user <alice>";
             Redact.redactable := true |}) = list_byte_of_string "user x".
Proof.
  destruct (Redact.getEditor Redact.ascii_library (Redact.SelectEditMode true false))
    as [ed|m] eqn:E; [|discriminate E].
  exists ed. split; [reflexivity|]. split.
  - exact (editor_result_flag Redact.ascii_library true false ed _ E).
  - injection E as <-. vm_compute. reflexivity.
Defined.

(** Keeping the markers of a text that has them. *)
Lemma editor_without_redaction_converts_witness :
  exists ed,
    Redact.getEditor Redact.ascii_library (Redact.SelectEditMode false true)
      = Redact.Editor ed /\
    ed {| Redact.msg := list_byte_of_string "user <alice>";
          Redact.redactable := true |}
    = {| Redact.msg := list_byte_of_string "user <alice>";
         Redact.redactable := true |}.
Proof.
  destruct (Redact.getEditor Redact.ascii_library (Redact.SelectEditMode false true))
    as [ed|m] eqn:E; [|discriminate E].
  exists ed. split; [reflexivity|].
  apply (proj1 (editor_without_redaction_converts Redact.ascii_library true ed E)).
  reflexivity.
Defined.

(** An entry that is not marked, redacted with markers kept: the message is
    the redacted marker, and the tags are redacted as if they were marked. *)
Lemma maybeRedactEntry_flag_and_tags_witness :
  exists ed,
    Redact.getEditor Redact.ascii_library (Redact.SelectEditMode true true)
      = Redact.Editor ed /\
    Redact.maybeRedactEntry (Redact.an_entry false) ed
    = {| Redact.Message := "<x>"; Redact.Tags := "n1,client=<x>";
         Redact.Redactable := true; Redact.other_fields := 42%nat |}.
Proof.
  destruct (Redact.getEditor Redact.ascii_library (Redact.SelectEditMode true true))
    as [ed|m] eqn:E; [|discriminate E].
  exists ed. split; [reflexivity|].
  destruct (maybeRedactEntry_flag_and_tags Redact.ascii_library true true ed
              (Redact.an_entry false) E) as (H1 & H2 & H3 & H4).
  destruct (Redact.maybeRedactEntry (Redact.an_entry false) ed) as [m t fl o].
  simpl in H1, H2, H3, H4. rewrite H1, H2, H3, H4.
  injection E as <-. vm_compute. reflexivity.
Defined.

(** A marked entry, markers kept and nothing redacted: it comes back as it
    is. *)
Lemma maybeRedactEntry_without_redaction_witness :
  exists ed,
    Redact.getEditor Redact.ascii_library (Redact.SelectEditMode false true)
      = Redact.Editor ed /\
    Redact.maybeRedactEntry (Redact.an_entry true) ed = Redact.an_entry true.
Proof.
  destruct (Redact.getEditor Redact.ascii_library (Redact.SelectEditMode false true))
    as [ed|m] eqn:E; [|discriminate E].
  exists ed. split; [reflexivity|].
  apply (proj1 (maybeRedactEntry_without_redaction Redact.ascii_library true ed
                  (Redact.an_entry true) E)).
  reflexivity.
Defined.

(** Two sinks, one without editor: both get the editor, and the cleanup
    gives the first its nil back. *)
Lemma TestingSetRedactable_cleanup_restores_witness :
  NoDup (Redact.sinkInfos Redact.two_sinks) /\
  exists lg' cleanup,
    Redact.TestingSetRedactable Redact.ascii_library true Redact.two_sinks
      = Some (lg', cleanup) /\
    (exists ed, Redact.editor <$> Redact.sinks lg' !! 0%nat = Some (Some ed)) /\
    cleanup lg' = Some Redact.two_sinks.
Proof.
  assert (Hnd : NoDup (Redact.sinkInfos Redact.two_sinks)).
  { change (NoDup [1%nat; 0%nat]). apply NoDup_ListNoDup.
    repeat constructor; simpl; intuition discriminate. }
  split; [exact Hnd|].
  destruct (TestingSetRedactable_cleanup_restores Redact.ascii_library true
              Redact.two_sinks Hnd)
    as (lg' & cleanup & ed & Hrun & _ & _ & Hin & _ & Hback).
  { intros p Hp. change (p ∈ [1%nat; 0%nat]) in Hp.
    rewrite !elem_of_cons, elem_of_nil in Hp.
    destruct Hp as [-> | [-> | []]]; eexists; reflexivity. }
  exists lg', cleanup. split; [exact Hrun|]. split; [|exact Hback].
  exists ed. rewrite (Hin 0%nat _ (ltac:(right; left)) eq_refl). reflexivity.
Defined.
